(** * EbmLib: activation units and the restricted Boltzmann machine

    A shallow embedding of [ebmlib/units.py] and [ebmlib/rbm/rbm.py].

    - numpy's float64 appears through the interface [Float]; it has two
      instances: the real numbers (exact arithmetic, used for the functional
      properties) and [xfloat], binary64 with rounding to nearest, overflow
      and the IEEE special values (used for the numerical properties).
    - Arrays are 1-D or 2-D ([ndarray]); the arrays a model owns live in a
      heap, and the model holds their locations, so that [copy()] and
      in-place mutation by a trainer are visible.
    - Python's exceptions, the heap and numpy's global random generator are
      threaded by the monad [M]. *)

From Stdlib Require Import Reals Lra ZArith.
From stdpp Require Import base gmap strings list.

(** ** Python exceptions *)

Inductive exn : Type :=
  | ImportError (name : string)
  | NameError (name : string)
  | KeyError (key : string)
  | AttributeError (attr : string)
  | ValueError (msg : string)
  | TypeError (msg : string).

(** ** The float interface *)

Class Float (T : Type) : Type := {
  fz : Z -> T;                 (* an integral literal: 0., 1., -1 *)
  fadd : T -> T -> T;
  fsub : T -> T -> T;
  fmul : T -> T -> T;
  fdiv : T -> T -> T;
  fneg : T -> T;
  fexp : T -> T;
  flog : T -> T;
  ftanh : T -> T;
  fge : T -> T -> bool;        (* x >= y *)
  fgt : T -> T -> bool;        (* x > y *)
  fmax : T -> T -> T
}.

(** A decimal literal [m / 10^k], such as 0.2 or 0.00001. *)
Definition dec {T} `{Float T} (m : Z) (k : nat) : T :=
  fdiv (fz m) (fz (10 ^ Z.of_nat k)).

(** ** Arrays *)

Inductive ndarray (T : Type) : Type :=
  | A1 (xs : list T)
  | A2 (ncols : nat) (rows : list (list T)).
Arguments A1 {T} xs.
Arguments A2 {T} ncols rows.

Inductive shape : Type :=
  | Sh1 (n : nat)
  | Sh2 (r c : nat).

#[global] Instance shape_eq_dec : EqDecision shape.
Proof. solve_decision. Defined.

Definition shape_of {T} (a : ndarray T) : shape :=
  match a with
  | A1 xs => Sh1 (length xs)
  | A2 c rows => Sh2 (length rows) c
  end.

(** A 2-D array is rectangular: every row has [ncols] entries. *)
Definition rect {T} (c : nat) (rows : list (list T)) : Prop :=
  Forall (fun row => length row = c) rows.

Definition amap {T U} (f : T -> U) (a : ndarray T) : ndarray U :=
  match a with
  | A1 xs => A1 (fmap f xs)
  | A2 c rows => A2 c ((fun row : list T => f <$> row) <$> rows)
  end.

(** Broadcasting of one dimension: equal sizes, or one of them is 1. *)
Definition bc_dim (n m : nat) : option nat :=
  if Nat.eqb n m then Some n
  else if Nat.eqb n 1 then Some m
  else if Nat.eqb m 1 then Some n
  else None.

(** Elementwise combination of two lists along a dimension that
    [bc_dim] accepted: pairwise, or the single element against all. *)
Definition bc_zip {A B C} (f : A -> B -> C) (xs : list A) (ys : list B) : list C :=
  if Nat.eqb (length xs) (length ys) then zip_with f xs ys
  else match xs, ys with
       | [x], _ => fmap (f x) ys
       | _, [y] => fmap (fun x => f x y) xs
       | _, _ => []
       end.

Definition bc_error : exn := ValueError "operands could not be broadcast together".

(** Elementwise binary operation of numpy on arrays of at most two
    dimensions, with its broadcasting rule (trailing dimensions aligned). *)
Definition np_binop {T U} (f : T -> T -> U) (a b : ndarray T) : exn + ndarray U :=
  match a, b with
  | A1 xs, A1 ys =>
      match bc_dim (length xs) (length ys) with
      | Some _ => inr (A1 (bc_zip f xs ys))
      | None => inl bc_error
      end
  | A2 c1 r1, A2 c2 r2 =>
      match bc_dim c1 c2, bc_dim (length r1) (length r2) with
      | Some c, Some _ => inr (A2 c (bc_zip (bc_zip f) r1 r2))
      | _, _ => inl bc_error
      end
  | A1 xs, A2 c2 r2 =>
      match bc_dim (length xs) c2 with
      | Some c => inr (A2 c (fmap (fun row => bc_zip f xs row) r2))
      | None => inl bc_error
      end
  | A2 c1 r1, A1 ys =>
      match bc_dim c1 (length ys) with
      | Some c => inr (A2 c (fmap (fun row => bc_zip f row ys) r1))
      | None => inl bc_error
      end
  end.

Section Numpy.
Context {T : Type} `{FT : Float T}.

(** [np.sum] of a 1-D array, and of all the entries of a 2-D array. *)
Definition np_sum1 (xs : list T) : T := foldr fadd (fz 0) xs.
Definition np_sum2 (rows : list (list T)) : T := np_sum1 (concat rows).

(** One entry of a matrix-vector product. *)
Definition dot_row (row v : list T) : T := np_sum1 (zip_with fmul row v).

(** [np.dot(A, v)] for a 2-D [A] of shape (r, c) and a 1-D [v]:
    the inner dimensions must agree. *)
Definition np_dot (c : nat) (rows : list (list T)) (v : list T) : exn + list T :=
  if Nat.eqb c (length v) then inr (fmap (fun row => dot_row row v) rows)
  else inl (ValueError "shapes not aligned").

(** [A.T]: the transpose of a 2-D array of shape (r, c) has shape (c, r). *)
Definition column (j : nat) (rows : list (list T)) : list T :=
  fmap (fun row => nth j row (fz 0)) rows.
Definition transpose (c : nat) (rows : list (list T)) : nat * list (list T) :=
  (length rows, fmap (fun j => column j rows) (seq 0 c)).

(** [np.outer(h, v)]: shape (len h, len v), entry (j, i) is [h_j * v_i]. *)
Definition np_outer (h v : list T) : nat * list (list T) :=
  (length v, (fun hj => fmul hj <$> v) <$> h).

(** [np.zeros(n)] and [np.zeros((r, c))]; numpy refuses a negative
    dimension. *)
Definition dim_of_Z (n : Z) : exn + nat :=
  if Z.ltb n 0 then inl (ValueError "negative dimensions are not allowed")
  else inr (Z.to_nat n).
End Numpy.

(** ** The world: heap of arrays and numpy's global random generator *)

Abbreviation loc := positive (only parsing).

(** [rsrc] is the stream of uniform draws in the interval from 0 to 1 that
    the generator will hand out, [gsrc] the stream of standard normal
    draws, and [rpos] the number of draws consumed so far. *)
Record world (T : Type) : Type := World {
  heap : gmap loc (ndarray T);
  rsrc : nat -> T;
  gsrc : nat -> T;
  rpos : nat
}.
Arguments World {T} heap rsrc gsrc rpos.
Arguments heap {T} w.
Arguments rsrc {T} w.
Arguments gsrc {T} w.
Arguments rpos {T} w.

Inductive outcome (S A : Type) : Type :=
  | Ok (a : A) (s : S)
  | Raise (e : exn).
Arguments Ok {S A} a s.
Arguments Raise {S A} e.

(** The value an outcome carries, when there is one. *)
Definition value_of {S A} (o : outcome S A) : exn + A :=
  match o with
  | Ok a _ => inr a
  | Raise e => inl e
  end.

Definition M (T A : Type) : Type := world T -> outcome (world T) A.

#[global] Instance M_ret {T} : MRet (M T) := fun A a w => Ok a w.
#[global] Instance M_bind {T} : MBind (M T) := fun A B f m w =>
  match m w with
  | Ok a w' => f a w'
  | Raise e => Raise e
  end.

#[global] Instance M_fmap {T} : FMap (M T) := fun A B f m w =>
  match m w with
  | Ok a w' => Ok (f a) w'
  | Raise e => Raise e
  end.

Definition raise {T A} (e : exn) : M T A := fun _ => Raise e.

Definition lift {T A} (r : exn + A) : M T A :=
  match r with
  | inl e => raise e
  | inr a => mret a
  end.

Section Heap.
Context {T : Type}.

(** A new array object. *)
Definition alloc (a : ndarray T) : M T loc := fun w =>
  let l := fresh (dom (heap w)) in
  Ok l (World (<[l := a]> (heap w)) (rsrc w) (gsrc w) (rpos w)).

Definition deref (l : loc) : M T (ndarray T) := fun w =>
  match heap w !! l with
  | Some a => Ok a w
  | None => Raise (AttributeError "dangling reference")
  end.

(** The arrays of a model have a fixed number of dimensions. *)
Definition deref1 (l : loc) : M T (list T) :=
  a ← deref l;
  match a with
  | A1 xs => mret xs
  | A2 _ _ => raise (TypeError "expected a 1-D array")
  end.

Definition deref2 (l : loc) : M T (nat * list (list T)) :=
  a ← deref l;
  match a with
  | A2 c rows => mret (c, rows)
  | A1 _ => raise (TypeError "expected a 2-D array")
  end.

(** In-place mutation of an array object by its owner or by a trainer
    ([W[...] = a], [W += ...]). *)
Definition mutate (l : loc) (a : ndarray T) (w : world T) : world T :=
  World (<[l := a]> (heap w)) (rsrc w) (gsrc w) (rpos w).

(** [n] consecutive draws of a stream, from position [p]. *)
Definition draws (src : nat -> T) (p n : nat) : list T := fmap src (seq p n).

Definition draw_shape (src : nat -> T) (p : nat) (sh : shape) : ndarray T :=
  match sh with
  | Sh1 n => A1 (draws src p n)
  | Sh2 r c => A2 c (fmap (fun i => draws src (p + i * c) c) (seq 0 r))
  end.

Definition size_of (sh : shape) : nat :=
  match sh with
  | Sh1 n => n
  | Sh2 r c => r * c
  end.

(** [numpy.random.random(shape)] *)
Definition np_random_random (sh : shape) : M T (ndarray T) := fun w =>
  Ok (draw_shape (rsrc w) (rpos w) sh)
     (World (heap w) (rsrc w) (gsrc w) (rpos w + size_of sh)).

(** Standard normal draws of a given shape. *)
Definition np_random_standard_normal (sh : shape) : M T (ndarray T) := fun w =>
  Ok (draw_shape (gsrc w) (rpos w) sh)
     (World (heap w) (rsrc w) (gsrc w) (rpos w + size_of sh)).
End Heap.

(** ** units.py *)

(** The functions the module defines, and [numpy.tanh], which its
    registry refers to. *)
Inductive func : Type :=
  | f_pthresh | f_sigmoid | f_tanh | f_rectlinear | f_linear
  | f_dsigmoid | f_dtanh | f_dlinear | f_drectlinear
  | f_numpy_tanh.

#[global] Instance func_eq_dec : EqDecision func.
Proof. solve_decision. Defined.

(** [unittypes]: the function of an activation name. *)
Definition unittypes : gmap string func :=
  <["pthresh" := f_pthresh]> (
  <["sigmoid" := f_sigmoid]> (
  <["tanh" := f_numpy_tanh]> (
  <["rectlinear" := f_rectlinear]> (
  <["linear" := f_linear]> ∅)))).

(** [derivatives]: the derivative of an activation, by its name. *)
Definition derivatives : gmap string func :=
  <["sigmoid" := f_dsigmoid]> (
  <["tanh" := f_dtanh]> (
  <["rectlinear" := f_drectlinear]> (
  <["linear" := f_dlinear]> ∅))).

(** What a module-level name of units.py is bound to. *)
Inductive pyobj : Type :=
  | PModule (name : string)
  | PFunc (f : func)
  | PDict (d : gmap string func).

(** The global namespace of units.py once the module has been executed:
    [import numpy], nine [def]s and two dictionaries. *)
Definition units_globals : gmap string pyobj :=
  <["numpy" := PModule "numpy"]> (
  <["pthresh" := PFunc f_pthresh]> (
  <["sigmoid" := PFunc f_sigmoid]> (
  <["tanh" := PFunc f_tanh]> (
  <["rectlinear" := PFunc f_rectlinear]> (
  <["linear" := PFunc f_linear]> (
  <["dsigmoid" := PFunc f_dsigmoid]> (
  <["dtanh" := PFunc f_dtanh]> (
  <["dlinear" := PFunc f_dlinear]> (
  <["drectlinear" := PFunc f_drectlinear]> (
  <["unittypes" := PDict unittypes]> (
  <["derivatives" := PDict derivatives]> ∅))))))))))).

(** What a Python expression of these modules evaluates to. *)
Inductive pyval (T : Type) : Type :=
  | VArr (a : ndarray T)
  | VNum (x : T)
  | VObj (o : pyobj).
Arguments VArr {T} a.
Arguments VNum {T} x.
Arguments VObj {T} o.

Section Units.
Context {T : Type} `{FT : Float T}.

(** Reading a global name inside a function of units.py. *)
Definition load_global (name : string) : M T pyobj :=
  match units_globals !! name with
  | Some o => mret o
  | None => raise (NameError name)
  end.

(** [d[key]] *)
Definition dict_getitem {V} (d : gmap string V) (key : string) : M T V :=
  match d !! key with
  | Some v => mret v
  | None => raise (KeyError key)
  end.

(** [o.shape] as the size of a random draw, for an object bound at
    module level: functions and dictionaries have no such attribute, and
    [numpy.shape] is a function, not a size. *)
Definition getattr_shape (o : pyobj) : M T shape :=
  match o with
  | PModule _ => raise (TypeError "an integer is required")
  | _ => raise (AttributeError "shape")
  end.

(** [numpy.tanh(o)] of an object that is not numeric. *)
Definition np_tanh_obj (o : pyobj) : M T (ndarray T) :=
  raise (TypeError "loop of ufunc does not support argument 0").

(** [numpy.array(b, dtype = numpy.float32)] of a boolean. *)
Definition float32_of_bool (b : bool) : T := if b then fz 1 else fz 0.

(** [1./(1.+numpy.exp(-x))] on one entry. *)
Definition sigmoid1 (x : T) : T :=
  fdiv (fz 1) (fadd (fz 1) (fexp (fneg x))).

Definition sigmoid (x : ndarray T) : M T (ndarray T) :=
  mret (amap sigmoid1 x).

Definition pthresh (x : ndarray T) : M T (ndarray T) :=
  s ← sigmoid x;
  u ← np_random_random (shape_of x);
  b ← lift (np_binop fge s u);
  mret (amap float32_of_bool b).

(** [def tanh(x): return numpy.tanh(a)] *)
Definition tanh (x : ndarray T) : M T (ndarray T) :=
  a ← load_global "a";
  np_tanh_obj a.

(** [numpy.random.normal(loc, scale, size)] with an array of scales:
    the scales are broadcast to [size]. *)
Definition np_random_normal (mean : T) (scale : ndarray T) (size : shape)
  : M T (ndarray T) :=
  z ← np_random_standard_normal size;
  n ← lift (np_binop fmul scale z);
  if decide (shape_of n = size) then mret (amap (fadd mean) n)
  else raise bc_error.

Definition rectlinear (x : ndarray T) : M T (ndarray T) :=
  s ← sigmoid x;
  let scale := amap (fun si => fadd si (dec 1 5)) s in
  a ← load_global "a";
  size ← getattr_shape a;
  noise ← np_random_normal (fz 0) scale size;
  y ← lift (np_binop fadd x noise);
  mret (amap (fmax (fz 0)) y).

(** [def linear(x): return a] *)
Definition linear (x : ndarray T) : M T pyobj :=
  load_global "a".

Definition dsigmoid (y : ndarray T) : M T (ndarray T) :=
  lift (np_binop fmul y (amap (fsub (fz 1)) y)).

Definition dtanh (y : ndarray T) : M T (ndarray T) :=
  mret (amap (fun yi => fsub (fz 1) (fmul yi yi)) y).

Definition dlinear (y : ndarray T) : M T T :=
  mret (fz 1).

Definition drectlinear (y : ndarray T) : M T (ndarray T) :=
  mret (amap (fun yi => float32_of_bool (fgt yi (fz 0))) y).

Definition numpy_tanh (x : ndarray T) : M T (ndarray T) :=
  mret (amap ftanh x).

(** Calling a function object on an array. *)
Definition call (f : func) (x : ndarray T) : M T (pyval T) :=
  match f with
  | f_pthresh => VArr <$> pthresh x
  | f_sigmoid => VArr <$> sigmoid x
  | f_tanh => VArr <$> tanh x
  | f_rectlinear => VArr <$> rectlinear x
  | f_linear => VObj <$> linear x
  | f_dsigmoid => VArr <$> dsigmoid x
  | f_dtanh => VArr <$> dtanh x
  | f_dlinear => VNum <$> dlinear x
  | f_drectlinear => VArr <$> drectlinear x
  | f_numpy_tanh => VArr <$> numpy_tanh x
  end.
End Units.

(** ** rbm.py *)

(** [from .. units import unittypes, sigmoid, rthresh, pthresh] *)
Definition rbm_imports : list string :=
  ["unittypes"; "sigmoid"; "rthresh"; "pthresh"].

(** [from module import names]: every name, in order, must be an
    attribute of the module. *)
Fixpoint import_from (ns : gmap string pyobj) (names : list string)
    (g : gmap string pyobj) : exn + gmap string pyobj :=
  match names with
  | [] => inr g
  | name :: rest =>
      match ns !! name with
      | Some o => import_from ns rest (<[name := o]> g)
      | None => inl (ImportError name)
      end
  end.

(** The import statement at the head of rbm.py. *)
Definition load_rbm_imports : exn + gmap string pyobj :=
  import_from units_globals rbm_imports ∅.

(** An instance of [Rbm]. The arrays are objects of the heap. *)
Record Rbm : Type := MkRbm {
  nvis : Z;
  nhid : Z;
  W : loc;
  vb : loc;
  hb : loc;
  dW : loc;
  dvb : loc;
  dhb : loc;
  htype : string;
  vtype : string;
  hact : func;
  vact : func
}.

(** The defaults of [__init__]. *)
Definition default_vtype : string := "pthresh".
Definition default_htype : string := "sigmoid".

(** A value of the dictionary of [__getstate__]. *)
Inductive dval : Type :=
  | DInt (n : Z)
  | DStr (s : string)
  | DArr (l : loc).

Section RbmMethods.
Context {T : Type} `{FT : Float T}.

(** The object a name imported from units is bound to. The methods below
    call [sigmoid] and read [unittypes] directly, as units.py defines
    them; [rthresh] is read through this lookup. *)
Definition imported (name : string) : M T pyobj :=
  match units_globals !! name with
  | Some o => mret o
  | None => raise (ImportError name)
  end.

Definition call_obj (o : pyobj) (x : ndarray T) : M T (pyval T) :=
  match o with
  | PFunc f => call f x
  | _ => raise (TypeError "object is not callable")
  end.

Definition np_sum (a : ndarray T) : T :=
  match a with
  | A1 xs => np_sum1 xs
  | A2 _ rows => np_sum2 rows
  end.

(** [np.zeros] *)
Definition np_zeros1 (n : nat) : ndarray T := A1 (replicate n (fz 0)).
Definition np_zeros2 (r c : nat) : ndarray T := A2 c (replicate r (replicate c (fz 0))).

(** [np.random.uniform(low, high, size = (r, c))] *)
Definition np_random_uniform (low high : T) (r c : nat) : M T (ndarray T) :=
  u ← np_random_random (Sh2 r c);
  mret (amap (fun ui => fadd low (fmul (fsub high low) ui)) u).

Definition Rbm__init__ (nvis nhid : Z) (vtype htype : option string) : M T Rbm :=
  let vtype := default default_vtype vtype in
  let htype := default default_htype htype in
  r ← lift (dim_of_Z nhid);
  c ← lift (dim_of_Z nvis);
  W0 ← np_random_uniform (fneg (dec 2 1)) (dec 2 1) r c;
  W ← alloc W0;
  vb ← alloc (np_zeros1 c);
  hb ← alloc (np_zeros1 r);
  dW ← alloc (np_zeros2 r c);
  dvb ← alloc (np_zeros1 c);
  dhb ← alloc (np_zeros1 r);
  hact ← dict_getitem unittypes htype;
  vact ← dict_getitem unittypes vtype;
  mret (MkRbm nvis nhid W vb hb dW dvb dhb htype vtype hact vact).

Definition ff (self : Rbm) (v : list T) : M T (ndarray T) :=
  '(c, rows) ← deref2 (W self);
  d ← lift (np_dot c rows v);
  b ← deref1 (hb self);
  s ← lift (np_binop fadd (A1 d) (A1 b));
  sigmoid s.

Definition fb (self : Rbm) (h : list T) : M T (ndarray T) :=
  '(c, rows) ← deref2 (W self);
  let '(ct, rowst) := transpose c rows in
  d ← lift (np_dot ct rowst h);
  b ← deref1 (vb self);
  s ← lift (np_binop fadd (A1 d) (A1 b));
  sigmoid s.

Definition hid_sample (self : Rbm) (h : ndarray T) : M T (pyval T) :=
  rthresh ← imported "rthresh";
  call_obj rthresh h.

Definition vis_sample (self : Rbm) (v : ndarray T) : M T (pyval T) :=
  rthresh ← imported "rthresh";
  call_obj rthresh v.

Definition reconstruct (self : Rbm) (v : list T) : M T (pyval T) :=
  rthresh ← imported "rthresh";
  p ← ff self v;
  s ← call_obj rthresh p;
  match s with
  | VArr (A1 hs) =>
      q ← fb self hs;
      call_obj rthresh q
  | _ => raise (TypeError "expected a 1-D array")
  end.

Definition free_energy (self : Rbm) (v : list T) : M T T :=
  b ← deref1 (vb self);
  p ← lift (np_binop fmul (A1 v) (A1 b));
  let vbias_term := fmul (fz (-1)) (np_sum p) in
  '(c, rows) ← deref2 (W self);
  d ← lift (np_dot c rows v);
  hbv ← deref1 (hb self);
  x ← lift (np_binop fadd (A1 d) (A1 hbv));
  let hidden_term :=
    fmul (fz (-1)) (np_sum (amap (fun xj => flog (fadd (fz 1) (fexp xj))) x)) in
  mret (fadd vbias_term hidden_term).

Definition energy (self : Rbm) (v h : list T) : M T T :=
  b ← deref1 (vb self);
  p ← lift (np_binop fmul (A1 v) (A1 b));
  let vbias_term := fmul (fz (-1)) (np_sum p) in
  hbv ← deref1 (hb self);
  q ← lift (np_binop fmul (A1 h) (A1 hbv));
  let hbias_term := fmul (fz (-1)) (np_sum q) in
  '(c, rows) ← deref2 (W self);
  let '(co, rowso) := np_outer h v in
  wo ← lift (np_binop fmul (A2 c rows) (A2 co rowso));
  let vhterm := fmul (fz (-1)) (np_sum wo) in
  mret (fadd (fadd vbias_term hbias_term) vhterm).

(** [a.copy()]: a new array object with the same contents. *)
Definition np_copy (l : loc) : M T loc :=
  a ← deref l;
  alloc a.

Definition Rbm__getstate__ (self : Rbm) : M T (gmap string dval) :=
  cW ← np_copy (W self);
  cvb ← np_copy (vb self);
  chb ← np_copy (hb self);
  cdW ← np_copy (dW self);
  cdhb ← np_copy (dhb self);
  cdvb ← np_copy (dvb self);
  mret (<["nvis" := DInt (nvis self)]> (
        <["nhid" := DInt (nhid self)]> (
        <["vtype" := DStr (vtype self)]> (
        <["htype" := DStr (htype self)]> (
        <["W" := DArr cW]> (
        <["vb" := DArr cvb]> (
        <["hb" := DArr chb]> (
        <["dW" := DArr cdW]> (
        <["dhb" := DArr cdhb]> (
        <["dvb" := DArr cdvb]> ∅)))))))))).

(** The fields of [Rbm] are typed here, so a dictionary value of another
    kind is refused when it is read. *)
Definition get_int (d : gmap string dval) (key : string) : M T Z :=
  x ← dict_getitem d key;
  match x with DInt n => mret n | _ => raise (TypeError key) end.
Definition get_str (d : gmap string dval) (key : string) : M T string :=
  x ← dict_getitem d key;
  match x with DStr s => mret s | _ => raise (TypeError key) end.
Definition get_arr (d : gmap string dval) (key : string) : M T loc :=
  x ← dict_getitem d key;
  match x with DArr l => mret l | _ => raise (TypeError key) end.

(** [__setstate__] assigns every attribute of [self]; the result is the
    instance after the call. *)
Definition Rbm__setstate__ (d : gmap string dval) : M T Rbm :=
  nvis ← get_int d "nvis";
  nhid ← get_int d "nhid";
  vtype ← get_str d "vtype";
  htype ← get_str d "htype";
  W ← get_arr d "W";
  vb ← get_arr d "vb";
  hb ← get_arr d "hb";
  dW ← get_arr d "dW";
  dvb ← get_arr d "dvb";
  dhb ← get_arr d "dhb";
  vact ← dict_getitem unittypes vtype;
  hact ← dict_getitem unittypes htype;
  mret (MkRbm nvis nhid W vb hb dW dvb dhb htype vtype hact vact).
End RbmMethods.

(** ** Exact arithmetic: the real numbers *)

#[global] Instance Rle_decision : RelDecision Rle := Rle_dec.
#[global] Instance Rlt_decision : RelDecision Rlt := Rlt_dec.
#[global] Instance R_eq_decision : EqDecision R := Req_dec_T.

#[global] Instance R_float : Float R := {|
  fz := IZR;
  fadd := Rplus;
  fsub := Rminus;
  fmul := Rmult;
  fdiv := Rdiv;
  fneg := Ropp;
  fexp := exp;
  flog := ln;
  ftanh := Rtrigo_def.tanh;
  fge := fun x y => bool_decide (y <= x)%R;
  fgt := fun x y => bool_decide (y < x)%R;
  fmax := Rmax
|}.

(** ** Float arithmetic: binary64

    A float64 is a real number, an infinity or a NaN. Every operation on
    finite values rounds its exact result to the nearest float64, ties to
    even, with gradual underflow, and returns an infinity when the rounded
    result exceeds the largest finite float64. The two zeros are not
    distinguished. The elementary functions ([exp], [log], [tanh]) are
    taken as correctly rounded; the properties proved below use only that
    rounding is monotone and leaves a float64 unchanged. *)

Inductive xfloat : Type :=
  | Fin (r : R)
  | PInf
  | NInf
  | NaN.

(** The largest finite float64, (2^53 - 1) * 2^971. *)
Definition max_float : R := IZR ((2 ^ 53 - 1) * 2 ^ 971).

(** The largest integer at or below [x]. *)
Definition Zfloor (x : R) : Z := (up x - 1)%Z.

(** The integer nearest to [x], the even one of the two when [x] lies
    halfway between them. *)
Definition Znearest (x : R) : Z :=
  let n := Zfloor x in
  if decide (x - IZR n < 1 / 2)%R then n
  else if decide (1 / 2 < x - IZR n)%R then (n + 1)%Z
  else if Z.even n then n else (n + 1)%Z.

(** 2^e for an integer [e] of either sign. *)
Definition bpow (e : Z) : R := powerRZ 2 e.

(** The exponent [k] with 2^k <= |x| < 2^(k+1), for [x] other than 0. *)
Definition log2_floor (x : R) : Z := Zfloor (ln (Rabs x) / ln 2).

(** The exponent of the unit in the last place of [x]: significands have
    53 bits, and the exponent is at least -1074 (the subnormal numbers). *)
Definition ulp_exponent (x : R) : Z := Z.max (log2_floor x - 52) (-1074).

(** Rounding to the nearest multiple of the unit in the last place. *)
Definition round64 (x : R) : R :=
  let e := ulp_exponent x in (IZR (Znearest (x * bpow (- e))) * bpow e)%R.

(** The infinity with the sign of [r], NaN for zero. *)
Definition signed_inf (r : R) : xfloat :=
  if decide (0 < r)%R then PInf
  else if decide (r < 0)%R then NInf
  else NaN.

(** The float64 that an operation with the exact result [r] returns. *)
Definition overflow (r : R) : xfloat :=
  if decide (Rabs (round64 r) <= max_float)%R then Fin (round64 r)
  else signed_inf r.

Definition xneg (x : xfloat) : xfloat :=
  match x with
  | Fin r => Fin (- r)
  | PInf => NInf
  | NInf => PInf
  | NaN => NaN
  end.

Definition xadd (x y : xfloat) : xfloat :=
  match x, y with
  | NaN, _ | _, NaN => NaN
  | Fin a, Fin b => overflow (a + b)
  | PInf, NInf | NInf, PInf => NaN
  | PInf, _ | _, PInf => PInf
  | NInf, _ | _, NInf => NInf
  end.

Definition xmul (x y : xfloat) : xfloat :=
  match x, y with
  | NaN, _ | _, NaN => NaN
  | Fin a, Fin b => overflow (a * b)
  | Fin a, PInf | PInf, Fin a => signed_inf a
  | Fin a, NInf | NInf, Fin a => signed_inf (- a)
  | PInf, PInf | NInf, NInf => PInf
  | PInf, NInf | NInf, PInf => NInf
  end.

Definition xdiv (x y : xfloat) : xfloat :=
  match x, y with
  | NaN, _ | _, NaN => NaN
  | Fin a, Fin b => if decide (b = 0)%R then signed_inf a else overflow (a / b)
  | Fin _, _ => Fin 0
  | PInf, Fin b => if decide (b < 0)%R then NInf else PInf
  | NInf, Fin b => if decide (b < 0)%R then PInf else NInf
  | _, _ => NaN
  end.

Definition xexp (x : xfloat) : xfloat :=
  match x with
  | Fin r => overflow (exp r)
  | PInf => PInf
  | NInf => Fin 0
  | NaN => NaN
  end.

Definition xlog (x : xfloat) : xfloat :=
  match x with
  | Fin r =>
      if decide (0 < r)%R then overflow (ln r)
      else if decide (r = 0)%R then NInf
      else NaN
  | PInf => PInf
  | _ => NaN
  end.

Definition xtanh (x : xfloat) : xfloat :=
  match x with
  | Fin r => overflow (Rtrigo_def.tanh r)
  | PInf => Fin 1
  | NInf => Fin (-1)
  | NaN => NaN
  end.

Definition xge (x y : xfloat) : bool :=
  match x, y with
  | NaN, _ | _, NaN => false
  | Fin a, Fin b => bool_decide (b <= a)%R
  | PInf, _ | _, NInf => true
  | _, _ => false
  end.

Definition xgt (x y : xfloat) : bool :=
  match x, y with
  | NaN, _ | _, NaN => false
  | Fin a, Fin b => bool_decide (b < a)%R
  | PInf, PInf | NInf, NInf => false
  | PInf, _ | _, NInf => true
  | _, _ => false
  end.

Definition xmax (x y : xfloat) : xfloat :=
  match x, y with
  | NaN, _ | _, NaN => NaN
  | _, _ => if xge x y then x else y
  end.

#[global] Instance x_float : Float xfloat := {|
  fz := fun n => Fin (IZR n);
  fadd := xadd;
  fsub := fun x y => xadd x (xneg y);
  fmul := xmul;
  fdiv := xdiv;
  fneg := xneg;
  fexp := xexp;
  flog := xlog;
  ftanh := xtanh;
  fge := xge;
  fgt := xgt;
  fmax := xmax
|}.

Definition is_finite (x : xfloat) : Prop :=
  match x with
  | Fin _ => True
  | _ => False
  end.

(** ** Specifications *)

(** *** Arrays of the same shape *)

(** Entry-by-entry combination of two arrays of the same shape. *)
Definition azip {A B C} (f : A -> B -> C) (a : ndarray A) (b : ndarray B) : ndarray C :=
  match a, b with
  | A1 xs, A1 ys => A1 (zip_with f xs ys)
  | A2 c r1, A2 _ r2 => A2 c (zip_with (zip_with f) r1 r2)
  | _, _ => A1 []
  end.

Definition array_ok {T} (a : ndarray T) : Prop :=
  match a with
  | A1 _ => True
  | A2 c rows => rect c rows
  end.

(** *** Sums and entries *)

(** Sum of [f 0], ..., [f (n - 1)]. *)
Fixpoint big_sum (n : nat) (f : nat -> R) : R :=
  match n with
  | O => 0%R
  | S k => (big_sum k f + f k)%R
  end.

(** Entry [i] of a vector, entry [(j, i)] of a matrix. *)
Definition entry (xs : list R) (i : nat) : R := nth i xs 0%R.
Definition mentry (rows : list (list R)) (j i : nat) : R := entry (nth j rows []) i.

(** *** Thresholding *)

(** The logistic function, 1 / (1 + e^(-x)). *)
Definition logistic (x : R) : R := (1 / (1 + exp (- x)))%R.

(** One Bernoulli outcome from a success probability [p] and a uniform
    draw [u]: as the code decides it, and as a strict comparison would. *)
Definition bernoulli_le (p u : R) : R := if decide (u <= p)%R then 1%R else 0%R.
Definition bernoulli_lt (p u : R) : R := if decide (u < p)%R then 1%R else 0%R.

(** The world after [n] draws from the random generator. *)
Definition advance {T} (w : world T) (n : nat) : world T :=
  World (heap w) (rsrc w) (gsrc w) (rpos w + n).

(** The uniform draws that [numpy.random.random(x.shape)] returns in [w]. *)
Definition uniform_draws (w : world R) (x : ndarray R) : ndarray R :=
  draw_shape (rsrc w) (rpos w) (shape_of x).

(** *** The state of a model *)

(** The model [self] holds, in the world [w], the weights [Wm] and the
    biases [vbv] and [hbv], with the shapes of its layer sizes:
    [W] is (nhid, nvis), [vb] is (nvis,), [hb] is (nhid,). *)
Record model_in {T} (self : Rbm) (w : world T)
    (Wm : list (list T)) (vbv hbv : list T) : Prop := {
  mi_W : heap w !! W self = Some (A2 (Z.to_nat (nvis self)) Wm);
  mi_vb : heap w !! vb self = Some (A1 vbv);
  mi_hb : heap w !! hb self = Some (A1 hbv);
  mi_rect : rect (Z.to_nat (nvis self)) Wm;
  mi_rows : length Wm = Z.to_nat (nhid self);
  mi_vblen : length vbv = Z.to_nat (nvis self);
  mi_hblen : length hbv = Z.to_nat (nhid self)
}.

(** Every array of the model is an object of the heap. *)
Definition allocated {T} (self : Rbm) (w : world T) : Prop :=
  Forall (fun l => is_Some (heap w !! l))
         [W self; vb self; hb self; dW self; dvb self; dhb self].

(** The activation names of the model are keys of the registry, bound to
    the functions the model holds. *)
Definition registered (self : Rbm) : Prop :=
  unittypes !! vtype self = Some (vact self)
  ∧ unittypes !! htype self = Some (hact self).

(** The same model with another hidden activation type. *)
Definition with_htype (self : Rbm) (name : string) (f : func) : Rbm :=
  MkRbm (nvis self) (nhid self) (W self) (vb self) (hb self)
        (dW self) (dvb self) (dhb self) name (vtype self) f (vact self).

(** *** Forward propagation and energies *)

(** The pre-activation of hidden unit [j]: sum_i W_{j,i} v_i + hb_j. *)
Definition preact_at (Wm : list (list R)) (hbv v : list R) (j : nat) : R :=
  (big_sum (length v) (fun i => mentry Wm j i * entry v i) + entry hbv j)%R.

(** The pre-activations of all hidden units. *)
Definition preacts (Wm : list (list R)) (hbv v : list R) : list R :=
  preact_at Wm hbv v <$> seq 0 (length hbv).

(** sigmoid(W.v + hb), entry [j]. *)
Definition forward_spec (Wm : list (list R)) (hbv v : list R) (j : nat) : R :=
  logistic (preact_at Wm hbv v j).

(** The joint energy
    - sum_i v_i vb_i - sum_j h_j hb_j - sum_{i,j} W_{j,i} h_j v_i. *)
Definition energy_spec (Wm : list (list R)) (vbv hbv v h : list R) : R :=
  (- big_sum (length v) (fun i => entry v i * entry vbv i)
   - big_sum (length h) (fun j => entry h j * entry hbv j)
   - big_sum (length v) (fun i =>
       big_sum (length h) (fun j => mentry Wm j i * entry h j * entry v i)))%R.

(** log(1 + e^x), as the code writes it. *)
Definition softplus (x : R) : R := ln (1 + exp x).

(** The free energy
    - sum_i v_i vb_i - sum_j log(1 + exp(sum_i W_{j,i} v_i + hb_j)). *)
Definition free_energy_spec (Wm : list (list R)) (vbv hbv v : list R) : R :=
  (- big_sum (length v) (fun i => entry v i * entry vbv i)
   - big_sum (length hbv) (fun j => softplus (preact_at Wm hbv v j)))%R.

(** *** Snapshots *)

(** The dictionary [__getstate__] builds from the scalars of the model
    and six array objects. *)
Definition state_dict (self : Rbm) (cW cvb chb cdW cdhb cdvb : loc)
    : gmap string dval :=
  <["nvis" := DInt (nvis self)]> (
  <["nhid" := DInt (nhid self)]> (
  <["vtype" := DStr (vtype self)]> (
  <["htype" := DStr (htype self)]> (
  <["W" := DArr cW]> (
  <["vb" := DArr cvb]> (
  <["hb" := DArr chb]> (
  <["dW" := DArr cdW]> (
  <["dhb" := DArr cdhb]> (
  <["dvb" := DArr cdvb]> ∅))))))))).

(** The contents of the array a snapshot stores under [key], read in [w]. *)
Definition snapshot_array {T} (d : gmap string dval) (key : string) (w : world T)
    : option (ndarray T) :=
  match d !! key with
  | Some (DArr l) => heap w !! l
  | _ => None
  end.

(** The array attribute of the model that a snapshot key stands for. *)
Definition field_of_key (self : Rbm) (key : string) : option loc :=
  if decide (key = "W") then Some (W self)
  else if decide (key = "vb") then Some (vb self)
  else if decide (key = "hb") then Some (hb self)
  else if decide (key = "dW") then Some (dW self)
  else if decide (key = "dvb") then Some (dvb self)
  else if decide (key = "dhb") then Some (dhb self)
  else None.

(** *** Example models *)

(** The world in which every uniform draw is 1/2. *)
Definition w_half : world R := World ∅ (fun _ => (1 / 2)%R) (fun _ => 0%R) 0.

(** A model with two visible units and one hidden unit, W = [[1, -1]]
    and zero biases, and a world that holds its arrays. *)
Definition rbm_2_1 : Rbm :=
  MkRbm 2 1 1 2 3 4 5 6 "sigmoid" "pthresh" f_sigmoid f_pthresh.

Definition heap_2_1 : gmap loc (ndarray R) :=
  <[1%positive := A2 2 [[1%R; (-1)%R]]]> (
  <[2%positive := A1 [0%R; 0%R]]> (
  <[3%positive := A1 [0%R]]> (
  <[4%positive := A2 2 [[0%R; 0%R]]]> (
  <[5%positive := A1 [0%R; 0%R]]> (
  <[6%positive := A1 [0%R]]> ∅))))).

Definition w_2_1 : world R := World heap_2_1 (fun _ => (1 / 2)%R) (fun _ => 0%R) 0.

(** A model with one visible and one hidden unit whose weight and hidden
    bias are 50, in a world of floats. *)
Definition rbm_1_1 : Rbm :=
  MkRbm 1 1 1 2 3 4 5 6 "sigmoid" "pthresh" f_sigmoid f_pthresh.

Definition heap_50 : gmap loc (ndarray xfloat) :=
  <[1%positive := A2 1 [[Fin 50]]]> (
  <[2%positive := A1 [Fin 0]]> (
  <[3%positive := A1 [Fin 50]]> (
  <[4%positive := A2 1 [[Fin 0]]]> (
  <[5%positive := A1 [Fin 0]]> (
  <[6%positive := A1 [Fin 0]]> ∅))))).

Definition w_50 : world xfloat := World heap_50 (fun _ => Fin 0) (fun _ => Fin 0) 0.

(** The same model with weight and hidden bias 1. *)
Definition heap_1 : gmap loc (ndarray xfloat) :=
  <[1%positive := A2 1 [[Fin 1]]]> (
  <[2%positive := A1 [Fin 0]]> (
  <[3%positive := A1 [Fin 1]]> (
  <[4%positive := A2 1 [[Fin 0]]]> (
  <[5%positive := A1 [Fin 0]]> (
  <[6%positive := A1 [Fin 0]]> ∅))))).

Definition w_1 : world xfloat := World heap_1 (fun _ => Fin 0) (fun _ => Fin 0) 0.

(** *** Backward propagation *)

(** sigmoid(W^T.h + vb), entry [i]. *)
Definition backward_spec (Wm : list (list R)) (vbv h : list R) (i : nat) : R :=
  logistic (big_sum (length h) (fun j => mentry Wm j i * entry h j) + entry vbv i)%R.

(** *** Construction *)

(** The weights [__init__] draws in the world [w] for [r] hidden and [c]
    visible units: -0.2 + (0.2 - (-0.2)) * u for consecutive uniform
    draws [u], row by row. *)
Definition init_weights {T} `{Float T} (w : world T) (r c : nat) : list (list T) :=
  (fun i => (fun u => fadd (fneg (dec 2 1)) (fmul (fsub (dec 2 1) (fneg (dec 2 1))) u))
              <$> draws (rsrc w) (rpos w + i * c) c)
    <$> seq 0 r.

(** The model [self] was just constructed in [w'] from the world [w]: its
    six arrays are distinct new objects, the weights are the drawn ones,
    the biases and the accumulators are zero. *)
Record constructed {T} `{Float T} (w w' : world T) (self : Rbm) : Prop := {
  co_W : heap w' !! W self
         = Some (A2 (Z.to_nat (nvis self))
                    (init_weights w (Z.to_nat (nhid self)) (Z.to_nat (nvis self))));
  co_vb : heap w' !! vb self = Some (np_zeros1 (Z.to_nat (nvis self)));
  co_hb : heap w' !! hb self = Some (np_zeros1 (Z.to_nat (nhid self)));
  co_dW : heap w' !! dW self
          = Some (np_zeros2 (Z.to_nat (nhid self)) (Z.to_nat (nvis self)));
  co_dvb : heap w' !! dvb self = Some (np_zeros1 (Z.to_nat (nvis self)));
  co_dhb : heap w' !! dhb self = Some (np_zeros1 (Z.to_nat (nhid self)));
  co_new : Forall (fun l => heap w !! l = None)
                  [W self; vb self; hb self; dW self; dvb self; dhb self];
  co_distinct : NoDup [W self; vb self; hb self; dW self; dvb self; dhb self];
  co_kept : forall l a, heap w !! l = Some a -> heap w' !! l = Some a;
  co_rpos : rpos w' = rpos w + Z.to_nat (nhid self) * Z.to_nat (nvis self);
  co_rsrc : rsrc w' = rsrc w
}.


(** Every weight lies in the interval from -0.2 (included) to 0.2. *)
Definition weights_in_range (Wm : list (list R)) : Prop :=
  Forall (Forall (fun x => (- (2 / 10) <= x < 2 / 10)%R)) Wm.

(** *** The entries of a snapshot *)

(** The keys of the dictionary of [__getstate__], in the order in which
    [__setstate__] reads them. *)
Definition snapshot_keys : list string :=
  ["nvis"; "nhid"; "vtype"; "htype"; "W"; "vb"; "hb"; "dW"; "dvb"; "dhb"].

(** A model whose visible type is not an activation name. *)
Definition rbm_bogus : Rbm :=
  MkRbm 2 1 1 2 3 4 5 6 "sigmoid" "not_a_real_type" f_sigmoid f_pthresh.

(** *** Derivatives *)

(** The derivative of the logistic function at [x], from its value there. *)
Definition logistic_slope (x : R) : R := (logistic x * (1 - logistic x))%R.

(** The derivative of tanh at [x], from its value there. *)
Definition tanh_slope (x : R) : R :=
  (1 - Rtrigo_def.tanh x * Rtrigo_def.tanh x)%R.

(** *** Entries of an array *)

(** The entries of an array, row by row. *)
Definition entries {T} (a : ndarray T) : list T :=
  match a with
  | A1 xs => xs
  | A2 _ rows => concat rows
  end.

(** Every entry is 0.0 or 1.0. *)
Definition binary {T} `{Float T} (a : ndarray T) : Prop :=
  Forall (fun x => x = fz 0 ∨ x = fz 1) (entries a).

(** *** The hidden layer summed out *)

(** All vectors of length [n] with entries 0 and 1. *)
Fixpoint binary_vectors (n : nat) : list (list R) :=
  match n with
  | O => [[]]
  | S k => (cons 0%R <$> binary_vectors k) ++ (cons 1%R <$> binary_vectors k)
  end.

(** The sum of [f h] over a list of vectors [h]. *)
Definition sum_over (hs : list (list R)) (f : list R -> R) : R :=
  foldr (fun h acc => (f h + acc)%R) 0%R hs.

(** *** Conditional probabilities *)

(** The probability that one unit is on, given the energies of the two
    configurations that differ in that unit only:
    exp(-e_on) / (exp(-e_on) + exp(-e_off)). *)
Definition gibbs_conditional (e_on e_off : R) : R :=
  (exp (- e_on) / (exp (- e_on) + exp (- e_off)))%R.

(** *** Float arithmetic *)

(** The pre-activations np.dot(W, v) + hb as [ff] and [free_energy]
    compute them in float arithmetic. *)
Definition float_preacts (Wm : list (list xfloat)) (hbv v : list xfloat) : list xfloat :=
  zip_with fadd ((fun row => dot_row row v) <$> Wm) hbv.

(** np.sum(v * vb) as [free_energy] computes it in float arithmetic. *)
Definition float_visible_sum (vbv v : list xfloat) : xfloat :=
  np_sum1 (zip_with fmul v vbv).

(** A finite float64 between 0 and 1, both included. *)
Definition probability (x : xfloat) : Prop :=
  match x with
  | Fin p => (0 <= p <= 1)%R
  | _ => False
  end.

(** A finite float64 of magnitude at most [B]. *)
Definition bounded_by (B : R) (x : xfloat) : Prop :=
  match x with
  | Fin r => (Rabs r <= B)%R
  | _ => False
  end.

(** A float64 that is not negative: a finite one at least 0, or plus
    infinity. *)
Definition nonnegative (x : xfloat) : Prop :=
  match x with
  | Fin r => (0 <= r)%R
  | PInf => True
  | _ => False
  end.

(** log(1 + exp(x)) as [free_energy] writes it, on one pre-activation. *)
Definition log_exp_x (x : xfloat) : xfloat := flog (fadd (fz 1) (fexp x)).

(** *** Calls through the registries *)

(** [unittypes[name](x)] and [derivatives[name](y)]. *)
Definition activate {T} `{Float T} (name : string) (x : ndarray T) : M T (pyval T) :=
  f ← dict_getitem unittypes name;
  call f x.

Definition differentiate {T} `{Float T} (name : string) (y : ndarray T) : M T (pyval T) :=
  f ← dict_getitem derivatives name;
  call f y.

(** * Properties *)

(** Unfolding of the monad. *)
Ltac run :=
  unfold mbind, M_bind, mret, M_ret, raise, lift; simpl.

Arguments np_binop : simpl never.
Arguments np_dot : simpl never.

Lemma bind_ok {T A B} (m : M T A) (f : A -> M T B) w a w' :
  m w = Ok a w' -> (m ≫= f) w = f a w'.
Proof. intros E. unfold mbind, M_bind. by rewrite E. Qed.

Lemma bind_raise {T A B} (m : M T A) (f : A -> M T B) w e :
  m w = Raise e -> (m ≫= f) w = Raise e.
Proof. intros E. unfold mbind, M_bind. by rewrite E. Qed.

(** ** The registries and the module namespaces *)

Lemma units_has_no_a : units_globals !! "a" = None.
Proof. reflexivity. Qed.

Lemma units_has_no_rthresh : units_globals !! "rthresh" = None.
Proof. reflexivity. Qed.

(** The names the embedding calls directly are bound to the functions it
    calls. *)
Lemma units_binds :
  units_globals !! "sigmoid" = Some (PFunc f_sigmoid)
  ∧ units_globals !! "pthresh" = Some (PFunc f_pthresh)
  ∧ units_globals !! "unittypes" = Some (PDict unittypes).
Proof. by repeat split. Qed.

Lemma dim_of_Z_nonneg (n : Z) : (0 <= n)%Z -> dim_of_Z n = inr (Z.to_nat n).
Proof.
  intros Hn. unfold dim_of_Z.
  destruct (Z.ltb_spec n 0) as [Hlt | _]; [lia | reflexivity].
Qed.

Section Generic.
Context {T : Type} `{FT : Float T}.

(** C5. [linear], the registry's activation of that name, returns the
    global [a], which does not exist: every call raises NameError instead
    of returning its input. *)
Theorem linear_raises_name_error (x : ndarray T) (w : world T) :
  unittypes !! "linear" = Some f_linear
  ∧ linear x w = Raise (NameError "a")
  ∧ call f_linear x w = Raise (NameError "a").
Proof. by repeat split. Qed.

(** C6. [rectlinear], the registry's activation of that name, asks for
    the shape of the global [a], which does not exist: every call raises
    NameError before any noise is drawn. *)
Theorem rectlinear_raises_name_error (x : ndarray T) (w : world T) :
  unittypes !! "rectlinear" = Some f_rectlinear
  ∧ rectlinear x w = Raise (NameError "a")
  ∧ call f_rectlinear x w = Raise (NameError "a").
Proof. by repeat split. Qed.

(** C9. Constructing an [Rbm] with a visible or hidden type that is not
    a key of [unittypes] raises the KeyError of the registry lookup, and
    no model is returned. *)
Theorem init_unknown_type_raises (nv nh : Z) (vt ht : option string) (w : world T) :
  (0 <= nv)%Z -> (0 <= nh)%Z ->
  unittypes !! default default_vtype vt = None
    ∨ unittypes !! default default_htype ht = None ->
  ∃ key, Rbm__init__ nv nh vt ht w = Raise (KeyError key)
         ∧ unittypes !! key = None
         ∧ (key = default default_htype ht ∨ key = default default_vtype vt).
Proof.
  intros Hv Hh Hbad. unfold Rbm__init__.
  rewrite (dim_of_Z_nonneg nv Hv), (dim_of_Z_nonneg nh Hh). run.
  unfold dict_getitem.
  destruct (unittypes !! default default_htype ht) as [fh|] eqn:Eh.
  - destruct Hbad as [Ev | Ebad]; [| discriminate].
    exists (default default_vtype vt). rewrite Ev. run. auto.
  - exists (default default_htype ht). run. auto.
Qed.

(** C10. "pthresh" is a key of [unittypes] and the visible type of a
    model constructed with the default arguments, but [derivatives] has no
    such key: looking up the derivative by the visible type of such a
    model raises KeyError. *)
Theorem default_vtype_has_no_derivative (nv nh : Z) (ht : option string)
    (w w' : world T) (m : Rbm) :
  Rbm__init__ nv nh None ht w = Ok m w' ->
  vtype m = "pthresh"
  ∧ unittypes !! vtype m = Some (vact m)
  ∧ vact m = f_pthresh
  ∧ derivatives !! vtype m = None
  ∧ dict_getitem derivatives (vtype m) w' = Raise (KeyError "pthresh").
Proof.
  unfold Rbm__init__. run.
  destruct (dim_of_Z nh) as [e | r]; simpl; [done |].
  destruct (dim_of_Z nv) as [e | c]; simpl; [done |].
  unfold dict_getitem.
  destruct (unittypes !! default default_htype ht) as [fh |]; simpl; [| done].
  intros [= <- <-]. by repeat split.
Qed.
End Generic.

(** ** Arrays of equal shape *)

Lemma bc_dim_refl n : bc_dim n n = Some n.
Proof. unfold bc_dim. by rewrite Nat.eqb_refl. Qed.

Lemma bc_zip_same {A B C} (f : A -> B -> C) xs ys :
  length xs = length ys -> bc_zip f xs ys = zip_with f xs ys.
Proof. intros E. unfold bc_zip. by rewrite E, Nat.eqb_refl. Qed.

Lemma zip_with_rows {A B C} (f : A -> B -> C) (c : nat) (r1 : list (list A)) :
  forall r2 : list (list B), rect c r1 -> rect c r2 ->
  zip_with (bc_zip f) r1 r2 = zip_with (zip_with f) r1 r2.
Proof.
  induction r1 as [| x r1 IH]; intros [| y r2] H1 H2; simpl; try done.
  inversion H1; inversion H2; subst.
  rewrite bc_zip_same by congruence. f_equal. by apply IH.
Qed.

Lemma np_binop_azip {T U} (f : T -> T -> U) (a b : ndarray T) :
  shape_of a = shape_of b -> array_ok a -> array_ok b ->
  np_binop f a b = inr (azip f a b).
Proof.
  destruct a as [xs | c1 r1], b as [ys | c2 r2]; unfold np_binop; simpl;
    intros E Ha Hb; try discriminate.
  - injection E as E. rewrite E, bc_dim_refl, bc_zip_same; done.
  - injection E as Er Ec. subst c2.
    rewrite Er, !bc_dim_refl, bc_zip_same by done.
    by rewrite (zip_with_rows f c1).
Qed.

Lemma shape_of_amap {T U} (f : T -> U) (a : ndarray T) :
  shape_of (amap f a) = shape_of a.
Proof. destruct a; simpl; by rewrite length_fmap. Qed.

Lemma array_ok_amap {T U} (f : T -> U) (a : ndarray T) :
  array_ok a -> array_ok (amap f a).
Proof.
  destruct a as [xs | c rows]; simpl; [done |].
  unfold rect. rewrite Forall_fmap. intros Hr. eapply Forall_impl; [exact Hr |].
  intros row E. simpl. by rewrite length_fmap.
Qed.

Lemma length_draws {T} (src : nat -> T) p n : length (draws src p n) = n.
Proof. unfold draws. by rewrite length_fmap, length_seq. Qed.

Lemma shape_of_draw_shape {T} (src : nat -> T) p sh :
  shape_of (draw_shape src p sh) = sh.
Proof.
  destruct sh; simpl.
  - by rewrite length_draws.
  - by rewrite length_fmap, length_seq.
Qed.

Lemma array_ok_draw_shape {T} (src : nat -> T) p sh :
  array_ok (draw_shape src p sh).
Proof.
  destruct sh; simpl; [done |].
  unfold rect. rewrite Forall_fmap. apply Forall_forall.
  intros i _. simpl. apply length_draws.
Qed.

Lemma amap_azip {A B C D} (g : C -> D) (f : A -> B -> C) a b :
  amap g (azip f a b) = azip (fun x y => g (f x y)) a b.
Proof.
  destruct a as [xs | c1 r1], b as [ys | c2 r2]; simpl; try done.
  - f_equal. revert ys. induction xs as [| x xs IH]; intros [| y ys]; simpl; try done.
    by rewrite IH.
  - f_equal. revert r2. induction r1 as [| x r1 IH]; intros [| y r2]; simpl; try done.
    rewrite IH. f_equal.
    revert y. induction x as [| x0 x IHx]; intros [| y0 y]; simpl; try done.
    by rewrite IHx.
Qed.

Lemma azip_amap_l {A B C D} (f : A -> B -> C) (h : D -> A) a b :
  azip f (amap h a) b = azip (fun x y => f (h x) y) a b.
Proof.
  destruct a as [xs | c1 r1], b as [ys | c2 r2]; simpl; try done.
  - by rewrite zip_with_fmap_l.
  - rewrite zip_with_fmap_l. f_equal. apply zip_with_ext; try done.
    intros x y. by rewrite zip_with_fmap_l.
Qed.

Lemma azip_ext {A B C} (f g : A -> B -> C) a b :
  (forall x y, f x y = g x y) -> azip f a b = azip g a b.
Proof.
  intros E. destruct a as [xs | c1 r1], b as [ys | c2 r2]; simpl; try done.
  - f_equal. by apply zip_with_ext.
  - f_equal. apply zip_with_ext; try done. intros x y. by apply zip_with_ext.
Qed.

Lemma shape_of_azip {A B C} (f : A -> B -> C) a b :
  shape_of a = shape_of b -> shape_of (azip f a b) = shape_of a.
Proof.
  destruct a as [xs | c1 r1], b as [ys | c2 r2]; simpl; intros E; try discriminate.
  - injection E as E. by rewrite length_zip_with_l_eq.
  - injection E as Er Ec. by rewrite length_zip_with_l_eq.
Qed.

(** ** Probabilistic thresholding *)

(** [pthresh] itself returns an array of the shape of its input. *)
Lemma pthresh_returns {T} `{FT : Float T} (x : ndarray T) (w : world T) :
  array_ok x ->
  ∃ y, pthresh x w = Ok y (advance w (size_of (shape_of x)))
       ∧ shape_of y = shape_of x.
Proof.
  intros Hx. unfold pthresh, sigmoid, np_random_random. run.
  assert (Hs : shape_of (amap sigmoid1 x)
               = shape_of (draw_shape (rsrc w) (rpos w) (shape_of x)))
    by (by rewrite shape_of_amap, shape_of_draw_shape).
  rewrite np_binop_azip;
    [| exact Hs | by apply array_ok_amap | apply array_ok_draw_shape].
  simpl. eexists. split; [reflexivity |].
  by rewrite shape_of_amap, shape_of_azip, shape_of_amap.
Qed.

(** C1. [hid_sample] and [vis_sample] call [rthresh], a name that
    units.py does not define: the import statement of rbm.py fails on it
    and both methods raise on every input, where [pthresh] of the same
    vector returns a value. *)
Theorem sample_fails_on_rthresh {T} `{FT : Float T}
    (self : Rbm) (x : ndarray T) (w : world T) :
  load_rbm_imports = inl (ImportError "rthresh")
  ∧ hid_sample self x w = Raise (ImportError "rthresh")
  ∧ vis_sample self x w = Raise (ImportError "rthresh")
  ∧ (forall xs : list T,
       hid_sample self (A1 xs) w <> (VArr <$> pthresh (A1 xs)) w
       ∧ vis_sample self (A1 xs) w <> (VArr <$> pthresh (A1 xs)) w).
Proof.
  repeat split; try reflexivity.
  - destruct (pthresh_returns (A1 xs) w I) as (y & E & _).
    unfold fmap, M_fmap. by rewrite E.
  - destruct (pthresh_returns (A1 xs) w I) as (y & E & _).
    unfold fmap, M_fmap. by rewrite E.
Qed.

Lemma pthresh_run (x : ndarray R) (w : world R) :
  array_ok x ->
  pthresh x w =
    Ok (azip (fun xi ui => bernoulli_le (logistic xi) ui) x (uniform_draws w x))
       (advance w (size_of (shape_of x))).
Proof.
  intros Hx. unfold pthresh, sigmoid, np_random_random. run.
  rewrite np_binop_azip.
  - simpl. unfold advance, uniform_draws. f_equal.
    rewrite amap_azip, azip_amap_l. apply azip_ext.
    intros xi ui. unfold bernoulli_le, logistic, float32_of_bool, sigmoid1. simpl.
    by case_bool_decide; case_decide.
  - by rewrite shape_of_amap, shape_of_draw_shape.
  - by apply array_ok_amap.
  - apply array_ok_draw_shape.
Qed.

(** C7 (as the code has it). For every array [x] and every realisation
    [u] of the uniform draws, [pthresh x] is, entry by entry, 1.0 when
    [u <= sigmoid x] and 0.0 otherwise: the comparison is not strict. *)
Theorem pthresh_thresholds_with_le (x : ndarray R) (w : world R) :
  array_ok x ->
  pthresh x w =
    Ok (azip (fun xi ui => bernoulli_le (logistic xi) ui) x (uniform_draws w x))
       (advance w (size_of (shape_of x))).
Proof. apply pthresh_run. Qed.

Lemma pthresh_thresholds_with_le_witness :
  pthresh (A1 [0%R]) w_half =
    Ok (azip (fun xi ui => bernoulli_le (logistic xi) ui) (A1 [0%R])
             (uniform_draws w_half (A1 [0%R])))
       (advance w_half 1).
Proof. apply (pthresh_thresholds_with_le (A1 [0%R]) w_half). exact I. Defined.

Lemma logistic_0 : logistic 0 = (1 / 2)%R.
Proof. unfold logistic. rewrite Ropp_0, exp_0. lra. Qed.

(** C7 (as stated) fails: for the input 0 and a uniform draw equal to
    sigmoid(0) = 1/2, the draw is not below the probability, yet [pthresh]
    returns 1.0. *)
Lemma pthresh_not_strict :
  value_of (pthresh (A1 [0%R]) w_half)
  <> inr (azip (fun xi ui => bernoulli_lt (logistic xi) ui) (A1 [0%R])
               (uniform_draws w_half (A1 [0%R]))).
Proof.
  rewrite (pthresh_run (A1 [0%R]) w_half I). simpl.
  unfold bernoulli_le, bernoulli_lt. rewrite logistic_0.
  case_decide; case_decide; try lra.
  intros E. inversion E. lra.
Qed.

(** ** Reading the heap *)

Lemma deref1_ok {T} (w : world T) l xs :
  heap w !! l = Some (A1 xs) -> deref1 l w = Ok xs w.
Proof. intros E. unfold deref1, deref. run. by rewrite E. Qed.

Lemma deref2_ok {T} (w : world T) l c rows :
  heap w !! l = Some (A2 c rows) -> deref2 l w = Ok (c, rows) w.
Proof. intros E. unfold deref2, deref. run. by rewrite E. Qed.

(** ** Sums over the reals *)

Lemma big_sum_ext n (f g : nat -> R) :
  (forall i, i < n -> f i = g i) -> big_sum n f = big_sum n g.
Proof.
  induction n as [| n IH]; intros E; simpl; [done |].
  rewrite IH, E by (try intros; try apply E; lia). done.
Qed.

Lemma big_sum_shift n (f : nat -> R) :
  big_sum (S n) f = (f 0%nat + big_sum n (fun i => f (S i)))%R.
Proof.
  induction n as [| n IH]; simpl in *; [lra |].
  rewrite IH. lra.
Qed.

Lemma big_sum_plus n (f g : nat -> R) :
  big_sum n (fun i => f i + g i)%R = (big_sum n f + big_sum n g)%R.
Proof. induction n as [| n IH]; simpl; [lra |]. rewrite IH. lra. Qed.

Lemma big_sum_zero n : big_sum n (fun _ => 0%R) = 0%R.
Proof. induction n as [| n IH]; simpl; [done |]. rewrite IH. lra. Qed.

Lemma big_sum_swap n m (f : nat -> nat -> R) :
  big_sum n (fun i => big_sum m (fun j => f i j))
  = big_sum m (fun j => big_sum n (fun i => f i j)).
Proof.
  induction n as [| n IH]; simpl.
  - by rewrite big_sum_zero.
  - by rewrite IH, big_sum_plus.
Qed.

Lemma np_sum1_entry (xs : list R) : np_sum1 xs = big_sum (length xs) (entry xs).
Proof.
  induction xs as [| x xs IH]; [done |].
  change (length (x :: xs)) with (S (length xs)).
  rewrite big_sum_shift.
  transitivity (x + np_sum1 xs)%R; [reflexivity |]. by rewrite IH.
Qed.

Lemma np_sum1_app (xs ys : list R) :
  np_sum1 (xs ++ ys) = (np_sum1 xs + np_sum1 ys)%R.
Proof.
  induction xs as [| x xs IH].
  - change (np_sum1 ys = (0 + np_sum1 ys)%R). lra.
  - change ((x + np_sum1 (xs ++ ys))%R = (x + np_sum1 xs + np_sum1 ys)%R).
    rewrite IH. lra.
Qed.

Lemma np_sum2_rows (rows : list (list R)) :
  np_sum2 rows = big_sum (length rows) (fun j => np_sum1 (nth j rows [])).
Proof.
  unfold np_sum2. induction rows as [| row rows IH]; [done |].
  change (length (row :: rows)) with (S (length rows)).
  rewrite big_sum_shift.
  change (np_sum1 (row ++ concat rows)
          = (np_sum1 row + big_sum (length rows) (fun j => np_sum1 (nth j rows [])))%R).
  by rewrite np_sum1_app, IH.
Qed.

Lemma nth_fmap {A B} (f : A -> B) (xs : list A) j (da : A) (db : B) :
  j < length xs -> nth j (f <$> xs) db = f (nth j xs da).
Proof.
  intros Hj. rewrite !nth_lookup, list_lookup_fmap.
  destruct (lookup_lt_is_Some_2 xs j Hj) as [x Ex]. by rewrite Ex.
Qed.

Lemma nth_zip_with {A B C} (f : A -> B -> C) xs ys j (da : A) (db : B) (dc : C) :
  j < length xs -> j < length ys ->
  nth j (zip_with f xs ys) dc = f (nth j xs da) (nth j ys db).
Proof.
  intros Hx Hy. rewrite !nth_lookup, lookup_zip_with.
  destruct (lookup_lt_is_Some_2 xs j Hx) as [x Ex].
  destruct (lookup_lt_is_Some_2 ys j Hy) as [y Ey].
  by rewrite Ex, Ey.
Qed.

Lemma entry_fmap (f : R -> R) xs i :
  i < length xs -> entry (f <$> xs) i = f (entry xs i).
Proof. apply nth_fmap. Qed.

Lemma entry_zip_with (f : R -> R -> R) xs ys i :
  i < length xs -> i < length ys ->
  entry (zip_with f xs ys) i = f (entry xs i) (entry ys i).
Proof. apply nth_zip_with. Qed.

Lemma sum_zip_with (f : R -> R -> R) xs ys :
  length xs = length ys ->
  np_sum1 (zip_with f xs ys)
  = big_sum (length xs) (fun i => f (entry xs i) (entry ys i)).
Proof.
  intros E. rewrite np_sum1_entry, length_zip_with_l_eq by done.
  apply big_sum_ext. intros i Hi. apply entry_zip_with; lia.
Qed.

Lemma dot_row_sum (row v : list R) :
  length row = length v ->
  dot_row row v = big_sum (length v) (fun i => entry row i * entry v i)%R.
Proof. intros E. unfold dot_row. rewrite <- E. by apply (sum_zip_with Rmult). Qed.

Lemma rect_nth {A} c (rows : list (list A)) j :
  rect c rows -> j < length rows -> length (nth j rows []) = c.
Proof.
  intros Hr Hj. rewrite nth_lookup.
  destruct (lookup_lt_is_Some_2 rows j Hj) as [row Er]. rewrite Er. simpl.
  unfold rect in Hr. rewrite Forall_lookup in Hr. eauto.
Qed.

(** ** Forward propagation *)

Lemma ff_run (self : Rbm) (w : world R) Wm vbv hbv (v : list R) :
  model_in self w Wm vbv hbv ->
  length v = Z.to_nat (nvis self) ->
  ff self v w =
    Ok (A1 (logistic <$> zip_with Rplus ((fun row => dot_row row v) <$> Wm) hbv)) w.
Proof.
  intros [HW Hvb Hhb Hrect Hrows Hvbl Hhbl] Hv. unfold ff.
  rewrite (bind_ok _ _ _ _ _ (deref2_ok _ _ _ _ HW)).
  unfold np_dot. rewrite Hv, Nat.eqb_refl. run.
  rewrite (deref1_ok _ _ _ Hhb).
  rewrite np_binop_azip; simpl; try done.
  by rewrite length_fmap, Hrows, Hhbl.
Qed.

(** C2. For a visible vector of length [nvis], [ff] returns
    sigmoid(W.v + hb): a vector of length [nhid] whose entry [j] is
    the logistic function of sum_i W_{j,i} v_i + hb_j. The world is
    unchanged, and the hidden activation type of the model plays no part. *)
Theorem ff_is_sigmoid_of_affine (self : Rbm) (w : world R) Wm vbv hbv (v : list R) :
  model_in self w Wm vbv hbv ->
  length v = Z.to_nat (nvis self) ->
  ∃ hs, ff self v w = Ok (A1 hs) w
        ∧ length hs = Z.to_nat (nhid self)
        ∧ (forall j, j < length hs -> entry hs j = forward_spec Wm hbv v j)
        ∧ (forall name f, ff (with_htype self name f) v w = ff self v w).
Proof.
  intros Hm Hv.
  assert (Hsame : forall name f, ff (with_htype self name f) v w = ff self v w)
    by reflexivity.
  rewrite (ff_run self w Wm vbv hbv v Hm Hv) in *.
  destruct Hm as [HW Hvb Hhb Hrect Hrows Hvbl Hhbl].
  eexists. split; [reflexivity |].
  assert (Hlen : length (zip_with Rplus ((fun row => dot_row row v) <$> Wm) hbv)
                 = Z.to_nat (nhid self)).
  { rewrite length_zip_with_l_eq; rewrite length_fmap; congruence. }
  rewrite length_fmap, Hlen. repeat split.
  - intros j Hj. rewrite entry_fmap by lia.
    rewrite entry_zip_with by (rewrite ?length_fmap; lia).
    unfold forward_spec, preact_at, mentry. f_equal. f_equal.
    unfold entry at 1. rewrite (nth_fmap _ Wm j [] 0%R) by lia.
    apply dot_row_sum. rewrite (rect_nth _ Wm j Hrect) by lia. congruence.
  - apply Hsame.
Qed.

Lemma model_in_2_1 :
  model_in rbm_2_1 w_2_1 [[1%R; (-1)%R]] [0%R; 0%R] [0%R].
Proof. split; try reflexivity. repeat constructor. Qed.

Lemma ff_is_sigmoid_of_affine_witness :
  ∃ hs, ff rbm_2_1 [1%R; 1%R] w_2_1 = Ok (A1 hs) w_2_1
        ∧ length hs = Z.to_nat (nhid rbm_2_1)
        ∧ (forall j, j < length hs ->
             entry hs j = forward_spec [[1%R; (-1)%R]] [0%R] [1%R; 1%R] j)
        ∧ (forall name f,
             ff (with_htype rbm_2_1 name f) [1%R; 1%R] w_2_1
             = ff rbm_2_1 [1%R; 1%R] w_2_1).
Proof.
  apply (ff_is_sigmoid_of_affine rbm_2_1 w_2_1 [[1%R; (-1)%R]] [0%R; 0%R] [0%R]).
  - exact model_in_2_1.
  - reflexivity.
Defined.

(** ** Joint energy *)

Lemma energy_run (self : Rbm) (w : world R) Wm vbv hbv (v h : list R) :
  model_in self w Wm vbv hbv ->
  length v = Z.to_nat (nvis self) ->
  length h = Z.to_nat (nhid self) ->
  energy self v h w =
    Ok (-1 * np_sum1 (zip_with Rmult v vbv) + -1 * np_sum1 (zip_with Rmult h hbv)
        + -1 * np_sum2 (zip_with (zip_with Rmult) Wm ((fun hj => Rmult hj <$> v) <$> h)))%R w.
Proof.
  intros [HW Hvb Hhb Hrect Hrows Hvbl Hhbl] Hv Hh. unfold energy.
  rewrite (bind_ok _ _ _ _ _ (deref1_ok _ _ _ Hvb)).
  rewrite np_binop_azip; simpl; try done; [| congruence].
  run.
  rewrite (deref1_ok _ _ _ Hhb).
  rewrite np_binop_azip; simpl; try done; [| congruence].
  rewrite (deref2_ok _ _ _ _ HW).
  rewrite np_binop_azip; simpl; try done.
  - rewrite length_fmap. congruence.
  - unfold rect. rewrite Forall_fmap. apply Forall_forall. intros hj _. simpl.
    by rewrite length_fmap.
Qed.

Lemma interaction_sum (Wm : list (list R)) (v h : list R) :
  rect (length v) Wm -> length Wm = length h ->
  np_sum2 (zip_with (zip_with Rmult) Wm ((fun hj => Rmult hj <$> v) <$> h))
  = big_sum (length v) (fun i =>
      big_sum (length h) (fun j => mentry Wm j i * entry h j * entry v i))%R.
Proof.
  intros Hrect Hrows. rewrite np_sum2_rows, big_sum_swap.
  rewrite length_zip_with_l_eq by (rewrite length_fmap; done).
  rewrite Hrows. apply big_sum_ext. intros j Hj.
  rewrite (nth_zip_with _ _ _ j [] [] []) by (rewrite ?length_fmap; lia).
  rewrite (nth_fmap _ h j 0%R []) by lia.
  assert (Hl : length (nth j Wm []) = length v) by (apply rect_nth; [done | lia]).
  rewrite sum_zip_with by (rewrite length_fmap; done).
  rewrite Hl. apply big_sum_ext. intros i Hi.
  rewrite entry_fmap by lia. unfold mentry, entry. lra.
Qed.

Lemma energy_spec_2_1 :
  energy_spec [[1%R; (-1)%R]] [0%R; 0%R] [0%R] [1%R; 1%R] [1%R] = 0%R.
Proof. unfold energy_spec, mentry, entry. simpl. lra. Qed.

(** C3. For a visible vector of length [nvis] and a hidden vector of
    length [nhid], [energy] returns
    - sum_i v_i vb_i - sum_j h_j hb_j - sum_{i,j} W_{j,i} h_j v_i
    and leaves the world unchanged; for W = [[1, -1]], zero biases,
    v = [1, 1] and h = [1] the result is 0. *)
Theorem energy_is_joint_energy (self : Rbm) (w : world R) Wm vbv hbv (v h : list R) :
  model_in self w Wm vbv hbv ->
  length v = Z.to_nat (nvis self) ->
  length h = Z.to_nat (nhid self) ->
  energy self v h w = Ok (energy_spec Wm vbv hbv v h) w
  ∧ (Wm = [[1%R; (-1)%R]] -> vbv = [0%R; 0%R] -> hbv = [0%R] ->
     v = [1%R; 1%R] -> h = [1%R] -> energy self v h w = Ok 0%R w).
Proof.
  intros Hm Hv Hh.
  assert (E : energy self v h w = Ok (energy_spec Wm vbv hbv v h) w).
  { rewrite (energy_run self w Wm vbv hbv v h Hm Hv Hh).
    destruct Hm as [HW Hvb Hhb Hrect Hrows Hvbl Hhbl].
    rewrite !sum_zip_with by congruence.
    rewrite interaction_sum by congruence.
    unfold energy_spec. f_equal. lra. }
  split; [exact E |].
  intros -> -> -> -> ->. rewrite E. f_equal. apply energy_spec_2_1.
Qed.

Lemma energy_is_joint_energy_witness :
  energy rbm_2_1 [1%R; 1%R] [1%R] w_2_1
    = Ok (energy_spec [[1%R; (-1)%R]] [0%R; 0%R] [0%R] [1%R; 1%R] [1%R]) w_2_1
  ∧ energy rbm_2_1 [1%R; 1%R] [1%R] w_2_1 = Ok 0%R w_2_1.
Proof.
  destruct (energy_is_joint_energy rbm_2_1 w_2_1
              [[1%R; (-1)%R]] [0%R; 0%R] [0%R] [1%R; 1%R] [1%R])
    as [E E0].
  - exact model_in_2_1.
  - reflexivity.
  - reflexivity.
  - split; [exact E | by apply E0].
Defined.

(** ** Snapshot and restore *)

Section Snapshot.
Context {T : Type} `{FT : Float T}.

Lemma np_copy_spec (w : world T) l a :
  heap w !! l = Some a ->
  ∃ l' w', np_copy l w = Ok l' w'
    ∧ heap w !! l' = None
    ∧ heap w' !! l' = Some a
    ∧ (forall k b, heap w !! k = Some b -> heap w' !! k = Some b).
Proof.
  intros E. unfold np_copy, deref, alloc. run. rewrite E.
  set (l' := fresh (dom (heap w))).
  assert (Hl' : heap w !! l' = None) by (apply not_elem_of_dom, is_fresh).
  eexists _, _. split; [reflexivity |]. simpl. repeat split.
  - done.
  - apply lookup_insert_eq.
  - intros k b Hk. rewrite lookup_insert_ne; [done | congruence].
Qed.

Lemma value_of_ff_ext (s1 s2 : Rbm) (w1 w2 : world T) v :
  heap w1 !! W s1 = heap w2 !! W s2 ->
  heap w1 !! hb s1 = heap w2 !! hb s2 ->
  value_of (ff s1 v w1) = value_of (ff s2 v w2).
Proof.
  intros EW Eh. unfold ff, deref2, deref1, deref, sigmoid. run. rewrite EW.
  destruct (heap w2 !! W s2) as [[xs | c rows] |]; simpl; try done.
  destruct (np_dot c rows v) as [e | d]; simpl; try done.
  rewrite Eh.
  destruct (heap w2 !! hb s2) as [[ys | c' rows'] |]; simpl; try done.
  destruct (np_binop fadd (A1 d) (A1 ys)); simpl; done.
Qed.

Lemma value_of_fb_ext (s1 s2 : Rbm) (w1 w2 : world T) h :
  heap w1 !! W s1 = heap w2 !! W s2 ->
  heap w1 !! vb s1 = heap w2 !! vb s2 ->
  value_of (fb s1 h w1) = value_of (fb s2 h w2).
Proof.
  intros EW Eh. unfold fb, deref2, deref1, deref, sigmoid. run. rewrite EW.
  destruct (heap w2 !! W s2) as [[xs | c rows] |]; simpl; try done.
  destruct (np_dot _ _ h) as [e | d]; simpl; try done.
  rewrite Eh.
  destruct (heap w2 !! vb s2) as [[ys | c' rows'] |]; simpl; try done.
  destruct (np_binop fadd (A1 d) (A1 ys)); simpl; done.
Qed.

Lemma value_of_energy_ext (s1 s2 : Rbm) (w1 w2 : world T) v h :
  heap w1 !! W s1 = heap w2 !! W s2 ->
  heap w1 !! vb s1 = heap w2 !! vb s2 ->
  heap w1 !! hb s1 = heap w2 !! hb s2 ->
  value_of (energy s1 v h w1) = value_of (energy s2 v h w2).
Proof.
  intros EW Ev Eh. unfold energy, deref2, deref1, deref. run. rewrite Ev.
  destruct (heap w2 !! vb s2) as [[ys | c' rows'] |]; simpl; try done.
  destruct (np_binop fmul (A1 v) (A1 ys)); simpl; try done.
  rewrite Eh.
  destruct (heap w2 !! hb s2) as [[zs | c'' rows''] |]; simpl; try done.
  destruct (np_binop fmul (A1 h) (A1 zs)); simpl; try done.
  rewrite EW.
  destruct (heap w2 !! W s2) as [[xs | c rows] |]; simpl; try done.
  destruct (np_binop fmul (A2 c rows) _); simpl; done.
Qed.

Lemma getstate_spec (self : Rbm) (w : world T) :
  allocated self w ->
  ∃ cW cvb chb cdW cdhb cdvb w1,
    Rbm__getstate__ self w = Ok (state_dict self cW cvb chb cdW cdhb cdvb) w1
    ∧ heap w1 !! cW = heap w !! W self
    ∧ heap w1 !! cvb = heap w !! vb self
    ∧ heap w1 !! chb = heap w !! hb self
    ∧ heap w1 !! cdW = heap w !! dW self
    ∧ heap w1 !! cdhb = heap w !! dhb self
    ∧ heap w1 !! cdvb = heap w !! dvb self
    ∧ Forall (fun l => l <> W self) [cW; cvb; chb; cdW; cdhb; cdvb]
    ∧ (forall k b, heap w !! k = Some b -> heap w1 !! k = Some b).
Proof.
  unfold allocated. rewrite !Forall_cons.
  intros ([aW EW] & [avb Evb] & [ahb Ehb] & [adW EdW] & [advb Edvb] & [adhb Edhb] & _).
  unfold Rbm__getstate__.
  destruct (np_copy_spec w _ _ EW) as (cW & w1 & R1 & N1 & S1 & X1).
  rewrite (bind_ok _ _ _ _ _ R1).
  destruct (np_copy_spec w1 _ _ (X1 _ _ Evb)) as (cvb & w2 & R2 & N2 & S2 & X2).
  rewrite (bind_ok _ _ _ _ _ R2).
  destruct (np_copy_spec w2 _ _ (X2 _ _ (X1 _ _ Ehb))) as (chb & w3 & R3 & N3 & S3 & X3).
  rewrite (bind_ok _ _ _ _ _ R3).
  destruct (np_copy_spec w3 _ _ (X3 _ _ (X2 _ _ (X1 _ _ EdW)))) as (cdW & w4 & R4 & N4 & S4 & X4).
  rewrite (bind_ok _ _ _ _ _ R4).
  destruct (np_copy_spec w4 _ _ (X4 _ _ (X3 _ _ (X2 _ _ (X1 _ _ Edhb)))))
    as (cdhb & w5 & R5 & N5 & S5 & X5).
  rewrite (bind_ok _ _ _ _ _ R5).
  destruct (np_copy_spec w5 _ _ (X5 _ _ (X4 _ _ (X3 _ _ (X2 _ _ (X1 _ _ Edvb))))))
    as (cdvb & w6 & R6 & N6 & S6 & X6).
  rewrite (bind_ok _ _ _ _ _ R6).
  exists cW, cvb, chb, cdW, cdhb, cdvb, w6.
  split; [reflexivity |].
  rewrite EW, Evb, Ehb, EdW, Edhb, Edvb.
  repeat split; eauto 10.
  repeat constructor; intros ->; 
    [ rewrite EW in N1 | rewrite (X1 _ _ EW) in N2 | rewrite (X2 _ _ (X1 _ _ EW)) in N3
    | rewrite (X3 _ _ (X2 _ _ (X1 _ _ EW))) in N4
    | rewrite (X4 _ _ (X3 _ _ (X2 _ _ (X1 _ _ EW)))) in N5
    | rewrite (X5 _ _ (X4 _ _ (X3 _ _ (X2 _ _ (X1 _ _ EW))))) in N6 ]; discriminate.
Qed.

Lemma get_int_ok (d : gmap string dval) key n (w : world T) :
  d !! key = Some (DInt n) -> get_int d key w = Ok n w.
Proof. intros E. unfold get_int, dict_getitem. run. by rewrite E. Qed.

Lemma get_str_ok (d : gmap string dval) key s (w : world T) :
  d !! key = Some (DStr s) -> get_str d key w = Ok s w.
Proof. intros E. unfold get_str, dict_getitem. run. by rewrite E. Qed.

Lemma get_arr_ok (d : gmap string dval) key l (w : world T) :
  d !! key = Some (DArr l) -> get_arr d key w = Ok l w.
Proof. intros E. unfold get_arr, dict_getitem. run. by rewrite E. Qed.

Lemma dict_getitem_ok {V} (d : gmap string V) key x (w : world T) :
  d !! key = Some x -> dict_getitem d key w = Ok x w.
Proof. intros E. unfold dict_getitem. by rewrite E. Qed.

Lemma setstate_state_dict (self : Rbm) (w : world T) cW cvb chb cdW cdhb cdvb :
  registered self ->
  Rbm__setstate__ (state_dict self cW cvb chb cdW cdhb cdvb) w
  = Ok (MkRbm (nvis self) (nhid self) cW cvb chb cdW cdvb cdhb
              (htype self) (vtype self) (hact self) (vact self)) w.
Proof.
  intros [Ev Eh]. unfold Rbm__setstate__.
  do 2 (erewrite bind_ok; [| apply get_int_ok; reflexivity]).
  do 2 (erewrite bind_ok; [| apply get_str_ok; reflexivity]).
  do 6 (erewrite bind_ok; [| apply get_arr_ok; reflexivity]).
  erewrite bind_ok; [| apply dict_getitem_ok, Ev].
  erewrite bind_ok; [| apply dict_getitem_ok, Eh].
  reflexivity.
Qed.

Lemma state_dict_arrays (self : Rbm) cW cvb chb cdW cdhb cdvb key l :
  state_dict self cW cvb chb cdW cdhb cdvb !! key = Some (DArr l) ->
  l ∈ [cW; cvb; chb; cdW; cdhb; cdvb].
Proof.
  unfold state_dict. intros E.
  repeat (rewrite lookup_insert in E; case_decide; [simplify_eq; set_solver |]).
  by rewrite lookup_empty in E.
Qed.

(** C8. A snapshot followed by a restore gives a model whose [ff], [fb]
    and [energy] return what those of the original return on every input;
    the snapshot stores copies of the six arrays of the model, and
    mutating the original [W] afterwards changes neither the arrays of the
    snapshot nor the outputs of the restored model. *)
Theorem snapshot_restore_roundtrip (self : Rbm) (w : world T) :
  allocated self w -> registered self ->
  ∃ d w1 self',
    Rbm__getstate__ self w = Ok d w1
    ∧ Rbm__setstate__ d w1 = Ok self' w1
    ∧ (forall v, value_of (ff self' v w1) = value_of (ff self v w))
    ∧ (forall h, value_of (fb self' h w1) = value_of (fb self h w))
    ∧ (forall v h, value_of (energy self' v h w1) = value_of (energy self v h w))
    ∧ (forall key l, field_of_key self key = Some l ->
         snapshot_array d key w1 = heap w !! l)
    ∧ (forall a key,
         snapshot_array d key (mutate (W self) a w1) = snapshot_array d key w1)
    ∧ (forall a v,
         value_of (ff self' v (mutate (W self) a w1)) = value_of (ff self v w)).
Proof.
  intros Ha Hr.
  destruct (getstate_spec self w Ha)
    as (cW & cvb & chb & cdW & cdhb & cdvb & w1 & Hg & EW & Evb & Ehb & EdW
        & Edhb & Edvb & Hne & Hext).
  exists (state_dict self cW cvb chb cdW cdhb cdvb), w1,
    (MkRbm (nvis self) (nhid self) cW cvb chb cdW cdvb cdhb
           (htype self) (vtype self) (hact self) (vact self)).
  split; [exact Hg |].
  split; [by apply setstate_state_dict |].
  assert (Hmut : forall a l, l ∈ [cW; cvb; chb; cdW; cdhb; cdvb] ->
            heap (mutate (W self) a w1) !! l = heap w1 !! l).
  { intros a l Hl. simpl. apply lookup_insert_ne.
    rewrite Forall_forall in Hne. intros E. by apply (Hne l Hl). }
  repeat split.
  - intros v. by apply value_of_ff_ext.
  - intros h. by apply value_of_fb_ext.
  - intros v h. by apply value_of_energy_ext.
  - intros key l Hk. unfold field_of_key in Hk.
    repeat case_decide; simplify_eq; done.
  - intros a key. unfold snapshot_array.
    destruct (state_dict self cW cvb chb cdW cdhb cdvb !! key) as [[n | s | l] |] eqn:E;
      try done.
    apply Hmut. by apply state_dict_arrays in E.
  - intros a v. apply value_of_ff_ext; simpl.
    + rewrite <- EW. apply (Hmut a cW). set_solver.
    + rewrite <- Ehb. apply (Hmut a chb). set_solver.
Qed.
End Snapshot.

Lemma snapshot_restore_roundtrip_witness :
  ∃ d w1 self',
    Rbm__getstate__ rbm_2_1 w_2_1 = Ok d w1
    ∧ Rbm__setstate__ d w1 = Ok self' w1
    ∧ (forall v, value_of (ff self' v w1) = value_of (ff rbm_2_1 v w_2_1))
    ∧ (forall h, value_of (fb self' h w1) = value_of (fb rbm_2_1 h w_2_1))
    ∧ (forall v h,
         value_of (energy self' v h w1) = value_of (energy rbm_2_1 v h w_2_1))
    ∧ (forall key l, field_of_key rbm_2_1 key = Some l ->
         snapshot_array d key w1 = heap w_2_1 !! l)
    ∧ (forall a key,
         snapshot_array d key (mutate (W rbm_2_1) a w1) = snapshot_array d key w1)
    ∧ (forall a v,
         value_of (ff self' v (mutate (W rbm_2_1) a w1))
         = value_of (ff rbm_2_1 v w_2_1)).
Proof.
  apply (snapshot_restore_roundtrip rbm_2_1 w_2_1).
  - repeat constructor; eexists; reflexivity.
  - split; reflexivity.
Defined.


(** ** Pre-activations and the exponential *)

Arguments xadd : simpl never.
Arguments xmul : simpl never.
Arguments xexp : simpl never.
Arguments xlog : simpl never.

Lemma exp_1_ge_2 : (2 <= exp 1)%R.
Proof. pose proof (exp_ineq1 1%R). lra. Qed.

Lemma exp_monotone x y : (x <= y)%R -> (exp x <= exp y)%R.
Proof.
  intros [Hlt | ->]; [| lra]. left. by apply exp_increasing.
Qed.

Lemma entry_seq (f : nat -> R) n j : j < n -> entry (f <$> seq 0 n) j = f j.
Proof.
  intros Hj. unfold entry. rewrite (nth_fmap f (seq 0 n) j 0 0%R) by (by rewrite length_seq).
  by rewrite seq_nth.
Qed.

Lemma entry_pre (Wm : list (list R)) (hbv v : list R) j :
  rect (length v) Wm -> j < length Wm -> j < length hbv ->
  entry (zip_with Rplus ((fun row => dot_row row v) <$> Wm) hbv) j
  = preact_at Wm hbv v j.
Proof.
  intros Hrect HjW Hjh.
  rewrite entry_zip_with by (rewrite ?length_fmap; lia).
  unfold preact_at, mentry. f_equal.
  unfold entry at 1. rewrite (nth_fmap _ Wm j [] 0%R) by lia.
  apply dot_row_sum. by apply rect_nth.
Qed.

Lemma pre_is_preacts (Wm : list (list R)) (hbv v : list R) :
  rect (length v) Wm -> length Wm = length hbv ->
  zip_with Rplus ((fun row => dot_row row v) <$> Wm) hbv = preacts Wm hbv v.
Proof.
  intros Hrect Hrows.
  assert (Hl : length (zip_with Rplus ((fun row => dot_row row v) <$> Wm) hbv)
               = length hbv)
    by (rewrite length_zip_with_l_eq; rewrite length_fmap; done).
  apply (nth_ext _ _ 0%R 0%R).
  - unfold preacts. by rewrite Hl, length_fmap, length_seq.
  - intros j Hj. rewrite Hl in Hj.
    change (entry (zip_with Rplus ((fun row => dot_row row v) <$> Wm) hbv) j
            = entry (preacts Wm hbv v) j).
    rewrite entry_pre by (done || lia). unfold preacts. by rewrite entry_seq.
Qed.

Lemma sum_softplus_preacts (Wm : list (list R)) (hbv v : list R) :
  np_sum1 (softplus <$> preacts Wm hbv v)
  = big_sum (length hbv) (fun j => softplus (preact_at Wm hbv v j)).
Proof.
  unfold preacts. rewrite np_sum1_entry, !length_fmap, length_seq.
  apply big_sum_ext. intros j Hj.
  rewrite entry_fmap by (by rewrite length_fmap, length_seq).
  by rewrite entry_seq.
Qed.

(** ** Rounding to float64 *)

Lemma Zfloor_spec (x : R) : (IZR (Zfloor x) <= x < IZR (Zfloor x) + 1)%R.
Proof.
  unfold Zfloor. rewrite minus_IZR. destruct (archimed x) as [H1 H2]. lra.
Qed.

Lemma Zfloor_unique (x : R) (n : Z) : (IZR n <= x < IZR n + 1)%R -> Zfloor x = n.
Proof.
  intros [H1 H2]. destruct (Zfloor_spec x) as [H3 H4].
  assert (Zfloor x < n + 1)%Z.
  { apply lt_IZR. rewrite plus_IZR. lra. }
  assert (n < Zfloor x + 1)%Z.
  { apply lt_IZR. rewrite plus_IZR. lra. }
  lia.
Qed.

Lemma Zfloor_IZR (n : Z) : Zfloor (IZR n) = n.
Proof. apply Zfloor_unique. lra. Qed.

Lemma Zfloor_monotone (x y : R) : (x <= y)%R -> (Zfloor x <= Zfloor y)%Z.
Proof.
  intros H. destruct (Zfloor_spec x) as [H1 _]. destruct (Zfloor_spec y) as [_ H2].
  assert (Zfloor x < Zfloor y + 1)%Z; [| lia].
  apply lt_IZR. rewrite plus_IZR. lra.
Qed.

Lemma Zfloor_ge (x : R) (n : Z) : (IZR n <= x)%R -> (n <= Zfloor x)%Z.
Proof. intros H. rewrite <- (Zfloor_IZR n). by apply Zfloor_monotone. Qed.

Lemma Znearest_cases (x : R) :
  Znearest x = Zfloor x ∧ (x - IZR (Zfloor x) <= 1 / 2)%R
  ∨ Znearest x = (Zfloor x + 1)%Z ∧ (1 / 2 <= x - IZR (Zfloor x))%R.
Proof.
  unfold Znearest. cbv zeta.
  destruct (decide (x - IZR (Zfloor x) < 1 / 2)%R); [left; split; [done | lra] |].
  destruct (decide (1 / 2 < x - IZR (Zfloor x))%R); [right; split; [done | lra] |].
  destruct (Z.even (Zfloor x)); [left | right]; split; try done; lra.
Qed.

Lemma Znearest_IZR (n : Z) : Znearest (IZR n) = n.
Proof.
  unfold Znearest. cbv zeta. rewrite Zfloor_IZR.
  rewrite decide_True by lra. done.
Qed.

Lemma Znearest_ge (x : R) (n : Z) : (IZR n <= x)%R -> (n <= Znearest x)%Z.
Proof.
  intros H. pose proof (Zfloor_ge x n H).
  destruct (Znearest_cases x) as [[-> _] | [-> _]]; lia.
Qed.

Lemma Znearest_le (x : R) (n : Z) : (x <= IZR n)%R -> (Znearest x <= n)%Z.
Proof.
  intros H. destruct (Zfloor_spec x) as [H1 H2].
  destruct (Znearest_cases x) as [[-> _] | [-> Hd]].
  - apply le_IZR. lra.
  - assert (Zfloor x < n)%Z; [| lia]. apply lt_IZR. lra.
Qed.

Lemma Znearest_monotone (x y : R) : (x <= y)%R -> (Znearest x <= Znearest y)%Z.
Proof.
  intros H. pose proof (Zfloor_monotone x y H) as Hf.
  destruct (Z.eq_dec (Zfloor x) (Zfloor y)) as [E | NE].
  - unfold Znearest. cbv zeta. rewrite E.
    destruct (decide (x - IZR (Zfloor y) < 1 / 2)%R);
    destruct (decide (y - IZR (Zfloor y) < 1 / 2)%R); try lia; try lra.
    + destruct (decide (1 / 2 < y - IZR (Zfloor y))%R); [lia |].
      destruct (Z.even (Zfloor y)); lia.
    + destruct (decide (1 / 2 < x - IZR (Zfloor y))%R);
      destruct (decide (1 / 2 < y - IZR (Zfloor y))%R); try lia; try lra.
      destruct (Z.even (Zfloor y)); lia.
  - destruct (Znearest_cases x) as [[-> _] | [-> _]];
    destruct (Znearest_cases y) as [[-> _] | [-> _]]; lia.
Qed.

Lemma Znearest_opp (x : R) : Znearest (- x) = (- Znearest x)%Z.
Proof.
  destruct (Zfloor_spec x) as [H1 H2].
  destruct (Req_dec_T x (IZR (Zfloor x))) as [E | NE].
  - rewrite E, <- opp_IZR, !Znearest_IZR. done.
  - assert (Hf : Zfloor (- x) = (- Zfloor x - 1)%Z).
    { apply Zfloor_unique. rewrite minus_IZR, opp_IZR. lra. }
    unfold Znearest. cbv zeta. rewrite Hf, minus_IZR, opp_IZR.
    destruct (decide (x - IZR (Zfloor x) < 1 / 2)%R).
    + rewrite decide_False by lra. rewrite decide_True by lra. lia.
    + destruct (decide (1 / 2 < x - IZR (Zfloor x))%R).
      * rewrite decide_True by lra. lia.
      * rewrite decide_False by lra. rewrite decide_False by lra.
        replace (- Zfloor x - 1)%Z with (- (Zfloor x + 1))%Z by lia.
        rewrite Z.even_opp, Z.even_add. simpl.
        destruct (Z.even (Zfloor x)); simpl; lia.
Qed.

Lemma bpow_pos (e : Z) : (0 < bpow e)%R.
Proof. apply powerRZ_lt. lra. Qed.

Lemma bpow_add (a b : Z) : bpow (a + b) = (bpow a * bpow b)%R.
Proof. apply powerRZ_add. lra. Qed.

Lemma bpow_0 : bpow 0 = 1%R.
Proof. reflexivity. Qed.

Lemma bpow_cancel (e : Z) : (bpow (- e) * bpow e = 1)%R.
Proof. rewrite <- bpow_add. replace (- e + e)%Z with 0%Z by lia. done. Qed.

Lemma bpow_IZR (e : Z) : (0 <= e)%Z -> bpow e = IZR (2 ^ e).
Proof.
  intros H. unfold bpow. rewrite <- (Z2Nat.id e H) at 1.
  rewrite <- pow_powerRZ, pow_IZR. by rewrite Z2Nat.id.
Qed.

Lemma bpow_le (a b : Z) : (a <= b)%Z -> (bpow a <= bpow b)%R.
Proof.
  intros H. replace b with (a + (b - a))%Z by lia. rewrite bpow_add.
  assert (1 <= bpow (b - a))%R.
  { rewrite bpow_IZR by lia. apply IZR_le.
    pose proof (Z.pow_pos_nonneg 2 (b - a)). lia. }
  pose proof (bpow_pos a). nra.
Qed.

Lemma bpow_lt (a b : Z) : (a < b)%Z -> (bpow a < bpow b)%R.
Proof.
  intros H. replace b with (a + (b - a))%Z by lia. rewrite bpow_add.
  assert (1 < bpow (b - a))%R.
  { rewrite bpow_IZR by lia. apply IZR_lt.
    apply Z.pow_gt_1; lia. }
  pose proof (bpow_pos a). nra.
Qed.

Lemma bpow_lt_inv (a b : Z) : (bpow a < bpow b)%R -> (a < b)%Z.
Proof.
  intros H. destruct (Z_lt_le_dec a b) as [| Hle]; [done |].
  pose proof (bpow_le b a Hle). lra.
Qed.

Lemma ln_2_pos : (0 < ln 2)%R.
Proof. rewrite <- ln_1. apply ln_increasing; lra. Qed.

Lemma bpow_exp (e : Z) : bpow e = exp (IZR e * ln 2).
Proof.
  unfold bpow. rewrite powerRZ_Rpower by lra. reflexivity.
Qed.

Lemma log2_floor_spec (x : R) :
  x <> 0%R -> (bpow (log2_floor x) <= Rabs x < bpow (log2_floor x + 1))%R.
Proof.
  intros Hx. assert (Ha : (0 < Rabs x)%R) by (by apply Rabs_pos_lt).
  unfold log2_floor. pose proof ln_2_pos as Hl.
  rewrite <- (exp_ln (Rabs x) Ha) at 2 3.
  remember (ln (Rabs x)) as L eqn:EL. clear EL.
  assert (E : (L / ln 2 * ln 2 = L)%R) by (field; lra).
  destruct (Zfloor_spec (L / ln 2)) as [H1 H2].
  rewrite !bpow_exp, plus_IZR.
  remember (Zfloor (L / ln 2)) as k eqn:Ek. clear Ek.
  remember (L / ln 2)%R as q eqn:Eq. clear Eq. subst L.
  split.
  - destruct (Rle_lt_or_eq_dec _ _ H1) as [Hlt | Heq].
    + left. apply exp_increasing. apply Rmult_lt_compat_r; lra.
    + right. by rewrite Heq.
  - apply exp_increasing. apply Rmult_lt_compat_r; lra.
Qed.

Lemma log2_floor_unique (x : R) (k : Z) :
  (bpow k <= Rabs x < bpow (k + 1))%R -> log2_floor x = k.
Proof.
  intros [H1 H2].
  assert (Hx : x <> 0%R).
  { intros ->. rewrite Rabs_R0 in H1. pose proof (bpow_pos k). lra. }
  destruct (log2_floor_spec x Hx) as [H3 H4].
  assert (log2_floor x < k + 1)%Z by (apply bpow_lt_inv; lra).
  assert (k < log2_floor x + 1)%Z by (apply bpow_lt_inv; lra).
  lia.
Qed.

Lemma log2_floor_monotone (x y : R) :
  (0 < x <= y)%R -> (log2_floor x <= log2_floor y)%Z.
Proof.
  intros [Hx Hxy].
  destruct (log2_floor_spec x) as [H1 H2]; [lra |].
  destruct (log2_floor_spec y) as [H3 H4]; [lra |].
  rewrite Rabs_pos_eq in * by lra.
  assert (log2_floor x < log2_floor y + 1)%Z by (apply bpow_lt_inv; lra).
  lia.
Qed.

Lemma ulp_exponent_opp (x : R) : ulp_exponent (- x) = ulp_exponent x.
Proof. unfold ulp_exponent, log2_floor. by rewrite Rabs_Ropp. Qed.

Lemma round64_opp (x : R) : round64 (- x) = (- round64 x)%R.
Proof.
  unfold round64. cbv zeta. rewrite ulp_exponent_opp.
  replace (- x * bpow (- ulp_exponent x))%R with (- (x * bpow (- ulp_exponent x)))%R by ring.
  rewrite Znearest_opp, opp_IZR. ring.
Qed.

Lemma round64_nonneg (x : R) : (0 <= x)%R -> (0 <= round64 x)%R.
Proof.
  intros H. unfold round64. cbv zeta.
  pose proof (bpow_pos (ulp_exponent x)). pose proof (bpow_pos (- ulp_exponent x)).
  assert (0 <= Znearest (x * bpow (- ulp_exponent x)))%Z.
  { apply Znearest_ge. nra. }
  apply IZR_le in H2. nra.
Qed.

Lemma round64_nonpos (x : R) : (x <= 0)%R -> (round64 x <= 0)%R.
Proof.
  intros H. pose proof (round64_nonneg (- x)). rewrite round64_opp in H0. lra.
Qed.

Lemma round64_0 : round64 0 = 0%R.
Proof.
  pose proof (round64_nonneg 0). pose proof (round64_nonpos 0). lra.
Qed.

(** Scaling by the unit in the last place. *)
Lemma round64_ge_scaled (x : R) (n : Z) :
  (IZR n * bpow (ulp_exponent x) <= x)%R -> (IZR n * bpow (ulp_exponent x) <= round64 x)%R.
Proof.
  intros H. unfold round64. cbv zeta.
  pose proof (bpow_pos (ulp_exponent x)) as Hp.
  pose proof (bpow_pos (- ulp_exponent x)) as Hn.
  pose proof (bpow_cancel (ulp_exponent x)) as Hc.
  assert (n <= Znearest (x * bpow (- ulp_exponent x)))%Z.
  { apply Znearest_ge. 
    replace (IZR n) with (IZR n * bpow (ulp_exponent x) * bpow (- ulp_exponent x))%R
      by (rewrite Rmult_assoc, (Rmult_comm (bpow _)), Hc; ring).
    apply Rmult_le_compat_r; lra. }
  apply IZR_le in H0. nra.
Qed.

Lemma round64_le_scaled (x : R) (n : Z) :
  (x <= IZR n * bpow (ulp_exponent x))%R -> (round64 x <= IZR n * bpow (ulp_exponent x))%R.
Proof.
  intros H. unfold round64. cbv zeta.
  pose proof (bpow_pos (ulp_exponent x)) as Hp.
  pose proof (bpow_pos (- ulp_exponent x)) as Hn.
  pose proof (bpow_cancel (ulp_exponent x)) as Hc.
  assert (Znearest (x * bpow (- ulp_exponent x)) <= n)%Z.
  { apply Znearest_le. 
    replace (IZR n) with (IZR n * bpow (ulp_exponent x) * bpow (- ulp_exponent x))%R
      by (rewrite Rmult_assoc, (Rmult_comm (bpow _)), Hc; ring).
    apply Rmult_le_compat_r; lra. }
  apply IZR_le in H0. nra.
Qed.

(** A power of two at or above the unit in the last place is a multiple of it. *)
Lemma bpow_scaled (u e : Z) : (e <= u)%Z -> bpow u = (IZR (2 ^ (u - e)) * bpow e)%R.
Proof.
  intros H. rewrite <- bpow_IZR by lia. rewrite <- bpow_add. f_equal. lia.
Qed.

Lemma round64_ge_bpow (x : R) :
  (0 < x)%R -> (ulp_exponent x <= log2_floor x)%Z -> (bpow (log2_floor x) <= round64 x)%R.
Proof.
  intros Hx He. destruct (log2_floor_spec x) as [H1 H2]; [lra |].
  rewrite Rabs_pos_eq in * by lra.
  rewrite (bpow_scaled (log2_floor x) (ulp_exponent x)) in * by done.
  by apply round64_ge_scaled.
Qed.

Lemma round64_le_bpow (x : R) (u : Z) :
  (0 < x)%R -> (log2_floor x + 1 <= u)%Z -> (ulp_exponent x <= u)%Z ->
  (round64 x <= bpow u)%R.
Proof.
  intros Hx Hu He. destruct (log2_floor_spec x) as [H1 H2]; [lra |].
  rewrite Rabs_pos_eq in * by lra.
  pose proof (bpow_le _ _ Hu).
  rewrite (bpow_scaled u (ulp_exponent x)) in * by done.
  apply round64_le_scaled. lra.
Qed.

Lemma round64_monotone_pos (x y : R) :
  (0 < x <= y)%R -> (round64 x <= round64 y)%R.
Proof.
  intros [Hx Hxy].
  pose proof (log2_floor_monotone x y (conj Hx Hxy)) as Hk.
  assert (He : (ulp_exponent x <= ulp_exponent y)%Z) by (unfold ulp_exponent; lia).
  destruct (Z.eq_dec (ulp_exponent x) (ulp_exponent y)) as [E | NE].
  - unfold round64. cbv zeta. rewrite E.
    pose proof (bpow_pos (ulp_exponent y)) as Hp.
    pose proof (bpow_pos (- ulp_exponent y)) as Hn.
    assert (Znearest (x * bpow (- ulp_exponent y))
            <= Znearest (y * bpow (- ulp_exponent y)))%Z.
    { apply Znearest_monotone. nra. }
    apply IZR_le in H. nra.
  - set (u := Z.max (log2_floor x + 1) (ulp_exponent x)).
    assert (round64 x <= bpow u)%R by (apply round64_le_bpow; unfold u; lia || lra).
    assert (bpow (log2_floor y) <= round64 y)%R.
    { apply round64_ge_bpow; [lra |]. unfold ulp_exponent in *. lia. }
    assert (bpow u <= bpow (log2_floor y))%R.
    { apply bpow_le. unfold u, ulp_exponent in *. lia. }
    lra.
Qed.

Lemma round64_monotone (x y : R) : (x <= y)%R -> (round64 x <= round64 y)%R.
Proof.
  intros H.
  destruct (Rlt_le_dec 0 x) as [Hx | Hx].
  - apply round64_monotone_pos. lra.
  - destruct (Rle_lt_dec 0 y) as [Hy | Hy].
    + pose proof (round64_nonpos x Hx). pose proof (round64_nonneg y Hy). lra.
    + pose proof (round64_monotone_pos (- y) (- x)) as Hm.
      rewrite !round64_opp in Hm. lra.
Qed.

Lemma round64_exact_pos (m e : Z) :
  (0 < m < 2 ^ 53)%Z -> (-1074 <= e)%Z ->
  round64 (IZR m * bpow e) = (IZR m * bpow e)%R.
Proof.
  intros [Hm1 Hm2] He.
  set (a := (IZR m * bpow e)%R).
  assert (Ha : (0 < a)%R).
  { unfold a. apply Rmult_lt_0_compat; [by apply IZR_lt | apply bpow_pos]. }
  destruct (log2_floor_spec a) as [H1 H2]; [lra |].
  rewrite Rabs_pos_eq in * by lra.
  assert (Hlt : (a < bpow (53 + e))%R).
  { unfold a. rewrite bpow_add, (bpow_IZR 53) by lia.
    apply Rmult_lt_compat_r; [apply bpow_pos | by apply IZR_lt]. }
  assert (Hk : (log2_floor a < 53 + e)%Z) by (apply bpow_lt_inv; lra).
  assert (Hu : (ulp_exponent a <= e)%Z) by (unfold ulp_exponent; lia).
  assert (Es : a = (IZR (m * 2 ^ (e - ulp_exponent a)) * bpow (ulp_exponent a))%R).
  { rewrite mult_IZR, <- bpow_IZR by lia.
    rewrite Rmult_assoc, <- bpow_add. unfold a at 1. do 2 f_equal. lia. }
  apply Rle_antisym.
  - rewrite Es at 2. apply round64_le_scaled. rewrite <- Es. lra.
  - rewrite Es at 1. apply round64_ge_scaled. rewrite <- Es. lra.
Qed.

Lemma round64_exact (m e : Z) :
  (Z.abs m < 2 ^ 53)%Z -> (-1074 <= e)%Z ->
  round64 (IZR m * bpow e) = (IZR m * bpow e)%R.
Proof.
  intros Hm He.
  destruct (Z.lt_trichotomy m 0) as [Hn | [-> | Hp]].
  - replace (IZR m * bpow e)%R with (- (IZR (- m) * bpow e))%R
      by (rewrite opp_IZR; ring).
    rewrite round64_opp, round64_exact_pos by lia. done.
  - rewrite Rmult_0_l. apply round64_0.
  - apply round64_exact_pos; lia.
Qed.

Lemma round64_IZR (n : Z) : (Z.abs n < 2 ^ 53)%Z -> round64 (IZR n) = IZR n.
Proof.
  intros H. pose proof (round64_exact n 0 H) as E.
  rewrite bpow_0, Rmult_1_r in E. apply E. lia.
Qed.

(** ** Float operations on finite values *)

Lemma max_float_bpow : max_float = (IZR (2 ^ 53 - 1) * bpow 971)%R.
Proof.
  unfold max_float. rewrite (bpow_IZR 971) by lia. by rewrite <- mult_IZR.
Qed.

Lemma max_float_pos : (0 < max_float)%R.
Proof. unfold max_float. by apply IZR_lt. Qed.

Lemma bpow_1024_gt_max_float : (max_float < bpow 1024)%R.
Proof.
  unfold max_float. rewrite (bpow_IZR 1024) by lia. by apply IZR_lt.
Qed.

Lemma round64_abs (x : R) : Rabs (round64 x) = round64 (Rabs x).
Proof.
  destruct (Rle_lt_dec 0 x) as [Hx | Hx].
  - rewrite (Rabs_pos_eq x) by done. apply Rabs_pos_eq. by apply round64_nonneg.
  - rewrite (Rabs_left x) by done. rewrite round64_opp.
    apply Rabs_left1. apply round64_nonpos. lra.
Qed.

(** Rounding does not cross a float64. *)
Lemma round64_abs_le (x : R) (m e : Z) :
  (Z.abs m < 2 ^ 53)%Z -> (-1074 <= e)%Z ->
  (Rabs x <= IZR m * bpow e)%R -> (Rabs (round64 x) <= IZR m * bpow e)%R.
Proof.
  intros Hm He Hx. rewrite round64_abs, <- (round64_exact m e Hm He).
  by apply round64_monotone.
Qed.

Lemma round64_ge (x : R) (m e : Z) :
  (Z.abs m < 2 ^ 53)%Z -> (-1074 <= e)%Z ->
  (IZR m * bpow e <= x)%R -> (IZR m * bpow e <= round64 x)%R.
Proof.
  intros Hm He Hx. rewrite <- (round64_exact m e Hm He). by apply round64_monotone.
Qed.

Lemma round64_le (x : R) (m e : Z) :
  (Z.abs m < 2 ^ 53)%Z -> (-1074 <= e)%Z ->
  (x <= IZR m * bpow e)%R -> (round64 x <= IZR m * bpow e)%R.
Proof.
  intros Hm He Hx. rewrite <- (round64_exact m e Hm He). by apply round64_monotone.
Qed.

Lemma round64_ge_1 (x : R) : (1 <= x)%R -> (1 <= round64 x)%R.
Proof.
  intros H. pose proof (round64_ge x 1 0) as G. rewrite bpow_0, Rmult_1_r in G.
  apply G; [lia | lia | done].
Qed.

Lemma round64_le_1 (x : R) : (x <= 1)%R -> (round64 x <= 1)%R.
Proof.
  intros H. pose proof (round64_le x 1 0) as G. rewrite bpow_0, Rmult_1_r in G.
  apply G; [lia | lia | done].
Qed.

Lemma round64_le_max_float (x : R) :
  (Rabs x <= max_float)%R -> (Rabs (round64 x) <= max_float)%R.
Proof.
  rewrite max_float_bpow. apply round64_abs_le; lia.
Qed.

Lemma overflow_fin (r : R) :
  (Rabs (round64 r) <= max_float)%R -> overflow r = Fin (round64 r).
Proof. intros H. unfold overflow. by rewrite decide_True. Qed.

Lemma overflow_in_range (r : R) :
  (Rabs r <= max_float)%R -> overflow r = Fin (round64 r).
Proof. intros H. apply overflow_fin. by apply round64_le_max_float. Qed.

Lemma overflow_IZR (n : Z) : (Z.abs n < 2 ^ 53)%Z -> overflow (IZR n) = Fin (IZR n).
Proof.
  intros H. rewrite overflow_fin; rewrite round64_IZR by done; [done |].
  rewrite <- abs_IZR. unfold max_float. apply IZR_le.
  transitivity (2 ^ 53)%Z; [lia | by apply Z.leb_le].
Qed.

(** The exact result is at most a float64 of the finite range. *)
Lemma overflow_bounded (r : R) (m e : Z) :
  (Z.abs m < 2 ^ 53)%Z -> (-1074 <= e)%Z ->
  (IZR m * bpow e <= max_float)%R -> (Rabs r <= IZR m * bpow e)%R ->
  overflow r = Fin (round64 r) ∧ (Rabs (round64 r) <= IZR m * bpow e)%R.
Proof.
  intros Hm He Hmax Hr.
  pose proof (round64_abs_le r m e Hm He Hr) as Hb.
  split; [| done]. apply overflow_fin. lra.
Qed.

(** The result of an operation whose exact result is not negative. *)
Lemma overflow_nonneg (r : R) :
  (0 <= r)%R ->
  overflow r = Fin (round64 r) ∧ (0 <= round64 r <= max_float)%R
  ∨ overflow r = PInf ∧ (max_float < round64 r)%R.
Proof.
  intros Hr. pose proof (round64_nonneg r Hr) as Hn.
  unfold overflow. rewrite (Rabs_pos_eq _ Hn).
  destruct (decide (round64 r <= max_float)%R) as [Hle | Hgt].
  - left. split; [done | lra].
  - right. split; [| lra]. unfold signed_inf.
    destruct (decide (0 < r)%R) as [| Hz]; [done |].
    assert (r = 0%R) as -> by lra. rewrite round64_0 in Hgt.
    pose proof max_float_pos. lra.
Qed.

Lemma nonnegative_overflow (r : R) : (0 <= r)%R -> nonnegative (overflow r).
Proof.
  intros Hr. destruct (overflow_nonneg r Hr) as [[-> [H _]] | [-> _]]; simpl; done.
Qed.

(** ** log(1 + exp(x)) on one pre-activation *)

Lemma ln_2_le_1 : (ln 2 <= 1)%R.
Proof.
  rewrite <- (ln_exp 1). pose proof exp_1_ge_2.
  destruct (Rle_lt_or_eq_dec _ _ H) as [Hlt | <-]; [| lra].
  left. apply ln_increasing; lra.
Qed.

Lemma ln_monotone (x y : R) : (0 < x <= y)%R -> (ln x <= ln y)%R.
Proof.
  intros [Hx [Hlt | ->]]; [| lra]. left. by apply ln_increasing.
Qed.

Lemma ln_le_1024 (y : R) : (0 < y <= max_float)%R -> (ln y <= 1024)%R.
Proof.
  intros [Hy Hmax]. pose proof bpow_1024_gt_max_float as Hb.
  assert (ln y <= ln (bpow 1024))%R by (apply ln_monotone; lra).
  rewrite bpow_exp, ln_exp in H. pose proof ln_2_le_1. pose proof ln_2_pos. nra.
Qed.

Lemma log_exp_cases (r : R) :
  log_exp_x (Fin r) = PInf
  ∨ ∃ z, log_exp_x (Fin r) = Fin z ∧ (0 <= z <= bpow 10)%R.
Proof.
  unfold log_exp_x. simpl. unfold xexp.
  pose proof (exp_pos r) as He.
  destruct (overflow_nonneg (exp r)) as [[-> [H0 H1]] | [-> _]]; [lra | | by left].
  unfold xadd.
  destruct (overflow_nonneg (1 + round64 (exp r))) as [[-> [H2 H3]] | [-> _]];
    [lra | | by left].
  pose proof (round64_ge_1 (1 + round64 (exp r))) as Hy.
  unfold xlog. rewrite decide_True by lra.
  assert (Hl : (0 <= ln (round64 (1 + round64 (exp r))) <= 1024)%R).
  { split; [| apply ln_le_1024; lra].
    rewrite <- ln_1. apply ln_monotone. lra. }
  right. exists (round64 (ln (round64 (1 + round64 (exp r))))).
  assert (Hb : bpow 10 = 1024%R) by (by rewrite bpow_IZR by lia).
  destruct (overflow_bounded (ln (round64 (1 + round64 (exp r)))) 1 10) as [-> Hbd];
    try lia.
  - rewrite Rmult_1_l, Hb. pose proof max_float_pos. unfold max_float.
    apply IZR_le. by apply Z.leb_le.
  - rewrite Rmult_1_l, Hb. rewrite Rabs_pos_eq; lra.
  - split; [done |]. split; [apply round64_nonneg; lra |].
    rewrite Rmult_1_l in Hbd. pose proof (Rle_abs (round64 (ln (round64 (1 + round64 (exp r)))))).
    lra.
Qed.

Lemma nonnegative_log_exp (r : R) : nonnegative (log_exp_x (Fin r)).
Proof.
  destruct (log_exp_cases r) as [-> | (z & -> & Hz & _)]; simpl; done.
Qed.

(** exp overflows from 1024 ln 2 on. *)
Lemma log_exp_overflow (r : R) : (1024 * ln 2 <= r)%R -> log_exp_x (Fin r) = PInf.
Proof.
  intros Hr. unfold log_exp_x. simpl. unfold xexp.
  assert (Hb : (bpow 1024 <= exp r)%R).
  { rewrite bpow_exp. by apply exp_monotone. }
  pose proof (round64_ge (exp r) 1 1024) as Hg. rewrite Rmult_1_l in Hg.
  pose proof bpow_1024_gt_max_float as Hm.
  destruct (overflow_nonneg (exp r)) as [[_ [_ H1]] | [-> _]]; [pose proof (exp_pos r); lra | |].
  - exfalso. assert (bpow 1024 <= round64 (exp r))%R by (apply Hg; [lia | lia | done]). lra.
  - done.
Qed.

(** Up to 1023 ln 2 nothing overflows. *)
Lemma log_exp_finite (r : R) :
  (r <= 1023 * ln 2)%R -> ∃ z, log_exp_x (Fin r) = Fin z ∧ (0 <= z <= bpow 10)%R.
Proof.
  intros Hr.
  assert (Hb : (exp r <= bpow 1023)%R).
  { rewrite bpow_exp. by apply exp_monotone. }
  pose proof (exp_pos r) as He.
  pose proof (round64_le (exp r) 1 1023) as Hle. rewrite Rmult_1_l in Hle.
  assert (He1 : (round64 (exp r) <= bpow 1023)%R) by (apply Hle; [lia | lia | done]).
  assert (He0 : (0 <= round64 (exp r))%R) by (apply round64_nonneg; lra).
  assert (Hs : (bpow 1023 + 1 <= max_float)%R).
  { unfold max_float. rewrite (bpow_IZR 1023) by lia. rewrite <- plus_IZR.
    apply IZR_le. by apply Z.leb_le. }
  destruct (log_exp_cases r) as [E | H]; [| done]. exfalso.
  revert E. unfold log_exp_x. simpl. unfold xexp.
  rewrite (overflow_in_range (exp r)) by (rewrite Rabs_pos_eq; lra).
  unfold xadd.
  rewrite (overflow_in_range (1 + round64 (exp r))) by (rewrite Rabs_pos_eq; lra).
  pose proof (round64_ge_1 (1 + round64 (exp r))) as Hy.
  assert (Hy2 : (round64 (1 + round64 (exp r)) <= max_float)%R).
  { pose proof (round64_le_max_float (1 + round64 (exp r))) as G.
    rewrite !Rabs_pos_eq in G; [apply G | |]; lra. }
  unfold xlog. rewrite decide_True by lra.
  rewrite overflow_in_range; [done |].
  assert (ln (round64 (1 + round64 (exp r))) <= 1024)%R by (apply ln_le_1024; lra).
  assert (0 <= ln (round64 (1 + round64 (exp r))))%R.
  { rewrite <- ln_1. apply ln_monotone. lra. }
  rewrite Rabs_pos_eq by done. pose proof Hs. pose proof (bpow_pos 1023).
  assert (1024 <= bpow 1023)%R; [| lra].
  replace 1024%R with (bpow 10) by (by rewrite bpow_IZR by lia). apply bpow_le. lia.
Qed.

(** ** Sums of floats *)

Lemma np_sum1_cons (x : xfloat) (xs : list xfloat) :
  np_sum1 (x :: xs) = xadd x (np_sum1 xs).
Proof. reflexivity. Qed.

Lemma nonnegative_xadd (x y : xfloat) :
  nonnegative x -> nonnegative y -> nonnegative (xadd x y).
Proof.
  destruct x as [a | | |], y as [b | | |]; simpl; try done.
  intros Ha Hb. unfold xadd. apply nonnegative_overflow. lra.
Qed.

Lemma nonnegative_sum (ts : list xfloat) :
  Forall nonnegative ts -> nonnegative (np_sum1 ts).
Proof.
  induction 1 as [| t ts Ht _ IH]; [simpl; lra |].
  rewrite np_sum1_cons. by apply nonnegative_xadd.
Qed.

Lemma xadd_pinf_l (y : xfloat) : nonnegative y -> xadd PInf y = PInf.
Proof. by destruct y. Qed.

Lemma xadd_pinf_r (x : xfloat) : nonnegative x -> xadd x PInf = PInf.
Proof. by destruct x. Qed.

(** One infinite term makes the sum of non-negative terms infinite. *)
Lemma sum_pinf (ts : list xfloat) :
  Forall nonnegative ts -> PInf ∈ ts -> np_sum1 ts = PInf.
Proof.
  induction 1 as [| t ts Ht Hts IH]; intros Hin.
  - by apply elem_of_nil in Hin.
  - rewrite np_sum1_cons. apply elem_of_cons in Hin as [<- | Hin].
    + apply xadd_pinf_l. by apply nonnegative_sum.
    + rewrite IH by done. by apply xadd_pinf_r.
Qed.

(** The sum of [n] finite terms of magnitude at most 2^e is finite, of
    magnitude at most n 2^e, when n 2^e is a float64. *)
Lemma sum_bounded (ts : list xfloat) (e : Z) :
  (-1074 <= e)%Z -> (Z.of_nat (length ts) < 2 ^ 53)%Z ->
  (IZR (Z.of_nat (length ts)) * bpow e <= max_float)%R ->
  Forall (bounded_by (bpow e)) ts ->
  ∃ s, np_sum1 ts = Fin s ∧ (Rabs s <= IZR (Z.of_nat (length ts)) * bpow e)%R.
Proof.
  intros He. induction ts as [| t ts IH]; intros Hn Hmax Hts.
  - exists 0%R. split; [done |]. simpl length. simpl Z.of_nat.
    rewrite Rabs_R0, Rmult_0_l. lra.
  - apply Forall_cons in Hts as [Ht Hts].
    pose proof (bpow_pos e) as Hp.
    assert (Hlen : IZR (Z.of_nat (length (t :: ts)))
                   = (IZR (Z.of_nat (length ts)) + 1)%R).
    { simpl length. rewrite Nat2Z.inj_succ, succ_IZR. done. }
    rewrite Hlen, Rmult_plus_distr_r, Rmult_1_l in Hmax.
    destruct IH as (s & Es & Hs); [simpl in Hn; lia | lra | done |].
    destruct t as [a | | |]; try done. simpl in Ht.
    rewrite np_sum1_cons, Es. unfold xadd.
    destruct (overflow_bounded (a + s) (Z.of_nat (length ts) + 1) e) as [E Hb].
    + simpl in Hn. lia.
    + done.
    + rewrite plus_IZR, Rmult_plus_distr_r, Rmult_1_l. lra.
    + rewrite plus_IZR, Rmult_plus_distr_r, Rmult_1_l.
      pose proof (Rabs_triang a s). lra.
    + exists (round64 (a + s)). split; [done |]. rewrite Hlen.
      by rewrite plus_IZR in Hb.
Qed.

(** ** Free energy in float arithmetic *)

Arguments bpow : simpl never.

Lemma np_sum1_in_range (xs : list xfloat) (t : R) :
  np_sum1 xs = Fin t -> (Rabs t <= max_float)%R.
Proof.
  destruct xs as [| x xs].
  - intros [= <-]. rewrite Rabs_R0. pose proof max_float_pos. lra.
  - rewrite np_sum1_cons. destruct x as [a | | |], (np_sum1 xs) as [b | | |]; try done.
    unfold xadd, overflow.
    destruct (decide (Rabs (round64 (a + b)) <= max_float)%R) as [Hle | Hgt].
    + by intros [= <-].
    + unfold signed_inf. by repeat case_decide.
Qed.

Lemma free_energy_run_float (self : Rbm) (w : world xfloat) Wm vbv hbv (v : list xfloat) :
  model_in self w Wm vbv hbv ->
  length v = Z.to_nat (nvis self) ->
  free_energy self v w =
    Ok (xadd (xmul (Fin (-1)) (float_visible_sum vbv v))
             (xmul (Fin (-1)) (np_sum1 (log_exp_x <$> float_preacts Wm hbv v)))) w.
Proof.
  intros [HW Hvb Hhb Hrect Hrows Hvbl Hhbl] Hv.
  unfold free_energy.
  rewrite (bind_ok _ _ _ _ _ (deref1_ok _ _ _ Hvb)).
  rewrite np_binop_azip; simpl; try done; [| congruence].
  run.
  rewrite (deref2_ok _ _ _ _ HW).
  unfold np_dot. rewrite Hv, Nat.eqb_refl. run.
  rewrite (deref1_ok _ _ _ Hhb).
  rewrite np_binop_azip; simpl; try done.
  rewrite !length_fmap; congruence.
Qed.

Lemma length_float_preacts Wm hbv v :
  length Wm = length hbv -> length (float_preacts Wm hbv v) = length hbv.
Proof.
  intros H. unfold float_preacts. rewrite length_zip_with_l_eq; by rewrite length_fmap.
Qed.

Lemma xmul_minus_one (t : R) (m e : Z) :
  (Z.abs m < 2 ^ 53)%Z -> (-1074 <= e)%Z ->
  (IZR m * bpow e <= max_float)%R -> (Rabs t <= IZR m * bpow e)%R ->
  ∃ t', xmul (Fin (-1)) (Fin t) = Fin t' ∧ (Rabs t' <= IZR m * bpow e)%R.
Proof.
  intros Hm He Hmax Ht. unfold xmul.
  destruct (overflow_bounded (-1 * t) m e) as [E Hb]; try done.
  - replace (-1 * t)%R with (- t)%R by ring. by rewrite Rabs_Ropp.
  - eauto.
Qed.

(** [free_energy] has no safeguard: an overflow of exp reaches the result. *)
Lemma free_energy_overflows (self : Rbm) (w : world xfloat) Wm vbv hbv
    (v : list xfloat) (xs : list R) (t : R) :
  model_in self w Wm vbv hbv ->
  length v = Z.to_nat (nvis self) ->
  float_preacts Wm hbv v = Fin <$> xs ->
  float_visible_sum vbv v = Fin t ->
  Exists (fun x => (1024 * ln 2 <= x)%R) xs ->
  free_energy self v w = Ok NInf w.
Proof.
  intros Hm Hv Hpre Ht Hbig.
  rewrite (free_energy_run_float self w Wm vbv hbv v Hm Hv), Hpre, Ht.
  rewrite sum_pinf.
  - destruct (xmul_minus_one t (2 ^ 53 - 1) 971) as (t' & -> & _); try lia.
    + rewrite <- max_float_bpow. lra.
    + rewrite <- max_float_bpow. by apply (np_sum1_in_range _ _ Ht).
    + unfold xmul, signed_inf. rewrite decide_False by lra.
      by rewrite decide_True by lra.
  - rewrite <- list_fmap_compose, Forall_fmap. apply Forall_forall.
    intros x _. apply nonnegative_log_exp.
  - apply Exists_exists in Hbig as (x & Hin & Hx).
    rewrite <- (log_exp_overflow x Hx). rewrite <- list_fmap_compose.
    apply list_elem_of_fmap. by exists x.
Qed.

Lemma free_energy_finite (self : Rbm) (w : world xfloat) Wm vbv hbv
    (v : list xfloat) (xs : list R) (t : R) :
  model_in self w Wm vbv hbv ->
  length v = Z.to_nat (nvis self) ->
  float_preacts Wm hbv v = Fin <$> xs ->
  float_visible_sum vbv v = Fin t ->
  Forall (fun x => (x <= 1023 * ln 2)%R) xs ->
  (Rabs t <= bpow 1023)%R ->
  (nhid self < 2 ^ 43)%Z ->
  ∃ r, free_energy self v w = Ok (Fin r) w ∧ (Rabs r <= max_float)%R.
Proof.
  intros Hm Hv Hpre Ht Hsmall Htb Hn.
  rewrite (free_energy_run_float self w Wm vbv hbv v Hm Hv), Hpre, Ht.
  assert (Hlen : length xs = Z.to_nat (nhid self)).
  { destruct Hm as [_ _ _ _ Hrows _ Hhbl].
    rewrite <- Hhbl, <- (length_float_preacts Wm hbv v) by congruence.
    by rewrite Hpre, length_fmap. }
  assert (Hk : (IZR (Z.of_nat (length xs)) * bpow 10 <= bpow 53)%R).
  { rewrite (bpow_IZR 10), (bpow_IZR 53), <- mult_IZR by lia. apply IZR_le.
    rewrite Hlen. change (2 ^ 53)%Z with (2 ^ 43 * 2 ^ 10)%Z. lia. }
  assert (H53 : (bpow 53 + bpow 1023 <= max_float)%R).
  { unfold max_float. rewrite (bpow_IZR 53), (bpow_IZR 1023), <- plus_IZR by lia.
    apply IZR_le. by apply Z.leb_le. }
  pose proof (bpow_pos 53) as Hp53. pose proof (bpow_pos 1023) as Hp1023.
  destruct (sum_bounded (log_exp_x <$> (Fin <$> xs)) 10) as (s & -> & Hs).
  - lia.
  - rewrite !length_fmap, Hlen. lia.
  - rewrite !length_fmap. lra.
  - rewrite <- list_fmap_compose, Forall_fmap.
    eapply Forall_impl; [exact Hsmall |]. intros x Hx. simpl.
    destruct (log_exp_finite x Hx) as (z & -> & Hz). simpl.
    rewrite Rabs_pos_eq; lra.
  - rewrite !length_fmap in Hs.
    destruct (xmul_minus_one s 1 53) as (s' & -> & Hs'); try lia; try lra.
    destruct (xmul_minus_one t 1 1023) as (t' & -> & Ht'); try lia; try lra.
    rewrite Rmult_1_l in Hs', Ht'.
    exists (round64 (t' + s')).
    assert (Hsum : (Rabs (t' + s') <= max_float)%R).
    { pose proof (Rabs_triang t' s'). lra. }
    unfold xadd. rewrite overflow_in_range by done.
    split; [done |]. by apply round64_le_max_float.
Qed.


(** Operations on small integers are exact. *)
Lemma xadd_IZR (a b : Z) :
  (Z.abs (a + b) < 2 ^ 53)%Z -> xadd (Fin (IZR a)) (Fin (IZR b)) = Fin (IZR (a + b)).
Proof. intros H. unfold xadd. rewrite <- plus_IZR. by apply overflow_IZR. Qed.

Lemma xmul_IZR (a b : Z) :
  (Z.abs (a * b) < 2 ^ 53)%Z -> xmul (Fin (IZR a)) (Fin (IZR b)) = Fin (IZR (a * b)).
Proof. intros H. unfold xmul. rewrite <- mult_IZR. by apply overflow_IZR. Qed.

Lemma model_in_1_1 : model_in rbm_1_1 w_1 [[Fin 1]] [Fin 0] [Fin 1].
Proof. split; try reflexivity. repeat constructor. Qed.

Lemma model_in_50 : model_in rbm_1_1 w_50 [[Fin 50]] [Fin 0] [Fin 50].
Proof. split; try reflexivity. repeat constructor. Qed.

Lemma float_preacts_1_1 (a b c : Z) :
  (Z.abs (a * c) < 2 ^ 53)%Z -> (Z.abs (a * c + b) < 2 ^ 53)%Z ->
  float_preacts [[Fin (IZR a)]] [Fin (IZR b)] [Fin (IZR c)] = [Fin (IZR (a * c + b))].
Proof.
  intros H1 H2. unfold float_preacts, dot_row. simpl.
  rewrite xmul_IZR by done.
  rewrite xadd_IZR by (by rewrite Z.add_0_r). rewrite Z.add_0_r.
  by rewrite xadd_IZR.
Qed.

Lemma float_visible_sum_1 (a c : Z) :
  (Z.abs (c * a) < 2 ^ 53)%Z ->
  float_visible_sum [Fin (IZR a)] [Fin (IZR c)] = Fin (IZR (c * a)).
Proof.
  intros H. unfold float_visible_sum. simpl.
  rewrite xmul_IZR by done. rewrite xadd_IZR by (by rewrite Z.add_0_r).
  by rewrite Z.add_0_r.
Qed.

Lemma ln_2_ge_half : (/ 2 <= ln 2)%R.
Proof. left. apply ln_lt_2. Qed.



(** ** Construction *)

Lemma init_unknown_type_raises_witness :
  ∃ key, Rbm__init__ 2 1 (Some "not_a_real_type") None w_half = Raise (KeyError key)
         ∧ unittypes !! key = None
         ∧ (key = default default_htype None
            ∨ key = default default_vtype (Some "not_a_real_type")).
Proof.
  apply (init_unknown_type_raises 2 1 (Some "not_a_real_type") None w_half).
  - lia.
  - lia.
  - left. reflexivity.
Defined.

Lemma default_vtype_has_no_derivative_witness :
  ∃ m w', Rbm__init__ 2 1 None None w_half = Ok m w'
          ∧ vtype m = "pthresh"
          ∧ unittypes !! vtype m = Some (vact m)
          ∧ vact m = f_pthresh
          ∧ derivatives !! vtype m = None
          ∧ dict_getitem derivatives (vtype m) w' = Raise (KeyError "pthresh").
Proof.
  eexists _, _. split; [reflexivity |].
  eapply (default_vtype_has_no_derivative 2 1 None w_half). reflexivity.
Defined.

(** * Further properties *)
(** ** Backward propagation *)

Lemma length_column (j : nat) (rows : list (list R)) :
  length (column j rows) = length rows.
Proof. unfold column. by rewrite length_fmap. Qed.

Lemma entry_column (rows : list (list R)) i j :
  j < length rows -> entry (column i rows) j = mentry rows j i.
Proof.
  intros Hj. unfold entry at 1, column, mentry.
  by rewrite (nth_fmap _ rows j [] 0%R).
Qed.

Lemma fb_run (self : Rbm) (w : world R) Wm vbv hbv (h : list R) :
  model_in self w Wm vbv hbv ->
  length h = Z.to_nat (nhid self) ->
  fb self h w =
    Ok (A1 (logistic <$>
              zip_with Rplus
                ((fun i => dot_row (column i Wm) h) <$> seq 0 (Z.to_nat (nvis self)))
                vbv)) w.
Proof.
  intros [HW Hvb Hhb Hrect Hrows Hvbl Hhbl] Hh. unfold fb.
  rewrite (bind_ok _ _ _ _ _ (deref2_ok _ _ _ _ HW)).
  unfold transpose, np_dot. rewrite Hrows, Hh, Nat.eqb_refl. run.
  rewrite (deref1_ok _ _ _ Hvb).
  rewrite np_binop_azip; simpl; try done.
  - by rewrite <- list_fmap_compose.
  - by rewrite !length_fmap, length_seq, Hvbl.
Qed.

(** X1. For a hidden vector of length [nhid], [fb] returns
    sigmoid(W^T.h + vb): a vector of length [nvis] whose entry [i] is the
    logistic function of sum_j W_{j,i} h_j + vb_i; the world is
    unchanged. *)
Theorem fb_is_sigmoid_of_transposed_affine
    (self : Rbm) (w : world R) Wm vbv hbv (h : list R) :
  model_in self w Wm vbv hbv ->
  length h = Z.to_nat (nhid self) ->
  ∃ vs, fb self h w = Ok (A1 vs) w
        ∧ length vs = Z.to_nat (nvis self)
        ∧ (forall i, i < length vs -> entry vs i = backward_spec Wm vbv h i).
Proof.
  intros Hm Hh. rewrite (fb_run self w Wm vbv hbv h Hm Hh).
  destruct Hm as [HW Hvb Hhb Hrect Hrows Hvbl Hhbl].
  eexists. split; [reflexivity |].
  assert (Hlen : length (zip_with Rplus
             ((fun i => dot_row (column i Wm) h) <$> seq 0 (Z.to_nat (nvis self)))
             vbv) = Z.to_nat (nvis self)).
  { rewrite length_zip_with_l_eq; rewrite length_fmap, length_seq; congruence. }
  rewrite length_fmap, Hlen. split; [done |].
  intros i Hi. rewrite entry_fmap by lia.
  rewrite entry_zip_with by (rewrite ?length_fmap, ?length_seq; lia).
  unfold backward_spec. f_equal. f_equal.
  rewrite entry_seq by done.
  rewrite dot_row_sum by (rewrite length_column; congruence).
  apply big_sum_ext. intros j Hj. by rewrite entry_column by lia.
Qed.

Lemma fb_is_sigmoid_of_transposed_affine_witness :
  ∃ vs, fb rbm_2_1 [1%R] w_2_1 = Ok (A1 vs) w_2_1
        ∧ length vs = Z.to_nat (nvis rbm_2_1)
        ∧ (forall i, i < length vs ->
             entry vs i = backward_spec [[1%R; (-1)%R]] [0%R; 0%R] [1%R] i).
Proof.
  apply (fb_is_sigmoid_of_transposed_affine rbm_2_1 w_2_1
           [[1%R; (-1)%R]] [0%R; 0%R] [0%R]).
  - exact model_in_2_1.
  - reflexivity.
Defined.

Arguments xdiv : simpl never.

(** ** The range of the propagated probabilities *)

Lemma ff_run_float (self : Rbm) (w : world xfloat) Wm vbv hbv (v : list xfloat) :
  model_in self w Wm vbv hbv ->
  length v = Z.to_nat (nvis self) ->
  ff self v w = Ok (A1 (sigmoid1 <$> float_preacts Wm hbv v)) w.
Proof.
  intros [HW Hvb Hhb Hrect Hrows Hvbl Hhbl] Hv. unfold ff.
  rewrite (bind_ok _ _ _ _ _ (deref2_ok _ _ _ _ HW)).
  unfold np_dot. rewrite Hv, Nat.eqb_refl. run.
  rewrite (deref1_ok _ _ _ Hhb).
  rewrite np_binop_azip; simpl; try done.
  rewrite !length_fmap; congruence.
Qed.

Lemma fb_run_float (self : Rbm) (w : world xfloat) Wm vbv hbv (h : list xfloat) :
  model_in self w Wm vbv hbv ->
  length h = Z.to_nat (nhid self) ->
  fb self h w
  = Ok (A1 (sigmoid1 <$>
              float_preacts (transpose (Z.to_nat (nvis self)) Wm).2 vbv h)) w.
Proof.
  intros [HW Hvb Hhb Hrect Hrows Hvbl Hhbl] Hh. unfold fb.
  rewrite (bind_ok _ _ _ _ _ (deref2_ok _ _ _ _ HW)).
  unfold transpose, np_dot. rewrite Hrows, Hh, Nat.eqb_refl. run.
  rewrite (deref1_ok _ _ _ Hvb).
  rewrite np_binop_azip; simpl; try done.
  by rewrite !length_fmap, length_seq, Hvbl.
Qed.

(** [sigmoid] of a float that is not a NaN is a probability. *)
Lemma sigmoid1_probability (x : xfloat) : x <> NaN -> probability (sigmoid1 x).
Proof.
  intros Hx. unfold sigmoid1. simpl.
  assert (H1 : xdiv (Fin 1) (overflow 1) = Fin 1).
  { rewrite (overflow_IZR 1) by done. unfold xdiv. rewrite decide_False by lra.
    replace (1 / 1)%R with 1%R by field. by rewrite (overflow_IZR 1). }
  assert (Hinf : probability (xdiv (Fin 1) PInf)).
  { unfold xdiv. simpl. lra. }
  destruct x as [r | | |]; [| | | done].
  - unfold xneg, xexp. pose proof (exp_pos (- r)) as He.
    destruct (overflow_nonneg (exp (- r))) as [[-> [H0 _]] | [-> _]]; [lra | | done].
    unfold xadd.
    destruct (overflow_nonneg (1 + round64 (exp (- r)))) as [[-> [_ _]] | [-> _]];
      [lra | | done].
    pose proof (round64_ge_1 (1 + round64 (exp (- r)))) as Hy.
    set (y := round64 (1 + round64 (exp (- r)))) in *.
    assert (Hy1 : (1 <= y)%R) by (apply Hy; lra).
    unfold xdiv. rewrite decide_False by lra.
    assert (Hq : (0 < 1 / y <= 1)%R).
    { split; [apply Rdiv_lt_0_compat; lra |].
      unfold Rdiv. rewrite Rmult_1_l, <- Rinv_1 at 1.
      apply Rinv_le_contravar; lra. }
    rewrite overflow_in_range.
    + simpl. split; [apply round64_nonneg; lra | apply round64_le_1; lra].
    + rewrite Rabs_pos_eq by lra. unfold max_float.
      apply Rle_trans with 1%R; [lra |]. apply IZR_le. by apply Z.leb_le.
  - simpl. unfold xexp, xadd. replace (1 + 0)%R with 1%R by ring.
    rewrite H1. simpl. lra.
  - done.
Qed.

Lemma sigmoid1_nan : sigmoid1 NaN = NaN.
Proof. reflexivity. Qed.

Lemma sigmoid1_range (x : xfloat) : probability (sigmoid1 x) ∨ sigmoid1 x = NaN.
Proof.
  destruct x as [r | | |]; [| | | by right]; left; by apply sigmoid1_probability.
Qed.

Lemma probabilities_of_preacts (pre : list xfloat) :
  Forall (fun p => probability p ∨ p = NaN) (sigmoid1 <$> pre)
  ∧ (NaN ∉ pre -> Forall probability (sigmoid1 <$> pre)).
Proof.
  split.
  - rewrite Forall_fmap. apply Forall_forall. intros x _. apply sigmoid1_range.
  - intros Hn. rewrite Forall_fmap. apply Forall_forall. intros x Hin.
    apply sigmoid1_probability. by intros ->.
Qed.



(** ** Forward propagation without overflow *)

Lemma bounded_by_fin (B : R) (x : xfloat) :
  bounded_by B x -> ∃ r, x = Fin r ∧ (Rabs r <= B)%R.
Proof. destruct x as [r | | |]; try done. intros H. by exists r. Qed.

Lemma bounded_products (row v : list xfloat) (b : Z) :
  (0 <= b)%Z -> (2 * b <= 1023)%Z ->
  Forall (bounded_by (bpow b)) row -> Forall (bounded_by (bpow b)) v ->
  Forall (bounded_by (bpow (2 * b))) (zip_with xmul row v).
Proof.
  intros Hb Hb2 Hrow. revert v. induction Hrow as [| x row Hx _ IH]; intros v Hv.
  - constructor.
  - destruct Hv as [| y v Hy Hv]; [constructor |].
    simpl. constructor; [| by apply IH].
    apply bounded_by_fin in Hx as (a & -> & Ha).
    apply bounded_by_fin in Hy as (c & -> & Hc).
    unfold xmul.
    destruct (overflow_bounded (a * c) 1 (2 * b)) as [-> Hbd]; try lia.
    + rewrite Rmult_1_l. pose proof bpow_1024_gt_max_float.
      apply Rle_trans with (bpow 1023); [apply bpow_le; lia |].
      unfold max_float. rewrite (bpow_IZR 1023) by lia. apply IZR_le.
      by apply Z.leb_le.
    + rewrite Rmult_1_l, Rabs_mult.
      replace (2 * b)%Z with (b + b)%Z by lia. rewrite bpow_add.
      pose proof (Rabs_pos a). pose proof (Rabs_pos c). pose proof (bpow_pos b).
      apply Rmult_le_compat; lra.
    + simpl. by rewrite Rmult_1_l in Hbd.
Qed.

Lemma bpow_1023_le_max_float : (bpow 1023 <= max_float)%R.
Proof.
  unfold max_float. rewrite (bpow_IZR 1023) by lia. apply IZR_le. by apply Z.leb_le.
Qed.

(** A pre-activation of bounded inputs is finite. *)
Lemma bounded_preact (row v : list xfloat) (x : xfloat) (b c : Z) :
  (0 <= b)%Z -> (0 <= c <= 52)%Z -> (2 * b + c <= 1023)%Z ->
  (Z.of_nat (length v) + 1 <= 2 ^ c)%Z ->
  Forall (bounded_by (bpow b)) row -> Forall (bounded_by (bpow b)) v ->
  bounded_by (bpow b) x ->
  xadd (dot_row row v) x <> NaN.
Proof.
  intros Hb Hc Hbc Hn Hrow Hv Hx.
  pose proof (bounded_products row v b Hb ltac:(lia) Hrow Hv) as Hp.
  assert (Hl : (length (zip_with xmul row v) <= length v)%nat).
  { rewrite length_zip_with. lia. }
  pose proof (bpow_pos (2 * b)) as Hp2.
  assert (H2c : (2 ^ c <= 2 ^ 52)%Z) by (apply Z.pow_le_mono_r; lia).
  assert (Hcap : (IZR (Z.of_nat (length v) + 1) * bpow (2 * b) <= max_float)%R).
  { apply Rle_trans with (bpow 1023); [| apply bpow_1023_le_max_float].
    apply Rle_trans with (bpow c * bpow (2 * b))%R.
    - apply Rmult_le_compat_r; [lra |]. rewrite bpow_IZR by lia. by apply IZR_le.
    - rewrite <- bpow_add. apply bpow_le. lia. }
  assert (Hle : (IZR (Z.of_nat (length (zip_with xmul row v))) * bpow (2 * b)
                 <= IZR (Z.of_nat (length v)) * bpow (2 * b))%R).
  { apply Rmult_le_compat_r; [lra |]. apply IZR_le. lia. }
  rewrite plus_IZR, Rmult_plus_distr_r, Rmult_1_l in Hcap.
  destruct (sum_bounded (zip_with xmul row v) (2 * b)) as (s & Es & Hs);
    [lia | lia | lra | done |].
  unfold dot_row. change (@fmul xfloat x_float) with xmul. rewrite Es.
  apply bounded_by_fin in Hx as (a & -> & Ha).
  unfold xadd.
  destruct (overflow_bounded (s + a) (Z.of_nat (length v) + 1) (2 * b)) as [-> _];
    try lia; try done.
  - rewrite plus_IZR, Rmult_plus_distr_r, Rmult_1_l. lra.
  - rewrite plus_IZR, Rmult_plus_distr_r, Rmult_1_l.
    pose proof (Rabs_triang s a).
    assert (bpow b <= bpow (2 * b))%R by (apply bpow_le; lia). lra.
Qed.

Lemma bounded_preacts (Wm : list (list xfloat)) (hbv v : list xfloat) (b c : Z) :
  (0 <= b)%Z -> (0 <= c <= 52)%Z -> (2 * b + c <= 1023)%Z ->
  (Z.of_nat (length v) + 1 <= 2 ^ c)%Z ->
  Forall (Forall (bounded_by (bpow b))) Wm -> Forall (bounded_by (bpow b)) hbv ->
  Forall (bounded_by (bpow b)) v ->
  NaN ∉ float_preacts Wm hbv v.
Proof.
  intros Hb Hc Hbc Hn HW Hh Hv. unfold float_preacts.
  revert hbv Hh. induction HW as [| row Wm Hrow _ IH]; intros hbv Hh.
  - simpl. apply not_elem_of_nil.
  - destruct Hh as [| x hbv Hx Hh]; [simpl; apply not_elem_of_nil |].
    simpl. rewrite not_elem_of_cons. split; [| by apply IH].
    intros E. symmetry in E. revert E.
    by apply (bounded_preact row v x b c).
Qed.


Lemma bounded_by_64 (n : Z) : (Z.abs n <= 64)%Z -> bounded_by (bpow 6) (Fin (IZR n)).
Proof.
  intros H. simpl. rewrite <- abs_IZR, (bpow_IZR 6) by lia. by apply IZR_le.
Qed.


(** ** Inputs of the wrong length *)

Section Mismatch.
Context {T : Type} `{FT : Float T}.

Lemma np_dot_mismatch (c : nat) (rows : list (list T)) (v : list T) :
  c <> length v -> np_dot c rows v = inl (ValueError "shapes not aligned").
Proof.
  intros Hne. unfold np_dot.
  by destruct (Nat.eqb_spec c (length v)).
Qed.

Lemma np_binop_error {U} (f : T -> T -> U) (a b : ndarray T) e :
  np_binop f a b = inl e -> e = bc_error.
Proof.
  unfold np_binop. destruct a, b; repeat case_match; congruence.
Qed.

(** X3. [ff] on a vector whose length is not [nvis], and [fb] on a vector
    whose length is not [nhid], raise the ValueError of [np.dot]: these
    two never broadcast. *)
Theorem ff_fb_reject_wrong_length
    (self : Rbm) (w : world T) Wm vbv hbv (v h : list T) :
  model_in self w Wm vbv hbv ->
  (length v <> Z.to_nat (nvis self) ->
   ff self v w = Raise (ValueError "shapes not aligned"))
  ∧ (length h <> Z.to_nat (nhid self) ->
     fb self h w = Raise (ValueError "shapes not aligned")).
Proof.
  intros [HW Hvb Hhb Hrect Hrows Hvbl Hhbl]. split; intros Hne.
  - unfold ff. rewrite (bind_ok _ _ _ _ _ (deref2_ok _ _ _ _ HW)).
    by rewrite np_dot_mismatch by congruence.
  - unfold fb. rewrite (bind_ok _ _ _ _ _ (deref2_ok _ _ _ _ HW)).
    unfold transpose. by rewrite np_dot_mismatch by congruence.
Qed.

(** X4. [free_energy] on a vector whose length is not [nvis] raises
    ValueError: from the product with [vb] when the two lengths cannot be
    broadcast, from [np.dot] otherwise. *)
Theorem free_energy_rejects_wrong_length
    (self : Rbm) (w : world T) Wm vbv hbv (v : list T) :
  model_in self w Wm vbv hbv ->
  length v <> Z.to_nat (nvis self) ->
  ∃ msg, free_energy self v w = Raise (ValueError msg).
Proof.
  intros [HW Hvb Hhb Hrect Hrows Hvbl Hhbl] Hne. unfold free_energy.
  rewrite (bind_ok _ _ _ _ _ (deref1_ok _ _ _ Hvb)).
  destruct (np_binop fmul (A1 v) (A1 vbv)) as [e | p] eqn:E; run.
  - apply np_binop_error in E as ->. unfold bc_error. eauto.
  - rewrite (deref2_ok _ _ _ _ HW).
    rewrite np_dot_mismatch by congruence. eauto.
Qed.
End Mismatch.

Lemma ff_fb_reject_wrong_length_witness :
  ff rbm_2_1 [1%R] w_2_1 = Raise (ValueError "shapes not aligned")
  ∧ fb rbm_2_1 [1%R; 1%R] w_2_1 = Raise (ValueError "shapes not aligned").
Proof.
  destruct (ff_fb_reject_wrong_length rbm_2_1 w_2_1
              [[1%R; (-1)%R]] [0%R; 0%R] [0%R] [1%R] [1%R; 1%R] model_in_2_1)
    as [Hf Hb].
  split; [apply Hf | apply Hb]; simpl; lia.
Defined.

Lemma free_energy_rejects_wrong_length_witness :
  ∃ msg, free_energy rbm_2_1 [1%R; 1%R; 1%R] w_2_1 = Raise (ValueError msg).
Proof.
  apply (free_energy_rejects_wrong_length rbm_2_1 w_2_1
           [[1%R; (-1)%R]] [0%R; 0%R] [0%R]).
  - exact model_in_2_1.
  - simpl. lia.
Defined.

(** ** Silent broadcasting in the joint energy *)

Section Broadcast.
Context {T : Type} `{FT : Float T}.

Lemma bc_dim_one_l n : bc_dim 1 n = Some n.
Proof.
  unfold bc_dim. destruct (Nat.eqb_spec 1 n) as [<- | Hne]; [done |].
  done.
Qed.

Lemma bc_dim_one_r n : bc_dim n 1 = Some n.
Proof.
  unfold bc_dim. destruct (Nat.eqb_spec n 1) as [-> | Hne]; [done |].
  done.
Qed.

Lemma bc_zip_single_l {A B C} (f : A -> B -> C) x ys :
  bc_zip f [x] ys = f x <$> ys.
Proof.
  unfold bc_zip. destruct (Nat.eqb_spec (length [x]) (length ys)) as [E | _]; [| done].
  destruct ys as [| y [| y' ys]]; simpl in E; try done.
Qed.

Lemma bc_zip_single_r {A B C} (f : A -> B -> C) xs y :
  bc_zip f xs [y] = (fun x => f x y) <$> xs.
Proof.
  unfold bc_zip. destruct (Nat.eqb_spec (length xs) (length [y])) as [E | Hne].
  - destruct xs as [| x [| x' xs]]; simpl in E; try done.
  - destruct xs as [| x [| x' xs]]; simpl in Hne; try done.
Qed.

Lemma mul_single_l (x : T) (ys : list T) :
  np_binop fmul (A1 [x]) (A1 ys)
  = np_binop fmul (A1 (replicate (length ys) x)) (A1 ys).
Proof.
  rewrite (np_binop_azip fmul (A1 (replicate _ _))); simpl;
    [| by rewrite length_replicate | done | done].
  unfold np_binop. change (length [x]) with 1. rewrite bc_dim_one_l.
  rewrite bc_zip_single_l. by rewrite zip_with_replicate_l.
Qed.

Lemma rows_times_column (c : nat) (x : T) (Wm : list (list T)) :
  forall h : list T, rect c Wm ->
  zip_with (bc_zip fmul) Wm ((fun hj => [fmul hj x]) <$> h)
  = zip_with (zip_with fmul) Wm ((fun hj => fmul hj <$> replicate c x) <$> h).
Proof.
  induction Wm as [| row Wm IH]; intros [| hj h] Hr; simpl; try done.
  apply Forall_cons in Hr as [Hrow Hr].
  rewrite bc_zip_single_r, fmap_replicate, IH by done. f_equal.
  by rewrite zip_with_replicate_r_eq.
Qed.

Lemma mul_outer_single (c : nat) (Wm : list (list T)) (x : T) (h : list T) :
  rect c Wm -> length Wm = length h ->
  np_binop fmul (A2 c Wm) (A2 (np_outer h [x]).1 (np_outer h [x]).2)
  = np_binop fmul (A2 c Wm)
      (A2 (np_outer h (replicate c x)).1 (np_outer h (replicate c x)).2).
Proof.
  intros Hr Hl. unfold np_outer. simpl.
  rewrite (np_binop_azip fmul (A2 c Wm) (A2 (length (replicate c x)) _)); simpl.
  - unfold np_binop. rewrite bc_dim_one_r.
    rewrite length_fmap, Hl, bc_dim_refl.
    rewrite bc_zip_same by (by rewrite length_fmap).
    by rewrite (rows_times_column c).
  - by rewrite length_replicate, length_fmap, Hl.
  - done.
  - unfold rect. rewrite Forall_fmap. apply Forall_forall. intros hj _. simpl.
    by rewrite length_fmap.
Qed.

Lemma energy_returns (self : Rbm) (w : world T) Wm vbv hbv (v h : list T) :
  model_in self w Wm vbv hbv ->
  length v = Z.to_nat (nvis self) ->
  length h = Z.to_nat (nhid self) ->
  ∃ e, energy self v h w = Ok e w.
Proof.
  intros [HW Hvb Hhb Hrect Hrows Hvbl Hhbl] Hv Hh. unfold energy.
  rewrite (bind_ok _ _ _ _ _ (deref1_ok _ _ _ Hvb)).
  rewrite np_binop_azip; simpl; try done; [| congruence].
  run.
  rewrite (deref1_ok _ _ _ Hhb).
  rewrite np_binop_azip; simpl; try done; [| congruence].
  rewrite (deref2_ok _ _ _ _ HW).
  rewrite np_binop_azip; simpl; try done.
  - eauto.
  - rewrite length_fmap. congruence.
  - unfold rect. rewrite Forall_fmap. apply Forall_forall. intros hj _. simpl.
    by rewrite length_fmap.
Qed.

Lemma energy_single_visible (self : Rbm) (w : world T) Wm vbv hbv (x : T) (h : list T) :
  model_in self w Wm vbv hbv ->
  length h = Z.to_nat (nhid self) ->
  energy self [x] h w = energy self (replicate (Z.to_nat (nvis self)) x) h w.
Proof.
  intros [HW Hvb Hhb Hrect Hrows Hvbl Hhbl] Hh. unfold energy.
  rewrite !(bind_ok _ _ _ _ _ (deref1_ok _ _ _ Hvb)).
  rewrite mul_single_l, Hvbl.
  destruct (np_binop fmul (A1 (replicate _ x)) (A1 vbv)) as [e | p]; run; [done |].
  rewrite (deref1_ok _ _ _ Hhb).
  destruct (np_binop fmul (A1 h) (A1 hbv)) as [e | q]; run; [done |].
  rewrite (deref2_ok _ _ _ _ HW).
  pose proof (mul_outer_single _ Wm x h Hrect) as E.
  unfold np_outer in E. simpl in E. rewrite E by congruence. done.
Qed.

(** X5. [energy] does not check the length of [v]: a visible vector with
    a single entry [x] is broadcast against [vb] and [W], and [energy]
    returns, without an error, the energy of the vector of length [nvis]
    whose entries are all [x]. *)
Theorem energy_broadcasts_single_visible
    (self : Rbm) (w : world T) Wm vbv hbv (x : T) (h : list T) :
  model_in self w Wm vbv hbv ->
  length h = Z.to_nat (nhid self) ->
  ∃ e, energy self [x] h w = Ok e w
       ∧ energy self (replicate (Z.to_nat (nvis self)) x) h w = Ok e w.
Proof.
  intros Hm Hh.
  destruct (energy_returns self w Wm vbv hbv
              (replicate (Z.to_nat (nvis self)) x) h Hm) as [e E];
    [by rewrite length_replicate | done |].
  exists e. split; [| done].
  by rewrite (energy_single_visible self w Wm vbv hbv x h Hm Hh).
Qed.
End Broadcast.

Lemma energy_broadcasts_single_visible_witness :
  ∃ e, energy rbm_2_1 [1%R] [1%R] w_2_1 = Ok e w_2_1
       ∧ energy rbm_2_1 (replicate (Z.to_nat (nvis rbm_2_1)) 1%R) [1%R] w_2_1
         = Ok e w_2_1.
Proof.
  apply (energy_broadcasts_single_visible rbm_2_1 w_2_1
           [[1%R; (-1)%R]] [0%R; 0%R] [0%R]).
  - exact model_in_2_1.
  - reflexivity.
Defined.

(** ** Construction of a model *)

Section Init.
Context {T : Type} `{FT : Float T}.

Lemma alloc_spec (a : ndarray T) (w : world T) :
  ∃ l w', alloc a w = Ok l w'
    ∧ heap w !! l = None
    ∧ heap w' !! l = Some a
    ∧ (forall k b, heap w !! k = Some b -> heap w' !! k = Some b)
    ∧ (forall k, heap w' !! k = None -> heap w !! k = None)
    ∧ rsrc w' = rsrc w ∧ rpos w' = rpos w.
Proof.
  unfold alloc. set (l := fresh (dom (heap w))).
  assert (Hl : heap w !! l = None) by (apply not_elem_of_dom, is_fresh).
  eexists _, _. split; [reflexivity |]. simpl. repeat split; try done.
  - apply lookup_insert_eq.
  - intros k b Hk. rewrite lookup_insert_ne; [done | congruence].
  - intros k Hk. apply lookup_insert_None in Hk. tauto.
Qed.

Lemma np_random_uniform_ok (low high : T) (r c : nat) (w : world T) :
  np_random_uniform low high r c w
  = Ok (A2 c ((fun i => (fun u => fadd low (fmul (fsub high low) u))
                          <$> draws (rsrc w) (rpos w + i * c) c) <$> seq 0 r))
       (advance w (r * c)).
Proof.
  unfold np_random_uniform, np_random_random. run. unfold advance. f_equal.
  f_equal. by rewrite <- list_fmap_compose.
Qed.

Lemma init_run (nv nh : Z) (vt ht : option string) (fv fh : func) (w : world T) :
  (0 <= nv)%Z -> (0 <= nh)%Z ->
  unittypes !! default default_vtype vt = Some fv ->
  unittypes !! default default_htype ht = Some fh ->
  ∃ m w', Rbm__init__ nv nh vt ht w = Ok m w'
          ∧ nvis m = nv ∧ nhid m = nh
          ∧ vtype m = default default_vtype vt ∧ htype m = default default_htype ht
          ∧ vact m = fv ∧ hact m = fh
          ∧ constructed w w' m.
Proof.
  intros Hv Hh Ev Eh. unfold Rbm__init__. cbv zeta.
  rewrite (dim_of_Z_nonneg nv Hv), (dim_of_Z_nonneg nh Hh).
  set (r := Z.to_nat nh). set (c := Z.to_nat nv).
  rewrite (bind_ok _ _ w r w eq_refl), (bind_ok _ _ w c w eq_refl).
  rewrite (bind_ok _ _ _ _ _ (np_random_uniform_ok _ _ r c w)).
  destruct (alloc_spec (A2 c (init_weights w r c)) (advance w (r * c)))
    as (l1 & w1 & R1 & N1 & S1 & K1 & B1 & Q1 & P1).
  rewrite (bind_ok _ _ _ _ _ R1).
  destruct (alloc_spec (np_zeros1 c) w1) as (l2 & w2 & R2 & N2 & S2 & K2 & B2 & Q2 & P2).
  rewrite (bind_ok _ _ _ _ _ R2).
  destruct (alloc_spec (np_zeros1 r) w2) as (l3 & w3 & R3 & N3 & S3 & K3 & B3 & Q3 & P3).
  rewrite (bind_ok _ _ _ _ _ R3).
  destruct (alloc_spec (np_zeros2 r c) w3) as (l4 & w4 & R4 & N4 & S4 & K4 & B4 & Q4 & P4).
  rewrite (bind_ok _ _ _ _ _ R4).
  destruct (alloc_spec (np_zeros1 c) w4) as (l5 & w5 & R5 & N5 & S5 & K5 & B5 & Q5 & P5).
  rewrite (bind_ok _ _ _ _ _ R5).
  destruct (alloc_spec (np_zeros1 r) w5) as (l6 & w6 & R6 & N6 & S6 & K6 & B6 & Q6 & P6).
  rewrite (bind_ok _ _ _ _ _ R6).
  erewrite bind_ok; [| apply dict_getitem_ok, Eh].
  erewrite bind_ok; [| apply dict_getitem_ok, Ev].
  eexists _, _. split; [reflexivity |]. simpl.
  repeat split; try done; simpl; fold r c.
  - rewrite (K6 _ _ (K5 _ _ (K4 _ _ (K3 _ _ (K2 _ _ S1))))). done.
  - eauto 10.
  - eauto 10.
  - eauto 10.
  - eauto 10.
  - repeat constructor; eauto 10.
  - assert (D12 : l1 <> l2) by (intros ->; congruence).
    assert (D13 : l1 <> l3) by (intros ->; rewrite (K2 _ _ S1) in N3; done).
    assert (D14 : l1 <> l4) by (intros ->; rewrite (K3 _ _ (K2 _ _ S1)) in N4; done).
    assert (D15 : l1 <> l5)
      by (intros ->; rewrite (K4 _ _ (K3 _ _ (K2 _ _ S1))) in N5; done).
    assert (D16 : l1 <> l6)
      by (intros ->; rewrite (K5 _ _ (K4 _ _ (K3 _ _ (K2 _ _ S1)))) in N6; done).
    assert (D23 : l2 <> l3) by (intros ->; congruence).
    assert (D24 : l2 <> l4) by (intros ->; rewrite (K3 _ _ S2) in N4; done).
    assert (D25 : l2 <> l5) by (intros ->; rewrite (K4 _ _ (K3 _ _ S2)) in N5; done).
    assert (D26 : l2 <> l6)
      by (intros ->; rewrite (K5 _ _ (K4 _ _ (K3 _ _ S2))) in N6; done).
    assert (D34 : l3 <> l4) by (intros ->; congruence).
    assert (D35 : l3 <> l5) by (intros ->; rewrite (K4 _ _ S3) in N5; done).
    assert (D36 : l3 <> l6) by (intros ->; rewrite (K5 _ _ (K4 _ _ S3)) in N6; done).
    assert (D45 : l4 <> l5) by (intros ->; congruence).
    assert (D46 : l4 <> l6) by (intros ->; rewrite (K5 _ _ S4) in N6; done).
    assert (D56 : l5 <> l6) by (intros ->; congruence).
    repeat (apply NoDup_cons; split;
      [rewrite ?elem_of_cons, elem_of_nil; intuition congruence |]).
    apply NoDup_nil_2.
  - intros l a Hl. apply K6, K5, K4, K3, K2, K1. done.
  - rewrite P6, P5, P4, P3, P2, P1. done.
  - rewrite Q6, Q5, Q4, Q3, Q2, Q1. done.
Qed.
End Init.

Section InitProperties.
Context {T : Type} `{FT : Float T}.

Lemma rect_init_weights (w : world T) (r c : nat) : rect c (init_weights w r c).
Proof.
  unfold rect, init_weights. rewrite Forall_fmap. apply Forall_forall.
  intros i _. simpl. by rewrite length_fmap, length_draws.
Qed.

Lemma constructed_model_in (w w' : world T) (m : Rbm) :
  constructed w w' m ->
  model_in m w' (init_weights w (Z.to_nat (nhid m)) (Z.to_nat (nvis m)))
           (replicate (Z.to_nat (nvis m)) (fz 0))
           (replicate (Z.to_nat (nhid m)) (fz 0))
  ∧ allocated m w'.
Proof.
  intros [HW Hvb Hhb HdW Hdvb Hdhb Hnew Hd Hk Hp Hs]. split.
  - split; try done.
    + apply rect_init_weights.
    + unfold init_weights. by rewrite length_fmap, length_seq.
    + by rewrite length_replicate.
    + by rewrite length_replicate.
  - unfold allocated. repeat constructor; eauto.
Qed.

(** X6. With non-negative layer sizes and type names that are keys of
    [unittypes], [__init__] returns a model with those sizes and names whose
    six arrays are distinct new objects of the heap: [W] of shape
    (nhid, nvis) holds the drawn weights, the biases and the accumulators
    are zero, the objects that existed before are unchanged, and nhid * nvis
    uniform draws are consumed. *)
Theorem init_constructs_model
    (nv nh : Z) (vt ht : option string) (fv fh : func) (w : world T) :
  (0 <= nv)%Z -> (0 <= nh)%Z ->
  unittypes !! default default_vtype vt = Some fv ->
  unittypes !! default default_htype ht = Some fh ->
  ∃ m w', Rbm__init__ nv nh vt ht w = Ok m w'
          ∧ nvis m = nv ∧ nhid m = nh
          ∧ vtype m = default default_vtype vt ∧ htype m = default default_htype ht
          ∧ constructed w w' m
          ∧ model_in m w' (init_weights w (Z.to_nat nh) (Z.to_nat nv))
                     (replicate (Z.to_nat nv) (fz 0)) (replicate (Z.to_nat nh) (fz 0))
          ∧ allocated m w'
          ∧ registered m.
Proof.
  intros Hv Hh Ev Eh.
  destruct (init_run nv nh vt ht fv fh w Hv Hh Ev Eh)
    as (m & w' & E & <- & <- & Evt & Eht & Eva & Eha & Hc).
  exists m, w'. destruct (constructed_model_in w w' m Hc) as [Hm Ha].
  assert (Hr : registered m).
  { split; [rewrite Evt, Eva | rewrite Eht, Eha]; done. }
  by repeat (split; [done |]).
Qed.

(** X8. A negative layer size makes [__init__] raise the ValueError of
    numpy before any registry lookup, whatever the type names are. *)
Theorem init_rejects_negative_size
    (nv nh : Z) (vt ht : option string) (w : world T) :
  (nv < 0)%Z ∨ (nh < 0)%Z ->
  Rbm__init__ nv nh vt ht w
  = Raise (ValueError "negative dimensions are not allowed").
Proof.
  intros Hneg. unfold Rbm__init__, dim_of_Z. cbv zeta.
  destruct (Z.ltb_spec nh 0) as [Hh | Hh]; [done |].
  destruct (Z.ltb_spec nv 0) as [Hv | Hv]; [done |].
  lia.
Qed.

(** X9. [__init__] looks the hidden type up first: when it is not a key
    of [unittypes], the KeyError names it, whether or not the visible type
    is known. *)
Theorem init_reports_hidden_type_first
    (nv nh : Z) (vt ht : option string) (w : world T) :
  (0 <= nv)%Z -> (0 <= nh)%Z ->
  unittypes !! default default_htype ht = None ->
  Rbm__init__ nv nh vt ht w = Raise (KeyError (default default_htype ht)).
Proof.
  intros Hv Hh Eh. unfold Rbm__init__. cbv zeta.
  rewrite (dim_of_Z_nonneg nv Hv), (dim_of_Z_nonneg nh Hh). run.
  unfold dict_getitem. by rewrite Eh.
Qed.
End InitProperties.

Lemma init_constructs_model_witness :
  ∃ m w', Rbm__init__ 2 1 None None w_half = Ok m w'
          ∧ nvis m = 2%Z ∧ nhid m = 1%Z
          ∧ vtype m = default default_vtype None
          ∧ htype m = default default_htype None
          ∧ constructed w_half w' m
          ∧ model_in m w' (init_weights w_half (Z.to_nat 1) (Z.to_nat 2))
                     (replicate (Z.to_nat 2) (fz 0)) (replicate (Z.to_nat 1) (fz 0))
          ∧ allocated m w'
          ∧ registered m.
Proof.
  apply (init_constructs_model 2 1 None None f_pthresh f_sigmoid w_half).
  - lia.
  - lia.
  - reflexivity.
  - reflexivity.
Defined.

Lemma init_rejects_negative_size_witness :
  Rbm__init__ (-1) 3 (Some "not_a_real_type") None w_half
  = Raise (ValueError "negative dimensions are not allowed").
Proof.
  apply (init_rejects_negative_size (-1) 3 (Some "not_a_real_type") None w_half).
  left. lia.
Defined.

Lemma init_reports_hidden_type_first_witness :
  Rbm__init__ 2 1 (Some "also_unknown") (Some "not_a_real_type") w_half
  = Raise (KeyError (default default_htype (Some "not_a_real_type"))).
Proof.
  apply (init_reports_hidden_type_first 2 1 (Some "also_unknown")
           (Some "not_a_real_type") w_half).
  - lia.
  - lia.
  - reflexivity.
Defined.

Lemma init_weight_bound (u : R) :
  (0 <= u < 1)%R ->
  (- (2 / 10)
   <= fadd (fneg (dec 2 1)) (fmul (fsub (dec 2 1) (fneg (dec 2 1))) u)
   < 2 / 10)%R.
Proof.
  intros Hu. unfold dec. simpl. change (10 ^ Z.of_nat 1)%Z with 10%Z. lra.
Qed.

Lemma init_weights_in_range (w : world R) (r c : nat) :
  (forall k, (0 <= rsrc w k < 1)%R) -> weights_in_range (init_weights w r c).
Proof.
  intros Hu. unfold weights_in_range, init_weights.
  rewrite Forall_fmap. apply Forall_forall. intros i _. simpl.
  rewrite Forall_fmap. unfold draws. rewrite Forall_fmap.
  apply Forall_forall. intros k _. simpl. apply init_weight_bound, Hu.
Qed.

(** X7. When the uniform draws lie in the interval from 0 (included)
    to 1, every weight of a newly constructed model lies in the interval
    from -0.2 (included) to 0.2. *)
Theorem init_draws_weights_in_range
    (nv nh : Z) (vt ht : option string) (fv fh : func) (w : world R) :
  (0 <= nv)%Z -> (0 <= nh)%Z ->
  unittypes !! default default_vtype vt = Some fv ->
  unittypes !! default default_htype ht = Some fh ->
  (forall k, (0 <= rsrc w k < 1)%R) ->
  ∃ m w' Wm, Rbm__init__ nv nh vt ht w = Ok m w'
             ∧ heap w' !! W m = Some (A2 (Z.to_nat nv) Wm)
             ∧ length Wm = Z.to_nat nh
             ∧ rect (Z.to_nat nv) Wm
             ∧ weights_in_range Wm.
Proof.
  intros Hv Hh Ev Eh Hu.
  destruct (init_run nv nh vt ht fv fh w Hv Hh Ev Eh)
    as (m & w' & E & <- & <- & _ & _ & _ & _ & Hc).
  exists m, w', (init_weights w (Z.to_nat (nhid m)) (Z.to_nat (nvis m))).
  repeat split.
  - done.
  - by destruct Hc.
  - unfold init_weights. by rewrite length_fmap, length_seq.
  - apply rect_init_weights.
  - by apply init_weights_in_range.
Qed.

Lemma init_draws_weights_in_range_witness :
  ∃ m w' Wm, Rbm__init__ 2 1 None None w_half = Ok m w'
             ∧ heap w' !! W m = Some (A2 (Z.to_nat 2) Wm)
             ∧ length Wm = Z.to_nat 1
             ∧ rect (Z.to_nat 2) Wm
             ∧ weights_in_range Wm.
Proof.
  apply (init_draws_weights_in_range 2 1 None None f_pthresh f_sigmoid w_half).
  - lia.
  - lia.
  - reflexivity.
  - reflexivity.
  - intros k. simpl. lra.
Defined.

(** ** Restoring from a dictionary *)

Section Restore.
Context {T : Type} `{FT : Float T}.

Lemma dict_getitem_missing {V} (d : gmap string V) key (w : world T) :
  d !! key = None -> dict_getitem d key w = Raise (KeyError key).
Proof. intros E. unfold dict_getitem. by rewrite E. Qed.

Lemma get_int_missing (d : gmap string dval) key (w : world T) :
  d !! key = None -> get_int d key w = Raise (KeyError key).
Proof. intros E. unfold get_int. by rewrite (bind_raise _ _ _ _ (dict_getitem_missing d key w E)). Qed.

Lemma get_str_missing (d : gmap string dval) key (w : world T) :
  d !! key = None -> get_str d key w = Raise (KeyError key).
Proof. intros E. unfold get_str. by rewrite (bind_raise _ _ _ _ (dict_getitem_missing d key w E)). Qed.

Lemma get_arr_missing (d : gmap string dval) key (w : world T) :
  d !! key = None -> get_arr d key w = Raise (KeyError key).
Proof. intros E. unfold get_arr. by rewrite (bind_raise _ _ _ _ (dict_getitem_missing d key w E)). Qed.

Ltac read_int := erewrite bind_ok; [| apply get_int_ok; reflexivity].
Ltac read_str := erewrite bind_ok; [| apply get_str_ok; reflexivity].
Ltac read_arr := erewrite bind_ok; [| apply get_arr_ok; reflexivity].
Ltac miss_int := erewrite bind_raise; [reflexivity | apply get_int_missing; reflexivity].
Ltac miss_str := erewrite bind_raise; [reflexivity | apply get_str_missing; reflexivity].
Ltac miss_arr := erewrite bind_raise; [reflexivity | apply get_arr_missing; reflexivity].

(** X10. A snapshot from which one of its ten entries has been removed is
    refused by [__setstate__] with a KeyError that names the entry. *)
Theorem setstate_reports_missing_entry
    (self : Rbm) (cW cvb chb cdW cdhb cdvb : loc) (key : string) (w : world T) :
  key ∈ snapshot_keys ->
  Rbm__setstate__ (delete key (state_dict self cW cvb chb cdW cdhb cdvb)) w
  = Raise (KeyError key).
Proof.
  unfold snapshot_keys. rewrite !elem_of_cons, elem_of_nil.
  unfold Rbm__setstate__.
  intros [-> | [-> | [-> | [-> | [-> | [-> | [-> | [-> | [-> | [-> | []]]]]]]]]]].
  - miss_int.
  - read_int. miss_int.
  - do 2 read_int. miss_str.
  - do 2 read_int. read_str. miss_str.
  - do 2 read_int. do 2 read_str. miss_arr.
  - do 2 read_int. do 2 read_str. read_arr. miss_arr.
  - do 2 read_int. do 2 read_str. do 2 read_arr. miss_arr.
  - do 2 read_int. do 2 read_str. do 3 read_arr. miss_arr.
  - do 2 read_int. do 2 read_str. do 4 read_arr. miss_arr.
  - do 2 read_int. do 2 read_str. do 5 read_arr. miss_arr.
Qed.

(** X11. Restoring a snapshot whose visible or hidden type is not a key
    of [unittypes] raises the KeyError of the registry lookup; the visible
    type is looked up first. *)
Theorem setstate_unknown_type_raises
    (self : Rbm) (cW cvb chb cdW cdhb cdvb : loc) (w : world T) :
  unittypes !! vtype self = None ∨ unittypes !! htype self = None ->
  ∃ key, Rbm__setstate__ (state_dict self cW cvb chb cdW cdhb cdvb) w
         = Raise (KeyError key)
         ∧ unittypes !! key = None
         ∧ (unittypes !! vtype self = None -> key = vtype self)
         ∧ (key = vtype self ∨ key = htype self).
Proof.
  intros Hbad. unfold Rbm__setstate__.
  do 2 read_int. do 2 read_str. do 6 read_arr.
  destruct (unittypes !! vtype self) as [fv |] eqn:Ev.
  - destruct Hbad as [Hv | Hh]; [done |].
    erewrite bind_ok; [| apply dict_getitem_ok, Ev].
    erewrite bind_raise; [| apply dict_getitem_missing, Hh].
    exists (htype self). repeat split; auto. done.
  - erewrite bind_raise; [| apply dict_getitem_missing, Ev].
    exists (vtype self). repeat split; auto.
Qed.

Lemma setstate_inv (d : gmap string dval) (w w' : world T) (m : Rbm) :
  Rbm__setstate__ d w = Ok m w' ->
  w' = w
  ∧ d !! "nvis" = Some (DInt (nvis m)) ∧ d !! "nhid" = Some (DInt (nhid m))
  ∧ d !! "vtype" = Some (DStr (vtype m)) ∧ d !! "htype" = Some (DStr (htype m))
  ∧ d !! "W" = Some (DArr (W m)) ∧ d !! "vb" = Some (DArr (vb m))
  ∧ d !! "hb" = Some (DArr (hb m)) ∧ d !! "dW" = Some (DArr (dW m))
  ∧ d !! "dvb" = Some (DArr (dvb m)) ∧ d !! "dhb" = Some (DArr (dhb m))
  ∧ unittypes !! vtype m = Some (vact m) ∧ unittypes !! htype m = Some (hact m).
Proof.
  unfold Rbm__setstate__, get_int, get_str, get_arr, dict_getitem.
  unfold mbind, M_bind, mret, M_ret, raise.
  destruct (d !! "nvis") as [[n1 | |] |]; try done.
  destruct (d !! "nhid") as [[n2 | |] |]; try done.
  destruct (d !! "vtype") as [[| s1 |] |]; try done.
  destruct (d !! "htype") as [[| s2 |] |]; try done.
  destruct (d !! "W") as [[| | l1] |]; try done.
  destruct (d !! "vb") as [[| | l2] |]; try done.
  destruct (d !! "hb") as [[| | l3] |]; try done.
  destruct (d !! "dW") as [[| | l4] |]; try done.
  destruct (d !! "dvb") as [[| | l5] |]; try done.
  destruct (d !! "dhb") as [[| | l6] |]; try done.
  destruct (unittypes !! s1) as [fv |] eqn:Ev; try done.
  destruct (unittypes !! s2) as [fh |] eqn:Eh; try done.
  intros [= <- <-]. simpl. by repeat split.
Qed.

(** X12. [__setstate__] does not copy: whenever it returns, the world is
    unchanged, the type names of the model are keys of [unittypes] bound to
    its functions, and the arrays of the model are the very objects the
    dictionary holds, so that a later in-place change of the model's [W]
    is seen through the dictionary. *)
Theorem setstate_shares_arrays (d : gmap string dval) (w w' : world T) (m : Rbm) :
  Rbm__setstate__ d w = Ok m w' ->
  w' = w
  ∧ registered m
  ∧ (forall key l, field_of_key m key = Some l -> d !! key = Some (DArr l))
  ∧ (forall a, snapshot_array d "W" (mutate (W m) a w') = Some a).
Proof.
  intros E. apply setstate_inv in E
    as (-> & _ & _ & _ & _ & EW & Evb & Ehb & EdW & Edvb & Edhb & Ev & Eh).
  repeat split; try done.
  - intros key l Hk. unfold field_of_key in Hk.
    repeat case_decide; simplify_eq; done.
  - intros a. unfold snapshot_array. rewrite EW. simpl. apply lookup_insert_eq.
Qed.
End Restore.

Lemma setstate_reports_missing_entry_witness :
  Rbm__setstate__ (delete "hb" (state_dict rbm_2_1 1 2 3 4 6 5)) w_2_1
  = Raise (KeyError "hb").
Proof.
  apply (setstate_reports_missing_entry rbm_2_1 1 2 3 4 6 5 "hb" w_2_1).
  unfold snapshot_keys. repeat constructor.
Defined.

Lemma setstate_unknown_type_raises_witness :
  ∃ key, Rbm__setstate__ (state_dict rbm_bogus 1 2 3 4 6 5) w_2_1
         = Raise (KeyError key)
         ∧ unittypes !! key = None
         ∧ (unittypes !! vtype rbm_bogus = None -> key = vtype rbm_bogus)
         ∧ (key = vtype rbm_bogus ∨ key = htype rbm_bogus).
Proof.
  apply (setstate_unknown_type_raises rbm_bogus 1 2 3 4 6 5 w_2_1).
  left. reflexivity.
Defined.

Lemma setstate_shares_arrays_witness :
  w_2_1 = w_2_1
  ∧ registered rbm_2_1
  ∧ (forall key l, field_of_key rbm_2_1 key = Some l ->
       state_dict rbm_2_1 1 2 3 4 6 5 !! key = Some (DArr l))
  ∧ (forall a, snapshot_array (state_dict rbm_2_1 1 2 3 4 6 5) "W"
                 (mutate (W rbm_2_1) a w_2_1) = Some a).
Proof.
  apply (setstate_shares_arrays (state_dict rbm_2_1 1 2 3 4 6 5) w_2_1 w_2_1 rbm_2_1).
  reflexivity.
Defined.


(** ** Taking a snapshot *)

Section Frame.
Context {T : Type} `{FT : Float T}.

Lemma np_copy_frame (w : world T) l a :
  heap w !! l = Some a ->
  ∃ l' w', np_copy l w = Ok l' w'
    ∧ heap w !! l' = None
    ∧ (forall k b, heap w !! k = Some b -> heap w' !! k = Some b)
    ∧ rsrc w' = rsrc w ∧ rpos w' = rpos w.
Proof.
  intros E. unfold np_copy.
  assert (Hd : deref l w = Ok a w) by (unfold deref; by rewrite E).
  rewrite (bind_ok _ _ _ _ _ Hd).
  destruct (alloc_spec a w) as (l' & w' & R & N & S & K & B & Q & P).
  exists l', w'. by repeat split.
Qed.

Lemma dom_state_dict (self : Rbm) cW cvb chb cdW cdhb cdvb :
  dom (state_dict self cW cvb chb cdW cdhb cdvb) = list_to_set snapshot_keys.
Proof.
  unfold state_dict, snapshot_keys. rewrite !dom_insert_L, dom_empty_L. simpl.
  set_solver.
Qed.

(** X13. Taking a snapshot leaves the live model untouched: every object
    of the heap keeps its contents, the random generator does not advance,
    and [ff] returns what it returned before. The dictionary has exactly
    the ten keys of a snapshot, its scalars are those of the model, and
    its arrays are objects that did not exist before. *)
Theorem getstate_leaves_model_untouched (self : Rbm) (w : world T) :
  allocated self w ->
  ∃ d w1, Rbm__getstate__ self w = Ok d w1
    ∧ (forall l a, heap w !! l = Some a -> heap w1 !! l = Some a)
    ∧ rsrc w1 = rsrc w ∧ rpos w1 = rpos w
    ∧ (forall v, value_of (ff self v w1) = value_of (ff self v w))
    ∧ dom d = list_to_set snapshot_keys
    ∧ d !! "nvis" = Some (DInt (nvis self)) ∧ d !! "nhid" = Some (DInt (nhid self))
    ∧ d !! "vtype" = Some (DStr (vtype self))
    ∧ d !! "htype" = Some (DStr (htype self))
    ∧ (forall key l, d !! key = Some (DArr l) -> heap w !! l = None).
Proof.
  unfold allocated. rewrite !Forall_cons.
  intros ([aW EW] & [avb Evb] & [ahb Ehb] & [adW EdW] & [advb Edvb] & [adhb Edhb] & _).
  unfold Rbm__getstate__.
  destruct (np_copy_frame w _ _ EW) as (l1 & w1 & R1 & N1 & K1 & Q1 & P1).
  rewrite (bind_ok _ _ _ _ _ R1).
  destruct (np_copy_frame w1 _ _ (K1 _ _ Evb)) as (l2 & w2 & R2 & N2 & K2 & Q2 & P2).
  rewrite (bind_ok _ _ _ _ _ R2).
  destruct (np_copy_frame w2 _ _ (K2 _ _ (K1 _ _ Ehb)))
    as (l3 & w3 & R3 & N3 & K3 & Q3 & P3).
  rewrite (bind_ok _ _ _ _ _ R3).
  destruct (np_copy_frame w3 _ _ (K3 _ _ (K2 _ _ (K1 _ _ EdW))))
    as (l4 & w4 & R4 & N4 & K4 & Q4 & P4).
  rewrite (bind_ok _ _ _ _ _ R4).
  destruct (np_copy_frame w4 _ _ (K4 _ _ (K3 _ _ (K2 _ _ (K1 _ _ Edhb)))))
    as (l5 & w5 & R5 & N5 & K5 & Q5 & P5).
  rewrite (bind_ok _ _ _ _ _ R5).
  destruct (np_copy_frame w5 _ _ (K5 _ _ (K4 _ _ (K3 _ _ (K2 _ _ (K1 _ _ Edvb))))))
    as (l6 & w6 & R6 & N6 & K6 & Q6 & P6).
  rewrite (bind_ok _ _ _ _ _ R6).
  assert (Hkeep : forall l a, heap w !! l = Some a -> heap w6 !! l = Some a).
  { intros l a Hl. apply K6, K5, K4, K3, K2, K1. done. }
  assert (Hnone : forall w' w'' : world T,
            (forall k b, heap w' !! k = Some b -> heap w'' !! k = Some b) ->
            forall k, heap w'' !! k = None -> heap w' !! k = None).
  { intros w' w'' K k Hk. destruct (heap w' !! k) as [b |] eqn:E; [| done].
    by rewrite (K _ _ E) in Hk. }
  eexists _, w6. split; [reflexivity |].
  fold (state_dict self l1 l2 l3 l4 l5 l6).
  split; [exact Hkeep |].
  split; [by rewrite Q6, Q5, Q4, Q3, Q2, Q1 |].
  split; [by rewrite P6, P5, P4, P3, P2, P1 |].
  split.
  { intros v. apply value_of_ff_ext.
    - rewrite EW. by apply Hkeep.
    - rewrite Ehb. by apply Hkeep. }
  split; [apply dom_state_dict |].
  do 4 (split; [reflexivity |]).
  intros key l Hk. apply state_dict_arrays in Hk.
  rewrite !elem_of_cons, elem_of_nil in Hk.
  destruct Hk as [-> | [-> | [-> | [-> | [-> | [-> | []]]]]]]; eauto 10.
Qed.
End Frame.

Lemma getstate_leaves_model_untouched_witness :
  ∃ d w1, Rbm__getstate__ rbm_2_1 w_2_1 = Ok d w1
    ∧ (forall l a, heap w_2_1 !! l = Some a -> heap w1 !! l = Some a)
    ∧ rsrc w1 = rsrc w_2_1 ∧ rpos w1 = rpos w_2_1
    ∧ (forall v, value_of (ff rbm_2_1 v w1) = value_of (ff rbm_2_1 v w_2_1))
    ∧ dom d = list_to_set snapshot_keys
    ∧ d !! "nvis" = Some (DInt (nvis rbm_2_1))
    ∧ d !! "nhid" = Some (DInt (nhid rbm_2_1))
    ∧ d !! "vtype" = Some (DStr (vtype rbm_2_1))
    ∧ d !! "htype" = Some (DStr (htype rbm_2_1))
    ∧ (forall key l, d !! key = Some (DArr l) -> heap w_2_1 !! l = None).
Proof.
  apply (getstate_leaves_model_untouched rbm_2_1 w_2_1).
  repeat constructor; eexists; reflexivity.
Defined.

(** ** The derivative registry *)

Lemma derivable_logistic (x : R) : derivable_pt_lim logistic x (logistic_slope x).
Proof.
  pose proof (exp_pos (- x)) as He.
  assert (Hd : (1 + exp (- x) <> 0)%R) by lra.
  assert (D1 : derivable_pt_lim (opp_fct id) x (- 1)%R)
    by (apply derivable_pt_lim_opp, derivable_pt_lim_id).
  assert (D2 : derivable_pt_lim (comp exp (opp_fct id)) x (exp (- x) * - 1)%R).
  { apply derivable_pt_lim_comp; [exact D1 |]. apply derivable_pt_lim_exp. }
  assert (D3 : derivable_pt_lim (plus_fct (fct_cte 1) (comp exp (opp_fct id))) x (0 + exp (- x) * - 1)%R).
  { apply derivable_pt_lim_plus; [apply derivable_pt_lim_const | exact D2]. }
  pose proof (derivable_pt_lim_div (fct_cte 1) (plus_fct (fct_cte 1) (comp exp (opp_fct id)))
                x 0%R _ (derivable_pt_lim_const 1 x) D3) as D4.
  replace (logistic_slope x)
    with ((0 * (plus_fct (fct_cte 1) (comp exp (opp_fct id))) x - (0 + exp (- x) * - 1) * fct_cte 1 x)
          / Rsqr ((plus_fct (fct_cte 1) (comp exp (opp_fct id))) x))%R.
  - eapply derivable_pt_lim_ext; [| apply D4; exact Hd].
    intros z. reflexivity.
  - unfold logistic_slope, logistic, plus_fct, fct_cte, comp, opp_fct, id, Rsqr.
    field. exact Hd.
Qed.

Lemma cosh_positive (x : R) : (0 < cosh x)%R.
Proof.
  unfold cosh. pose proof (exp_pos x). pose proof (exp_pos (- x)). lra.
Qed.

Lemma cosh_sinh_square (x : R) : (cosh x * cosh x - sinh x * sinh x = 1)%R.
Proof.
  unfold cosh, sinh.
  assert (E : (exp x * exp (- x) = 1)%R) by (rewrite <- exp_plus, Rplus_opp_r; apply exp_0).
  nra.
Qed.

Lemma derivable_tanh (x : R) : derivable_pt_lim Rtrigo_def.tanh x (tanh_slope x).
Proof.
  pose proof (cosh_positive x) as Hc.
  pose proof (derivable_pt_lim_div sinh cosh x _ _
                (derivable_pt_lim_sinh x) (derivable_pt_lim_cosh x)) as D.
  replace (tanh_slope x)
    with ((cosh x * cosh x - sinh x * sinh x) / Rsqr (cosh x))%R.
  - eapply derivable_pt_lim_ext; [| apply D; lra].
    intros z. reflexivity.
  - unfold tanh_slope, Rtrigo_def.tanh, Rsqr. field. lra.
Qed.

Lemma np_binop_amap_r {T U} (f : T -> T -> U) (g : T -> T) (y : ndarray T) :
  array_ok y -> np_binop f y (amap g y) = inr (amap (fun a => f a (g a)) y).
Proof.
  intros Hy. rewrite np_binop_azip;
    [| by rewrite shape_of_amap | done | by apply array_ok_amap].
  f_equal. destruct y as [xs | c rows]; simpl.
  - by rewrite zip_with_fmap_r, zip_with_diag.
  - f_equal. rewrite zip_with_fmap_r, zip_with_diag. apply list_fmap_ext.
    intros i row _. by rewrite zip_with_fmap_r, zip_with_diag.
Qed.

Lemma amap_amap {A B C} (g : B -> C) (f : A -> B) (a : ndarray A) :
  amap g (amap f a) = amap (fun x => g (f x)) a.
Proof.
  destruct a as [xs | c rows]; simpl.
  - by rewrite <- list_fmap_compose.
  - f_equal. rewrite <- list_fmap_compose. apply list_fmap_ext.
    intros i row _. simpl. by rewrite <- list_fmap_compose.
Qed.

(** X14. The registries pair "sigmoid" with its derivative: on a
    rectangular array [x], [dsigmoid] applied to the output of [sigmoid]
    returns, entry by entry, the derivative of the logistic function at
    the entry of [x]. *)
Theorem dsigmoid_of_sigmoid_is_derivative (x : ndarray R) (w : world R) :
  array_ok x ->
  unittypes !! "sigmoid" = Some f_sigmoid
  ∧ derivatives !! "sigmoid" = Some f_dsigmoid
  ∧ ∃ y, call f_sigmoid x w = Ok (VArr y) w
         ∧ call f_dsigmoid y w = Ok (VArr (amap logistic_slope x)) w
         ∧ (forall xi, derivable_pt_lim logistic xi (logistic_slope xi)).
Proof.
  intros Hx. do 2 (split; [reflexivity |]).
  exists (amap logistic x). split; [reflexivity |]. split.
  - unfold call, dsigmoid, fmap, M_fmap.
    rewrite (np_binop_amap_r fmul (fsub (fz 1)) (amap logistic x))
      by (by apply array_ok_amap).
    simpl. by rewrite amap_amap.
  - apply derivable_logistic.
Qed.

Lemma dsigmoid_of_sigmoid_is_derivative_witness :
  unittypes !! "sigmoid" = Some f_sigmoid
  ∧ derivatives !! "sigmoid" = Some f_dsigmoid
  ∧ ∃ y, call f_sigmoid (A1 [0%R]) w_half = Ok (VArr y) w_half
         ∧ call f_dsigmoid y w_half = Ok (VArr (amap logistic_slope (A1 [0%R]))) w_half
         ∧ (forall xi, derivable_pt_lim logistic xi (logistic_slope xi)).
Proof. apply (dsigmoid_of_sigmoid_is_derivative (A1 [0%R]) w_half). exact I. Defined.

(** X15. The registries pair "tanh" with its derivative: the activation
    registered under "tanh" is [numpy.tanh], and [dtanh] applied to its
    output returns, entry by entry, the derivative of tanh at the entry of
    the input. *)
Theorem dtanh_of_tanh_is_derivative (x : ndarray R) (w : world R) :
  unittypes !! "tanh" = Some f_numpy_tanh
  ∧ derivatives !! "tanh" = Some f_dtanh
  ∧ call f_numpy_tanh x w = Ok (VArr (amap Rtrigo_def.tanh x)) w
  ∧ call f_dtanh (amap Rtrigo_def.tanh x) w = Ok (VArr (amap tanh_slope x)) w
  ∧ (forall xi, derivable_pt_lim Rtrigo_def.tanh xi (tanh_slope xi)).
Proof.
  do 3 (split; [reflexivity |]). split.
  - unfold call, dtanh, fmap, M_fmap. simpl. by rewrite amap_amap.
  - apply derivable_tanh.
Qed.

(** ** The activation registry *)

Lemma entries_amap {A B} (f : A -> B) (a : ndarray A) :
  entries (amap f a) = f <$> entries a.
Proof.
  destruct a as [xs | c rows]; [done |].
  unfold amap, entries.
  induction rows as [| row rows IH]; [done |].
  rewrite fmap_cons. change (concat (?r :: ?rs)) with (r ++ concat rs).
  by rewrite fmap_app, IH.
Qed.

Section Registry.
Context {T : Type} `{FT : Float T}.

Lemma pthresh_value (x : ndarray T) (w : world T) :
  array_ok x ->
  pthresh x w
  = Ok (amap float32_of_bool
          (azip fge (amap sigmoid1 x) (draw_shape (rsrc w) (rpos w) (shape_of x))))
       (advance w (size_of (shape_of x))).
Proof.
  intros Hx. unfold pthresh, sigmoid, np_random_random. run.
  rewrite np_binop_azip;
    [done | by rewrite shape_of_amap, shape_of_draw_shape
     | by apply array_ok_amap | apply array_ok_draw_shape].
Qed.

(** X16. On a rectangular array [x], [pthresh] returns an array of the
    shape of [x] whose entries are all 0.0 or 1.0; it consumes one uniform
    draw per entry and leaves the heap unchanged. *)
Theorem pthresh_returns_binary_array (x : ndarray T) (w : world T) :
  array_ok x ->
  ∃ y w', pthresh x w = Ok y w'
          ∧ shape_of y = shape_of x
          ∧ binary y
          ∧ rpos w' = rpos w + size_of (shape_of x)
          ∧ heap w' = heap w.
Proof.
  intros Hx. rewrite (pthresh_value x w Hx). eexists _, _.
  split; [reflexivity |]. repeat split.
  - rewrite shape_of_amap, shape_of_azip, shape_of_amap; [done |].
    by rewrite shape_of_amap, shape_of_draw_shape.
  - unfold binary. rewrite entries_amap, Forall_fmap. apply Forall_forall.
    intros b _. simpl. destruct b; auto.
Qed.

(** X17. The module's own [tanh] reads a global [a] that does not exist
    and raises NameError on every input, but the registry does not use it:
    "tanh" is bound to [numpy.tanh], which returns the hyperbolic tangent
    of every entry. *)
Theorem tanh_is_broken_but_not_registered (x : ndarray T) (w : world T) :
  units_globals !! "tanh" = Some (PFunc f_tanh)
  ∧ call f_tanh x w = Raise (NameError "a")
  ∧ unittypes !! "tanh" = Some f_numpy_tanh
  ∧ call f_numpy_tanh x w = Ok (VArr (amap ftanh x)) w.
Proof. by repeat split. Qed.


Lemma unittypes_values (name : string) (f : func) :
  unittypes !! name = Some f ->
  f ∈ [f_pthresh; f_sigmoid; f_numpy_tanh; f_rectlinear; f_linear].
Proof.
  unfold unittypes. intros E.
  repeat (rewrite lookup_insert in E; case_decide;
          [injection E as <-; rewrite !elem_of_cons; tauto |]).
  by rewrite lookup_empty in E.
Qed.

(** X19. What each of the five registered activations does when it is
    called through the registry on a rectangular array [x]: "linear" and
    "rectlinear" raise NameError; "sigmoid" and "tanh" return the logistic
    function and the hyperbolic tangent of every entry and leave the world
    unchanged; "pthresh" returns an array of the shape of [x] and draws
    one uniform number per entry. No other name is registered. *)
Theorem registered_activations (x : ndarray T) (w : world T) :
  array_ok x ->
  activate "linear" x w = Raise (NameError "a")
  ∧ activate "rectlinear" x w = Raise (NameError "a")
  ∧ activate "sigmoid" x w = Ok (VArr (amap sigmoid1 x)) w
  ∧ activate "tanh" x w = Ok (VArr (amap ftanh x)) w
  ∧ (∃ y, activate "pthresh" x w = Ok (VArr y) (advance w (size_of (shape_of x)))
          ∧ shape_of y = shape_of x)
  ∧ (forall name, name ∉ ["pthresh"; "sigmoid"; "tanh"; "rectlinear"; "linear"] ->
       activate name x w = Raise (KeyError name)).
Proof.
  intros Hx. repeat split; try reflexivity.
  - unfold activate.
    rewrite (bind_ok _ _ w f_pthresh w (dict_getitem_ok unittypes "pthresh" _ w eq_refl)).
    unfold call, fmap, M_fmap. rewrite (pthresh_value x w Hx).
    eexists. split; [reflexivity |].
    rewrite shape_of_amap, shape_of_azip, shape_of_amap; [done |].
    by rewrite shape_of_amap, shape_of_draw_shape.
  - intros name Hn. unfold activate, dict_getitem.
    rewrite !not_elem_of_cons in Hn.
    unfold unittypes. rewrite !lookup_insert_ne, lookup_empty by (intros <-; tauto).
    reflexivity.
Qed.

Lemma derivatives_values (name : string) (f : func) :
  derivatives !! name = Some f ->
  f ∈ [f_dsigmoid; f_dtanh; f_drectlinear; f_dlinear].
Proof.
  unfold derivatives. intros E.
  repeat (rewrite lookup_insert in E; case_decide;
          [injection E as <-; rewrite !elem_of_cons; tauto |]).
  by rewrite lookup_empty in E.
Qed.

(** X20. The keys of [derivatives] are the activation names other than
    "pthresh", and each is bound to the derivative of its name: called
    through the registry on a rectangular array [y], "linear" gives the
    scalar 1.0, "sigmoid" gives y (1 - y), "tanh" gives 1 - y^2 and
    "rectlinear" gives 1.0 where y > 0 and 0.0 elsewhere, entry by entry;
    none changes the world, and "pthresh" raises KeyError. *)
Theorem registered_derivatives (y : ndarray T) (w : world T) :
  array_ok y ->
  dom derivatives = dom unittypes ∖ {["pthresh"]}
  ∧ differentiate "linear" y w = Ok (VNum (fz 1)) w
  ∧ differentiate "sigmoid" y w
    = Ok (VArr (amap (fun a => fmul a (fsub (fz 1) a)) y)) w
  ∧ differentiate "tanh" y w
    = Ok (VArr (amap (fun a => fsub (fz 1) (fmul a a)) y)) w
  ∧ differentiate "rectlinear" y w
    = Ok (VArr (amap (fun a => float32_of_bool (fgt a (fz 0))) y)) w
  ∧ differentiate "pthresh" y w = Raise (KeyError "pthresh").
Proof.
  intros Hy. split.
  { unfold derivatives, unittypes. rewrite !dom_insert_L, dom_empty_L.
    apply set_eq. intros s. rewrite elem_of_difference, !elem_of_union,
      !elem_of_singleton, elem_of_empty.
    split; [| tauto]. intros H. split; [tauto |].
    intros ->. repeat destruct H as [H | H]; done. }
  repeat split; try reflexivity.
  unfold differentiate.
  rewrite (bind_ok _ _ w f_dsigmoid w (dict_getitem_ok derivatives "sigmoid" _ w eq_refl)).
  unfold call, dsigmoid, fmap, M_fmap, lift.
  by rewrite np_binop_amap_r by done.
Qed.
End Registry.

Lemma pthresh_returns_binary_array_witness :
  ∃ y w', pthresh (A1 [0%R]) w_half = Ok y w'
          ∧ shape_of y = shape_of (A1 [0%R])
          ∧ binary y
          ∧ rpos w' = rpos w_half + size_of (shape_of (A1 [0%R]))
          ∧ heap w' = heap w_half.
Proof. apply (pthresh_returns_binary_array (A1 [0%R]) w_half). exact I. Defined.

Lemma registered_activations_witness :
  activate "linear" (A1 [0%R]) w_half = Raise (NameError "a")
  ∧ activate "rectlinear" (A1 [0%R]) w_half = Raise (NameError "a")
  ∧ activate "sigmoid" (A1 [0%R]) w_half = Ok (VArr (amap sigmoid1 (A1 [0%R]))) w_half
  ∧ activate "tanh" (A1 [0%R]) w_half = Ok (VArr (amap ftanh (A1 [0%R]))) w_half
  ∧ (∃ y, activate "pthresh" (A1 [0%R]) w_half
          = Ok (VArr y) (advance w_half (size_of (shape_of (A1 [0%R]))))
          ∧ shape_of y = shape_of (A1 [0%R]))
  ∧ (forall name, name ∉ ["pthresh"; "sigmoid"; "tanh"; "rectlinear"; "linear"] ->
       activate name (A1 [0%R]) w_half = Raise (KeyError name)).
Proof. apply (registered_activations (A1 [0%R]) w_half). exact I. Defined.

Lemma registered_derivatives_witness :
  dom derivatives = dom unittypes ∖ {["pthresh"]}
  ∧ differentiate "linear" (A1 [0%R]) w_half = Ok (VNum (fz 1)) w_half
  ∧ differentiate "sigmoid" (A1 [0%R]) w_half
    = Ok (VArr (amap (fun a => fmul a (fsub (fz 1) a)) (A1 [0%R]))) w_half
  ∧ differentiate "tanh" (A1 [0%R]) w_half
    = Ok (VArr (amap (fun a => fsub (fz 1) (fmul a a)) (A1 [0%R]))) w_half
  ∧ differentiate "rectlinear" (A1 [0%R]) w_half
    = Ok (VArr (amap (fun a => float32_of_bool (fgt a (fz 0))) (A1 [0%R]))) w_half
  ∧ differentiate "pthresh" (A1 [0%R]) w_half = Raise (KeyError "pthresh").
Proof. apply (registered_derivatives (A1 [0%R]) w_half). exact I. Defined.

(** ** The free energy sums the hidden layer out *)

Lemma sum_over_app hs1 hs2 f :
  sum_over (hs1 ++ hs2) f = (sum_over hs1 f + sum_over hs2 f)%R.
Proof.
  unfold sum_over. induction hs1 as [| h hs1 IH]; simpl; [lra |].
  rewrite IH. lra.
Qed.

Lemma sum_over_cons (b : R) hs f :
  sum_over (cons b <$> hs) f = sum_over hs (fun h => f (b :: h)).
Proof.
  unfold sum_over. induction hs as [| h hs IH]; simpl; [done |].
  f_equal. exact IH.
Qed.

Lemma sum_over_ext hs f g :
  (forall h, h ∈ hs -> f h = g h) -> sum_over hs f = sum_over hs g.
Proof.
  unfold sum_over. induction hs as [| h hs IH]; intros E; simpl; [done |].
  rewrite E by apply list_elem_of_here.
  rewrite IH; [done |]. intros h' Hh'. apply E. by apply list_elem_of_further.
Qed.

Lemma sum_over_scal (c : R) hs f :
  sum_over hs (fun h => c * f h)%R = (c * sum_over hs f)%R.
Proof.
  unfold sum_over. induction hs as [| h hs IH]; simpl; [lra |].
  rewrite IH. lra.
Qed.

Lemma length_binary_vectors n h : h ∈ binary_vectors n -> length h = n.
Proof.
  revert h. induction n as [| n IH]; intros h; simpl.
  - rewrite list_elem_of_singleton. by intros ->.
  - rewrite elem_of_app, !list_elem_of_fmap.
    intros [(h' & -> & Hh') | (h' & -> & Hh')]; simpl; f_equal; by apply IH.
Qed.

Lemma big_sum_scal n (c : R) (f : nat -> R) :
  big_sum n (fun i => c * f i)%R = (c * big_sum n f)%R.
Proof. induction n as [| n IH]; simpl; [lra |]. rewrite IH. lra. Qed.

Lemma exp_softplus (x : R) : exp (softplus x) = (1 + exp x)%R.
Proof. unfold softplus. apply exp_ln. pose proof (exp_pos x). lra. Qed.

(** The sum over all binary vectors factorises unit by unit. *)
Lemma sum_over_binary_vectors n :
  forall x : nat -> R,
  sum_over (binary_vectors n) (fun h => exp (big_sum n (fun j => entry h j * x j)%R))
  = exp (big_sum n (fun j => softplus (x j))).
Proof.
  induction n as [| n IH]; intros x.
  - unfold sum_over. simpl. lra.
  - change (binary_vectors (S n))
      with ((cons 0%R <$> binary_vectors n) ++ (cons 1%R <$> binary_vectors n)).
    rewrite sum_over_app, !sum_over_cons.
    rewrite (big_sum_shift n (fun j => softplus (x j))), exp_plus, exp_softplus.
    rewrite <- (IH (fun j => x (S j))).
    assert (E0 : sum_over (binary_vectors n)
                   (fun h => exp (big_sum (S n) (fun j => entry (0%R :: h) j * x j)%R))
                 = sum_over (binary_vectors n)
                     (fun h => exp (big_sum n (fun j => entry h j * x (S j))%R))).
    { apply sum_over_ext. intros h _. rewrite big_sum_shift. unfold entry. simpl.
      by rewrite Rmult_0_l, Rplus_0_l. }
    assert (E1 : sum_over (binary_vectors n)
                   (fun h => exp (big_sum (S n) (fun j => entry (1%R :: h) j * x j)%R))
                 = (exp (x 0%nat)
                    * sum_over (binary_vectors n)
                        (fun h => exp (big_sum n (fun j => entry h j * x (S j))%R)))%R).
    { rewrite <- sum_over_scal. apply sum_over_ext. intros h _.
      rewrite big_sum_shift, exp_plus. unfold entry. simpl.
      by rewrite Rmult_1_l. }
    rewrite E0, E1. ring.
Qed.

(** The joint energy is affine in the hidden vector. *)
Lemma energy_spec_affine (Wm : list (list R)) (vbv hbv v h : list R) :
  length h = length hbv ->
  energy_spec Wm vbv hbv v h
  = (- big_sum (length v) (fun i => entry v i * entry vbv i)
     - big_sum (length hbv) (fun j => entry h j * preact_at Wm hbv v j))%R.
Proof.
  intros Hl. unfold energy_spec, preact_at. rewrite Hl.
  rewrite big_sum_swap.
  rewrite (big_sum_ext (length hbv)
             (fun j => entry h j
                       * (big_sum (length v) (fun i => mentry Wm j i * entry v i)
                          + entry hbv j))%R
             (fun j => entry h j * entry hbv j
                       + big_sum (length v)
                           (fun i => mentry Wm j i * entry h j * entry v i))%R).
  - rewrite big_sum_plus. lra.
  - intros j _. rewrite Rmult_plus_distr_l, <- big_sum_scal.
    rewrite Rplus_comm. f_equal. apply big_sum_ext. intros i _. lra.
Qed.

Lemma partition_function (Wm : list (list R)) (vbv hbv v : list R) :
  exp (- free_energy_spec Wm vbv hbv v)
  = sum_over (binary_vectors (length hbv))
             (fun h => exp (- energy_spec Wm vbv hbv v h)).
Proof.
  rewrite (sum_over_ext _ _
    (fun h => exp (big_sum (length v) (fun i => entry v i * entry vbv i))
              * exp (big_sum (length hbv)
                       (fun j => entry h j * preact_at Wm hbv v j)))%R).
  - rewrite sum_over_scal, (sum_over_binary_vectors (length hbv)), <- exp_plus.
    f_equal. unfold free_energy_spec. lra.
  - intros h Hh. apply length_binary_vectors in Hh.
    rewrite energy_spec_affine by done. rewrite <- exp_plus. f_equal. lra.
Qed.

Lemma free_energy_value_exact (self : Rbm) (w : world R) Wm vbv hbv (v : list R) :
  model_in self w Wm vbv hbv ->
  length v = Z.to_nat (nvis self) ->
  free_energy self v w = Ok (free_energy_spec Wm vbv hbv v) w.
Proof.
  intros [HW Hvb Hhb Hrect Hrows Hvbl Hhbl] Hv. unfold free_energy.
  rewrite (bind_ok _ _ _ _ _ (deref1_ok _ _ _ Hvb)).
  rewrite np_binop_azip; simpl; try done; [| congruence].
  run.
  rewrite (deref2_ok _ _ _ _ HW).
  unfold np_dot. rewrite Hv, Nat.eqb_refl. run.
  rewrite (deref1_ok _ _ _ Hhb).
  rewrite np_binop_azip; simpl; try done;
    [| rewrite length_fmap; congruence].
  rewrite pre_is_preacts by congruence.
  change (fun xj : R => ln (1 + exp xj)) with softplus.
  rewrite sum_softplus_preacts, sum_zip_with by congruence.
  f_equal. unfold free_energy_spec. lra.
Qed.

Lemma energy_value_exact (self : Rbm) (w : world R) Wm vbv hbv (v h : list R) :
  model_in self w Wm vbv hbv ->
  length v = Z.to_nat (nvis self) ->
  length h = Z.to_nat (nhid self) ->
  energy self v h w = Ok (energy_spec Wm vbv hbv v h) w.
Proof.
  intros Hm Hv Hh. rewrite (energy_run self w Wm vbv hbv v h Hm Hv Hh).
  destruct Hm as [HW Hvb Hhb Hrect Hrows Hvbl Hhbl].
  rewrite !sum_zip_with by congruence.
  rewrite interaction_sum by congruence.
  unfold energy_spec. f_equal. lra.
Qed.

(** X23. In exact arithmetic [free_energy] returns
    F(v) = - sum_i v_i vb_i - sum_j log(1 + exp(x_j)), and this is the joint
    energy with the hidden layer summed out: exp(-F(v)) is the sum of
    exp(-E(v, h)) over the 2^nhid binary hidden vectors [h], where E(v, h)
    is what [energy] returns. *)
Theorem free_energy_sums_out_hidden_layer
    (self : Rbm) (w : world R) Wm vbv hbv (v : list R) :
  model_in self w Wm vbv hbv ->
  length v = Z.to_nat (nvis self) ->
  free_energy self v w = Ok (free_energy_spec Wm vbv hbv v) w
  ∧ (forall h, h ∈ binary_vectors (Z.to_nat (nhid self)) ->
       energy self v h w = Ok (energy_spec Wm vbv hbv v h) w)
  ∧ exp (- free_energy_spec Wm vbv hbv v)
    = sum_over (binary_vectors (Z.to_nat (nhid self)))
               (fun h => exp (- energy_spec Wm vbv hbv v h)).
Proof.
  intros Hm Hv. split; [by apply free_energy_value_exact |]. split.
  - intros h Hh. apply energy_value_exact; try done.
    by apply length_binary_vectors.
  - destruct Hm as [_ _ _ _ _ _ Hhbl]. rewrite <- Hhbl. apply partition_function.
Qed.

Lemma free_energy_sums_out_hidden_layer_witness :
  free_energy rbm_2_1 [1%R; 1%R] w_2_1
  = Ok (free_energy_spec [[1%R; (-1)%R]] [0%R; 0%R] [0%R] [1%R; 1%R]) w_2_1
  ∧ (forall h, h ∈ binary_vectors (Z.to_nat (nhid rbm_2_1)) ->
       energy rbm_2_1 [1%R; 1%R] h w_2_1
       = Ok (energy_spec [[1%R; (-1)%R]] [0%R; 0%R] [0%R] [1%R; 1%R] h) w_2_1)
  ∧ exp (- free_energy_spec [[1%R; (-1)%R]] [0%R; 0%R] [0%R] [1%R; 1%R])
    = sum_over (binary_vectors (Z.to_nat (nhid rbm_2_1)))
               (fun h => exp (- energy_spec [[1%R; (-1)%R]] [0%R; 0%R] [0%R]
                                            [1%R; 1%R] h)).
Proof.
  apply (free_energy_sums_out_hidden_layer rbm_2_1 w_2_1
           [[1%R; (-1)%R]] [0%R; 0%R] [0%R] [1%R; 1%R]).
  - exact model_in_2_1.
  - reflexivity.
Defined.

(** ** Propagation and the conditionals of the energy *)

Lemma big_sum_update n (f g : nat -> R) (j : nat) :
  j < n -> (forall k, k <> j -> f k = g k) ->
  big_sum n f = (big_sum n g + (f j - g j))%R.
Proof.
  induction n as [| n IH]; intros Hj E; [lia |]. simpl.
  destruct (decide (j = n)) as [-> | Hne].
  - rewrite (big_sum_ext n f g) by (intros i Hi; apply E; lia). lra.
  - rewrite IH by (done || lia). rewrite (E n) by lia. lra.
Qed.

Lemma entry_insert_eq (h : list R) (j : nat) (a : R) :
  j < length h -> entry (<[j := a]> h) j = a.
Proof.
  intros Hj. unfold entry. rewrite nth_lookup.
  by rewrite list_lookup_insert_eq.
Qed.

Lemma entry_insert_ne (h : list R) (j k : nat) (a : R) :
  k <> j -> entry (<[j := a]> h) k = entry h k.
Proof.
  intros Hne. unfold entry. rewrite !nth_lookup.
  by rewrite list_lookup_insert_ne.
Qed.

Lemma gibbs_conditional_logistic (e_on e_off x : R) :
  (e_off - e_on)%R = x -> gibbs_conditional e_on e_off = logistic x.
Proof.
  intros <-. unfold gibbs_conditional, logistic.
  replace (- (e_off - e_on))%R with (- e_off + e_on)%R by lra.
  rewrite exp_plus, (exp_Ropp e_on).
  pose proof (exp_pos e_on) as H1. pose proof (exp_pos (- e_off)) as H2.
  field. split; [| lra].
  assert (0 < / exp e_on)%R by (by apply Rinv_0_lt_compat).
  assert (0 < exp (- e_off) * exp e_on)%R by (by apply Rmult_lt_0_compat).
  lra.
Qed.

(** The joint energy is affine in the visible vector. *)
Lemma energy_spec_affine_visible (Wm : list (list R)) (vbv hbv v h : list R) :
  energy_spec Wm vbv hbv v h
  = (- big_sum (length h) (fun j => entry h j * entry hbv j)
     - big_sum (length v) (fun i =>
         entry v i
         * (big_sum (length h) (fun j => mentry Wm j i * entry h j) + entry vbv i)))%R.
Proof.
  unfold energy_spec.
  rewrite (big_sum_ext (length v)
             (fun i => entry v i
                       * (big_sum (length h) (fun j => mentry Wm j i * entry h j)
                          + entry vbv i))%R
             (fun i => entry v i * entry vbv i
                       + big_sum (length h)
                           (fun j => mentry Wm j i * entry h j * entry v i))%R).
  - rewrite big_sum_plus. lra.
  - intros i _. rewrite Rmult_plus_distr_l, <- big_sum_scal.
    rewrite Rplus_comm. f_equal. apply big_sum_ext. intros j _. lra.
Qed.

Lemma energy_gap_hidden (Wm : list (list R)) (vbv hbv v h : list R) (j : nat) :
  length h = length hbv -> j < length h ->
  (energy_spec Wm vbv hbv v (<[j := 0%R]> h)
   - energy_spec Wm vbv hbv v (<[j := 1%R]> h))%R
  = preact_at Wm hbv v j.
Proof.
  intros Hl Hj.
  rewrite !energy_spec_affine by (by rewrite length_insert).
  rewrite (big_sum_update (length hbv)
             (fun k => entry (<[j := 1%R]> h) k * preact_at Wm hbv v k)%R
             (fun k => entry (<[j := 0%R]> h) k * preact_at Wm hbv v k)%R j).
  - rewrite !entry_insert_eq by done. lra.
  - lia.
  - intros k Hk. by rewrite !entry_insert_ne.
Qed.

Lemma energy_gap_visible (Wm : list (list R)) (vbv hbv v h : list R) (i : nat) :
  i < length v ->
  (energy_spec Wm vbv hbv (<[i := 0%R]> v) h
   - energy_spec Wm vbv hbv (<[i := 1%R]> v) h)%R
  = (big_sum (length h) (fun j => mentry Wm j i * entry h j) + entry vbv i)%R.
Proof.
  intros Hi.
  rewrite !energy_spec_affine_visible, !length_insert.
  rewrite (big_sum_update (length v)
             (fun k => entry (<[i := 1%R]> v) k
                       * (big_sum (length h) (fun j => mentry Wm j k * entry h j)
                          + entry vbv k))%R
             (fun k => entry (<[i := 0%R]> v) k
                       * (big_sum (length h) (fun j => mentry Wm j k * entry h j)
                          + entry vbv k))%R i).
  - rewrite !entry_insert_eq by done. lra.
  - done.
  - intros k Hk. by rewrite !entry_insert_ne.
Qed.

(** X24. [ff] computes the conditionals of the distribution that
    [energy] defines: for every hidden vector [h] of length [nhid] and
    every hidden unit [j], entry [j] of [ff v] is
    exp(-E1) / (exp(-E1) + exp(-E0)), where E1 and E0 are what [energy]
    returns on [v] and [h] with unit [j] set to 1 and to 0 (exact
    arithmetic). *)
Theorem ff_is_hidden_conditional
    (self : Rbm) (w : world R) Wm vbv hbv (v h : list R) (j : nat) :
  model_in self w Wm vbv hbv ->
  length v = Z.to_nat (nvis self) ->
  length h = Z.to_nat (nhid self) ->
  j < length h ->
  ∃ hs e1 e0,
    ff self v w = Ok (A1 hs) w
    ∧ energy self v (<[j := 1%R]> h) w = Ok e1 w
    ∧ energy self v (<[j := 0%R]> h) w = Ok e0 w
    ∧ entry hs j = gibbs_conditional e1 e0.
Proof.
  intros Hm Hv Hh Hj.
  rewrite (ff_run self w Wm vbv hbv v Hm Hv).
  rewrite !(energy_value_exact self w Wm vbv hbv) by (by rewrite ?length_insert).
  eexists _, _, _. do 3 (split; [reflexivity |]).
  destruct Hm as [HW Hvb Hhb Hrect Hrows Hvbl Hhbl].
  rewrite entry_fmap
    by (rewrite length_zip_with_l_eq; rewrite length_fmap; [lia | congruence]).
  rewrite entry_pre by (congruence || lia).
  symmetry. apply gibbs_conditional_logistic.
  apply energy_gap_hidden; congruence.
Qed.

Lemma ff_is_hidden_conditional_witness :
  ∃ hs e1 e0,
    ff rbm_2_1 [1%R; 1%R] w_2_1 = Ok (A1 hs) w_2_1
    ∧ energy rbm_2_1 [1%R; 1%R] (<[0 := 1%R]> [0%R]) w_2_1 = Ok e1 w_2_1
    ∧ energy rbm_2_1 [1%R; 1%R] (<[0 := 0%R]> [0%R]) w_2_1 = Ok e0 w_2_1
    ∧ entry hs 0 = gibbs_conditional e1 e0.
Proof.
  apply (ff_is_hidden_conditional rbm_2_1 w_2_1 [[1%R; (-1)%R]] [0%R; 0%R] [0%R]).
  - exact model_in_2_1.
  - reflexivity.
  - reflexivity.
  - simpl. lia.
Defined.

(** X25. [fb] computes the conditionals of the visible units in the same
    way: for every visible vector [v] of length [nvis] and every visible
    unit [i], entry [i] of [fb h] is exp(-E1) / (exp(-E1) + exp(-E0)),
    where E1 and E0 are what [energy] returns on [h] and [v] with unit [i]
    set to 1 and to 0 (exact arithmetic). *)
Theorem fb_is_visible_conditional
    (self : Rbm) (w : world R) Wm vbv hbv (v h : list R) (i : nat) :
  model_in self w Wm vbv hbv ->
  length v = Z.to_nat (nvis self) ->
  length h = Z.to_nat (nhid self) ->
  i < length v ->
  ∃ vs e1 e0,
    fb self h w = Ok (A1 vs) w
    ∧ energy self (<[i := 1%R]> v) h w = Ok e1 w
    ∧ energy self (<[i := 0%R]> v) h w = Ok e0 w
    ∧ entry vs i = gibbs_conditional e1 e0.
Proof.
  intros Hm Hv Hh Hi.
  rewrite (fb_run self w Wm vbv hbv h Hm Hh).
  rewrite !(energy_value_exact self w Wm vbv hbv) by (by rewrite ?length_insert).
  eexists _, _, _. do 3 (split; [reflexivity |]).
  destruct Hm as [HW Hvb Hhb Hrect Hrows Hvbl Hhbl].
  rewrite entry_fmap
    by (rewrite length_zip_with_l_eq; rewrite length_fmap, length_seq; [lia | congruence]).
  rewrite entry_zip_with by (rewrite ?length_fmap, ?length_seq; lia).
  rewrite entry_seq by lia.
  rewrite dot_row_sum by (rewrite length_column; congruence).
  symmetry. apply gibbs_conditional_logistic.
  rewrite energy_gap_visible by done. f_equal.
  apply big_sum_ext. intros j Hj. by rewrite entry_column by lia.
Qed.

Lemma fb_is_visible_conditional_witness :
  ∃ vs e1 e0,
    fb rbm_2_1 [1%R] w_2_1 = Ok (A1 vs) w_2_1
    ∧ energy rbm_2_1 (<[1 := 1%R]> [0%R; 0%R]) [1%R] w_2_1 = Ok e1 w_2_1
    ∧ energy rbm_2_1 (<[1 := 0%R]> [0%R; 0%R]) [1%R] w_2_1 = Ok e0 w_2_1
    ∧ entry vs 1 = gibbs_conditional e1 e0.
Proof.
  apply (fb_is_visible_conditional rbm_2_1 w_2_1 [[1%R; (-1)%R]] [0%R; 0%R] [0%R]).
  - exact model_in_2_1.
  - reflexivity.
  - reflexivity.
  - simpl. lia.
Defined.
